(** * SLaNg math library: a shallow embedding of the expression engine

    The engine works on plain JavaScript values: numbers, objects used as
    maps from variable names to exponents, arrays of terms.  This file
    embeds the functions of the library one by one, keeping their names,
    and proves properties of the embedded functions. *)

From Stdlib Require Import ZArith Zquot QArith Qcanon Qcabs.
From Stdlib Require Import List String Bool Lia Sorted Permutation.
From Stdlib Require PrimFloat FloatOps FloatAxioms.
Import ListNotations.

Open Scope string_scope.
Open Scope list_scope.
Open Scope Z_scope.

(** ** JavaScript numbers

    A finite number is an exact rational: the rounding and the overflow of
    doubles are not modelled, and the two zeros are one.  What is proved
    about the value of a result therefore holds in exact arithmetic, and
    is stated so; what is proved about the shape of a result (which terms,
    which operation on which arguments, which failure) does not depend on
    it.  The three values that are not finite are kept, because division
    and [Math.pow] produce them instead of failing. *)
Module Num.

Inductive number : Type :=
| Fin (q : Qc)
| PosInf
| NegInf
| NaN.

Definition ofZ (z : Z) : number := Fin (Q2Qc (inject_Z z)).

Definition zero : number := ofZ 0.
Definition one : number := ofZ 1.

Definition isFinite (a : number) : bool :=
  match a with Fin _ => true | _ => false end.

Definition Qc_ltb (a b : Qc) : bool :=
  match (a ?= b)%Qc with Lt => true | _ => false end.

Definition Qc_is0 (a : Qc) : bool := Qc_eq_bool a (Q2Qc 0).

(** The sign of a product or quotient with an infinity. *)
Definition inf (negative : bool) : number :=
  if negative then NegInf else PosInf.

Definition Qc_neg (a : Qc) : bool := Qc_ltb a (Q2Qc 0).

(** [-a] *)
Definition neg (a : number) : number :=
  match a with
  | Fin q => Fin (- q)%Qc
  | PosInf => NegInf
  | NegInf => PosInf
  | NaN => NaN
  end.

(** [a + b]; exact on finite numbers, where a sum of doubles is rounded
    and can overflow to an infinity. *)
Definition add (a b : number) : number :=
  match a, b with
  | NaN, _ | _, NaN => NaN
  | Fin x, Fin y => Fin (x + y)%Qc
  | PosInf, NegInf | NegInf, PosInf => NaN
  | PosInf, _ | _, PosInf => PosInf
  | NegInf, _ | _, NegInf => NegInf
  end.

(** [a - b] *)
Definition sub (a b : number) : number := add a (neg b).

(** [a * b]; exact on finite numbers, where a product of doubles is
    rounded and can overflow. *)
Definition mul (a b : number) : number :=
  match a, b with
  | NaN, _ | _, NaN => NaN
  | Fin x, Fin y => Fin (x * y)%Qc
  | Fin x, PosInf | PosInf, Fin x =>
      if Qc_is0 x then NaN else inf (Qc_neg x)
  | Fin x, NegInf | NegInf, Fin x =>
      if Qc_is0 x then NaN else inf (negb (Qc_neg x))
  | PosInf, PosInf | NegInf, NegInf => PosInf
  | PosInf, NegInf | NegInf, PosInf => NegInf
  end.

(** [a / b]: never fails; a zero divisor gives an infinity or NaN.  Exact
    on finite numbers, where a quotient of doubles is rounded. *)
Definition div (a b : number) : number :=
  match a, b with
  | NaN, _ | _, NaN => NaN
  | Fin x, Fin y =>
      if Qc_is0 y
      then (if Qc_is0 x then NaN else inf (Qc_neg x))
      else Fin (x / y)%Qc
  | Fin _, _ => zero
  | PosInf, Fin y => inf (Qc_neg y)
  | NegInf, Fin y => inf (negb (Qc_neg y))
  | _, _ => NaN
  end.

(** [Math.abs(a)] *)
Definition abs (a : number) : number :=
  match a with
  | Fin q => Fin (Qcabs q)
  | PosInf | NegInf => PosInf
  | NaN => NaN
  end.

(** [a > b] *)
Definition gtb (a b : number) : bool :=
  match a, b with
  | NaN, _ | _, NaN => false
  | Fin x, Fin y => Qc_ltb y x
  | PosInf, PosInf => false
  | PosInf, _ => true
  | Fin _, NegInf => true
  | _, _ => false
  end.

(** [a === b] on numbers. *)
Definition eqb (a b : number) : bool :=
  match a, b with
  | Fin x, Fin y => Qc_eq_bool x y
  | PosInf, PosInf | NegInf, NegInf => true
  | _, _ => false
  end.

(** Truthiness of a number, as tested by [while (b)] and [a || 1]. *)
Definition truthy (a : number) : bool :=
  match a with
  | Fin q => negb (Qc_is0 q)
  | PosInf | NegInf => true
  | NaN => false
  end.

(** Truncated remainder of two rationals, with the sign of the dividend:
    over the common denominator it is the remainder of the numerators. *)
Definition Qc_rem (a b : Qc) : Qc :=
  Q2Qc (Z.rem (Qnum a * QDen b) (Qnum b * QDen a) # (Qden a * Qden b)).

(** [a % b] *)
Definition rem (a b : number) : number :=
  match a, b with
  | Fin x, Fin y => if Qc_is0 y then NaN else Fin (Qc_rem x y)
  | Fin x, (PosInf | NegInf) => Fin x
  | _, _ => NaN
  end.

(** [Math.pow(a, n)] for an integer exponent [n]; exact on finite numbers,
    where a power of doubles is rounded and can overflow. *)
Definition pow (a : number) (n : Z) : number :=
  if (n =? 0)%Z then one else
  match a with
  | NaN => NaN
  | Fin x =>
      if (0 <? n)%Z then Fin (x ^ Z.to_nat n)%Qc
      else if Qc_is0 x then PosInf
      else Fin (/ (x ^ Z.to_nat (- n)))%Qc
  | PosInf => if (0 <? n)%Z then PosInf else zero
  | NegInf =>
      if (0 <? n)%Z then inf (Z.odd n) else zero
  end.

End Num.
Export Num.

(** A number read back from [JSON.parse(JSON.stringify(..))]: a value that
    is not finite is written as [null], and every later use of a cloned
    coefficient in this library is arithmetic, where [null] counts as 0. *)
Definition jsonNumber (a : number) : number :=
  if isFinite a then a else zero.

(** ** JavaScript objects used as maps

    Keys are kept in insertion order, the order of [Object.entries] and of
    [JSON.stringify] (variable names are not array indices). *)
Section JSObject.
Context {A : Type}.

Definition JSObject := list (string * A).

(** [o[k]], [None] for [undefined] *)
Fixpoint obj_get (o : JSObject) (k : string) : option A :=
  match o with
  | [] => None
  | (k', a) :: rest => if String.eqb k' k then Some a else obj_get rest k
  end.

(** [o[k] = a] *)
Fixpoint obj_set (o : JSObject) (k : string) (a : A) : JSObject :=
  match o with
  | [] => [(k, a)]
  | (k', a') :: rest =>
      if String.eqb k' k then (k', a) :: rest
      else (k', a') :: obj_set rest k a
  end.

(** [delete o[k]] *)
Fixpoint obj_delete (o : JSObject) (k : string) : JSObject :=
  match o with
  | [] => []
  | (k', a') :: rest =>
      if String.eqb k' k then rest else (k', a') :: obj_delete rest k
  end.

Definition obj_keys (o : JSObject) : list string := map fst o.
Definition obj_values (o : JSObject) : list A := map snd o.

(** No key occurs twice: true of every JavaScript object. *)
Definition obj_wf (o : JSObject) : Prop := NoDup (obj_keys o).
End JSObject.
Arguments JSObject A : clear implicits.

(** ** Errors and results

    The library signals a failure with [throw new Error(message)].  The
    kinds below are those of the error taxonomy; the library has a [throw]
    for three of them:
    - [MissingVariable v]: "Variable v not provided" ([evaluateTerm]);
    - [LogarithmicIntegral]: "Integration of 1/x requires logarithm"
      ([integrateTerm]);
    - [UnsupportedIntegral]: "Integration of complex rational functions
      requires partial fractions or numerical methods" ([integrateFraction]).
    No statement of the library throws for a zero divisor or in the
    expansion functions. *)
Inductive Error : Type :=
| MissingVariable (v : string)
| DivisionByZero
| LogarithmicIntegral
| UnsupportedIntegral
| UnsupportedExpansion.

Inductive Result (A : Type) : Type :=
| Ok (a : A)
| Throw (e : Error).
Arguments Ok {A} a.
Arguments Throw {A} e.

Definition bind {A B : Type} (r : Result A) (k : A -> Result B) : Result B :=
  match r with
  | Ok a => k a
  | Throw e => Throw e
  end.

Notation "'do' x <- r ; k" := (bind r (fun x => k))
  (at level 10, x name, r at level 100, k at level 200).

(** ** Data model *)

(** A term [{ coeff, var }]; the [var] property is optional. *)
Record Term : Type := mkTerm {
  coeff : number;
  var : option (JSObject Z)
}.

Record Polynomial : Type := mkPolynomial {
  terms : list Term
}.

(** The [deno] property of a fraction is a number or a polynomial object. *)
Inductive Deno : Type :=
| DenoNumber (n : number)
| DenoPolynomial (p : Polynomial).

Record Fraction : Type := mkFraction {
  numi : Polynomial;
  deno : Deno
}.

(** [JSON.parse(JSON.stringify(term))]: integer exponents and the order of
    the keys come back unchanged. *)
Definition deepClone (t : Term) : Term :=
  {| coeff := jsonNumber (coeff t); var := var t |}.

Definition createTerm (c : number) (vars : JSObject Z) : Term :=
  {| coeff := c;
     var := if (0 <? List.length (obj_keys vars))%nat then Some vars
            else None |}.

(** [createTerm(c)], the second argument left to its default [{}]. *)
Definition createTerm1 (c : number) : Term := createTerm c [].

Definition hasSimpleDenominator (f : Fraction) : bool :=
  match deno f with
  | DenoNumber _ => true
  | DenoPolynomial _ => false
  end.

(** The body of [while (b) { [a, b] = [b, a % b]; }], at most [fuel]
    rounds; [None] if the loop has not left by then. *)
Fixpoint gcd_loop (fuel : nat) (a b : number) : option number :=
  if truthy b then
    match fuel with
    | O => None
    | S fuel' => gcd_loop fuel' b (Num.rem a b)
    end
  else Some a.

(** A number of rounds that the loop never exceeds: over the common
    denominator of [a] and [b] the second component is an integer that
    decreases at every round. *)
Definition gcd_fuel (a b : number) : nat :=
  match a, b with
  | Fin x, Fin y => S (Z.to_nat (Z.abs (Qnum y * QDen x)))
  | _, _ => 2
  end.

Definition gcd (a b : number) : number :=
  let a := Num.abs a in
  let b := Num.abs b in
  match gcd_loop (gcd_fuel a b) a b with
  | Some a => if truthy a then a else one
  | None => NaN
  end.

(** ** Evaluation *)

(** The names of the members of [Object.prototype], which every plain
    object inherits. *)
Definition inherited_names : list string :=
  ["constructor"; "__defineGetter__"; "__defineSetter__"; "hasOwnProperty";
   "__lookupGetter__"; "__lookupSetter__"; "isPrototypeOf";
   "propertyIsEnumerable"; "toString"; "valueOf"; "__proto__";
   "toLocaleString"].

(** [values[variable]] for a binding that is a plain object: the entry of
    the binding if it has one; otherwise, for a name inherited from
    [Object.prototype], a function (an object for [__proto__]), which is not
    [undefined] and which [Math.pow] reads as [NaN]; otherwise [undefined],
    here [None]. *)
Definition values_get (values : JSObject number) (variable : string)
    : option number :=
  match obj_get values variable with
  | Some x => Some x
  | None =>
      if existsb (String.eqb variable) inherited_names then Some NaN
      else None
  end.

Fixpoint evaluateTerm_loop (entries : JSObject Z) (values : JSObject number)
    (result : number) : Result number :=
  match entries with
  | [] => Ok result
  | (variable, power) :: rest =>
      match values_get values variable with
      | None => Throw (MissingVariable variable)
      | Some x => evaluateTerm_loop rest values (mul result (pow x power))
      end
  end.

Definition evaluateTerm (term : Term) (values : JSObject number)
    : Result number :=
  match var term with
  | Some vars => evaluateTerm_loop vars values (coeff term)
  | None => Ok (coeff term)
  end.

Fixpoint evaluatePolynomial_loop (ts : list Term) (values : JSObject number)
    (sum : number) : Result number :=
  match ts with
  | [] => Ok sum
  | term :: rest =>
      do v <- evaluateTerm term values;
      evaluatePolynomial_loop rest values (add sum v)
  end.

Definition evaluatePolynomial (polynomial : Polynomial)
    (values : JSObject number) : Result number :=
  evaluatePolynomial_loop (terms polynomial) values zero.

Definition evaluateFraction (fraction : Fraction) (values : JSObject number)
    : Result number :=
  do numeratorSum <- evaluatePolynomial (numi fraction) values;
  match deno fraction with
  | DenoNumber d => Ok (div numeratorSum d)
  | DenoPolynomial d =>
      do denominatorSum <- evaluatePolynomial d values;
      Ok (div numeratorSum denominatorSum)
  end.

(** ** Integration *)

(** [newTerm.var?.[indvar]] *)
Definition var_get (t : Term) (indvar : string) : option Z :=
  match var t with
  | Some vars => obj_get vars indvar
  | None => None
  end.

Definition integrateTerm (term : Term) (indvar : string) : Result Term :=
  let newTerm := deepClone term in
  let power := match var_get newTerm indvar with Some p => p | None => 0 end in
  if power =? -1 then Throw LogarithmicIntegral
  else
    let c := div (coeff newTerm) (ofZ (power + 1)) in
    let vars := match var newTerm with Some vars => vars | None => [] end in
    Ok {| coeff := c; var := Some (obj_set vars indvar (power + 1)) |}.

(** The [for] loop of [numericalIntegrateFraction], from index [i] for
    [count] more rounds. *)
Fixpoint simpson_loop (count : nat) (i : Z) (fraction : Fraction)
    (lower h : number) (indvar : string) (numSteps : Z) (sum : number)
    : Result number :=
  match count with
  | O => Ok sum
  | S count' =>
      let x := add lower (mul (ofZ i) h) in
      let point := [(indvar, x)] in
      do value <- evaluateFraction fraction point;
      let sum' :=
        if (i =? 0) || (i =? numSteps) then add sum value
        else if Z.rem i 2 =? 1 then add sum (mul (ofZ 4) value)
        else add sum (mul (ofZ 2) value) in
      simpson_loop count' (i + 1) fraction lower h indvar numSteps sum'
  end.

Definition numericalIntegrateFraction (fraction : Fraction)
    (lower upper : number) (indvar : string) (numSteps : Z)
    : Result Fraction :=
  let numSteps := if negb (Z.rem numSteps 2 =? 0) then numSteps + 1
                  else numSteps in
  let h := div (sub upper lower) (ofZ numSteps) in
  do sum <- simpson_loop (Z.to_nat (numSteps + 1)) 0 fraction lower h indvar
              numSteps zero;
  let result := mul (div h (ofZ 3)) sum in
  Ok {| numi := {| terms := [createTerm1 result] |};
        deno := DenoNumber one |}.

(** ** Differentiation *)

Definition differentiateTerm (term : Term) (indvar : string) : Term :=
  let newTerm := deepClone term in
  match var newTerm with
  | None => createTerm1 zero
  | Some vars =>
      match obj_get vars indvar with
      | None => createTerm1 zero
      | Some power =>
          let c := mul (coeff newTerm) (ofZ power) in
          if power =? 1 then
            let vars' := obj_delete vars indvar in
            {| coeff := c;
               var := if (List.length (obj_keys vars') =? 0)%nat then None
                      else Some vars' |}
          else
            {| coeff := c; var := Some (obj_set vars indvar (power - 1)) |}
      end
  end.

Definition differentiatePolynomial (polynomial : Polynomial)
    (indvar : string) : Polynomial :=
  {| terms :=
       filter (fun term => negb (Num.eqb (coeff term) zero))
         (map (fun term => differentiateTerm term indvar)
            (terms polynomial)) |}.

(** ** Polynomial arithmetic *)

Definition addPolynomials (poly1 poly2 : Polynomial) : Polynomial :=
  {| terms := terms poly1 ++ terms poly2 |}.

Definition subtractPolynomials (poly1 poly2 : Polynomial) : Polynomial :=
  let negatedPoly2 :=
    {| terms := map (fun t => {| coeff := neg (coeff t);
                                 var := var (deepClone t) |})
                  (terms poly2) |} in
  addPolynomials poly1 negatedPoly2.

(** [vars[v] || 0] *)
Definition or_zero (p : option Z) : Z :=
  match p with
  | Some x => if x =? 0 then 0 else x
  | None => 0
  end.

Definition multiplyTerms (term1 term2 : Term) : Term :=
  let vars1 :=
    match var term1 with
    | Some o => fold_left (fun vars e => obj_set vars (fst e) (snd e)) o []
    | None => []
    end in
  let vars :=
    match var term2 with
    | Some o =>
        fold_left
          (fun vars e =>
             obj_set vars (fst e) (or_zero (obj_get vars (fst e)) + snd e))
          o vars1
    | None => vars1
    end in
  {| coeff := mul (coeff term1) (coeff term2);
     var := if (0 <? List.length (obj_keys vars))%nat then Some vars
            else None |}.

Definition multiplyPolynomials (poly1 poly2 : Polynomial) : Polynomial :=
  {| terms :=
       flat_map (fun term1 => map (fun term2 => multiplyTerms term1 term2)
                                (terms poly2))
         (terms poly1) |}.

Definition multiplyPolynomialByConstant (polynomial : Polynomial)
    (constant : number) : Polynomial :=
  {| terms := map (fun t => {| coeff := mul (coeff t) constant;
                               var := var (deepClone t) |})
                (terms polynomial) |}.

Definition differentiateFraction (fraction : Fraction) (indvar : string)
    : Fraction :=
  match deno fraction with
  | DenoNumber d =>
      {| numi := differentiatePolynomial (numi fraction) indvar;
         deno := DenoNumber d |}
  | DenoPolynomial g =>
      let f := numi fraction in
      let fPrime := differentiatePolynomial f indvar in
      let gPrime := differentiatePolynomial g indvar in
      let fPrimeTimesG := multiplyPolynomials fPrime g in
      let fTimesGPrime := multiplyPolynomials f gPrime in
      let numerator := subtractPolynomials fPrimeTimesG fTimesGPrime in
      let denominator := multiplyPolynomials g g in
      {| numi := numerator; deno := DenoPolynomial denominator |}
  end.

(** ** Simplification *)

(** The key under which [simplifyPolynomial] files a term:
    [term.var ? JSON.stringify(term.var) : 'constant'].  The JSON text of an
    object determines its entries and their order, and is never the text
    ['constant'], so the key is kept as the entries themselves. *)
Inductive VarKey : Type :=
| KeyConstant
| KeyJSON (entries : JSObject Z).

Definition entry_eqb (e1 e2 : string * Z) : bool :=
  String.eqb (fst e1) (fst e2) && (snd e1 =? snd e2).

Fixpoint entries_eqb (o1 o2 : JSObject Z) : bool :=
  match o1, o2 with
  | [], [] => true
  | e1 :: r1, e2 :: r2 => entry_eqb e1 e2 && entries_eqb r1 r2
  | _, _ => false
  end.

Definition VarKey_eqb (k1 k2 : VarKey) : bool :=
  match k1, k2 with
  | KeyConstant, KeyConstant => true
  | KeyJSON o1, KeyJSON o2 => entries_eqb o1 o2
  | _, _ => false
  end.

Definition varKey (term : Term) : VarKey :=
  match var term with
  | Some vars => KeyJSON vars
  | None => KeyConstant
  end.

(** The [Map] of [simplifyPolynomial]: keys in insertion order. *)
Definition TermMap := list (VarKey * Term).

(** [termMap.has(key)] *)
Fixpoint map_has (m : TermMap) (key : VarKey) : bool :=
  match m with
  | [] => false
  | (k, _) :: rest => VarKey_eqb k key || map_has rest key
  end.

(** [termMap.get(key).coeff += c] *)
Fixpoint map_add_coeff (m : TermMap) (key : VarKey) (c : number) : TermMap :=
  match m with
  | [] => []
  | (k, t) :: rest =>
      if VarKey_eqb k key
      then (k, {| coeff := add (coeff t) c; var := var t |}) :: rest
      else (k, t) :: map_add_coeff rest key c
  end.

(** [termMap.set(key, t)] for a key that the map does not have. *)
Definition map_set (m : TermMap) (key : VarKey) (t : Term) : TermMap :=
  m ++ [(key, t)].

(** One round of the first loop of [simplifyPolynomial]. *)
Definition simplify_step (termMap : TermMap) (term : Term) : TermMap :=
  let key := varKey term in
  if map_has termMap key then map_add_coeff termMap key (coeff term)
  else map_set termMap key (deepClone term).

(** The threshold [1e-10]. *)
Definition epsilon : number := Fin (Q2Qc (1 # 10000000000)).

(** Total degree of a term, as the comparison function of the sort
    computes it. *)
Definition degree (t : Term) : Z :=
  match var t with
  | Some vars => fold_left (fun sum p => sum + p) (obj_values vars) 0
  | None => 0
  end.

(** [Array.prototype.sort] is stable; with the comparison
    [degreeB - degreeA] a term is placed before the first later term whose
    degree is not greater than its own. *)
Fixpoint sort_insert (t : Term) (sorted : list Term) : list Term :=
  match sorted with
  | [] => [t]
  | u :: rest =>
      if degree t <? degree u then u :: sort_insert t rest
      else t :: sorted
  end.

Definition sort_by_degree (ts : list Term) : list Term :=
  fold_right sort_insert [] ts.

Definition simplifyPolynomial (polynomial : Polynomial) : Polynomial :=
  let termMap := fold_left simplify_step (terms polynomial) [] in
  let simplifiedTerms :=
    sort_by_degree
      (filter (fun term => gtb (Num.abs (coeff term)) epsilon)
         (map snd termMap)) in
  {| terms := simplifiedTerms |}.

(** [coeffs.reduce((a, b) => gcd(a, b))] on a non-empty array: the first
    element starts the accumulation, so a single coefficient is returned as
    it is. *)
Definition reduce_gcd (first : number) (others : list number) : number :=
  fold_left gcd others first.

Definition simplifyFraction (fraction : Fraction) : Fraction :=
  let simplifiedNumi := simplifyPolynomial (numi fraction) in
  match deno fraction with
  | DenoNumber d =>
      let unchanged := {| numi := simplifiedNumi; deno := DenoNumber d |} in
      match map coeff (terms simplifiedNumi) with
      | [] => unchanged
      | c :: coeffs =>
          let numGCD := reduce_gcd c coeffs in
          let denoGCD := gcd numGCD d in
          if gtb denoGCD one then
            {| numi :=
                 {| terms :=
                      map (fun t => {| coeff := div (coeff t) denoGCD;
                                       var := var (deepClone t) |})
                        (terms simplifiedNumi) |};
               deno := DenoNumber (div d denoGCD) |}
          else unchanged
      end
  | DenoPolynomial d =>
      let simplifiedDeno := simplifyPolynomial d in
      {| numi := simplifiedNumi; deno := DenoPolynomial simplifiedDeno |}
  end.

(** ** Expansion *)

(** The function has no [throw]: every path ends in the [return]. *)
Definition expandFractions (frac1 frac2 : Fraction) : Result Fraction :=
  let numi1 := numi frac1 in
  let numi2 := numi frac2 in
  let expandedNumi := multiplyPolynomials numi1 numi2 in
  let newDeno :=
    match deno frac1, deno frac2 with
    | DenoNumber d1, DenoNumber d2 => DenoNumber (mul d1 d2)
    | DenoNumber d1, DenoPolynomial p2 =>
        DenoPolynomial (multiplyPolynomialByConstant p2 d1)
    | DenoPolynomial p1, DenoNumber d2 =>
        DenoPolynomial (multiplyPolynomialByConstant p1 d2)
    | DenoPolynomial p1, DenoPolynomial p2 =>
        DenoPolynomial (multiplyPolynomials p1 p2)
    end in
  Ok (simplifyFraction {| numi := expandedNumi; deno := newDeno |}).

(** ** Deciding equality of library values

    Rationals in canonical form carry a proof, so concrete results are
    compared with boolean tests that reflect equality. *)
Module Same.

Definition number_same (a b : number) : bool :=
  match a, b with
  | Fin x, Fin y => Qc_eq_bool x y
  | PosInf, PosInf | NegInf, NegInf | NaN, NaN => true
  | _, _ => false
  end.

Definition var_same (o1 o2 : option (JSObject Z)) : bool :=
  match o1, o2 with
  | Some a, Some b => entries_eqb a b
  | None, None => true
  | _, _ => false
  end.

Definition Term_same (t u : Term) : bool :=
  number_same (coeff t) (coeff u) && var_same (var t) (var u).

Fixpoint terms_same (ts us : list Term) : bool :=
  match ts, us with
  | [], [] => true
  | t :: ts', u :: us' => Term_same t u && terms_same ts' us'
  | _, _ => false
  end.

Definition Polynomial_same (p q : Polynomial) : bool :=
  terms_same (terms p) (terms q).

Definition Deno_same (d e : Deno) : bool :=
  match d, e with
  | DenoNumber a, DenoNumber b => number_same a b
  | DenoPolynomial p, DenoPolynomial q => Polynomial_same p q
  | _, _ => false
  end.

Definition Fraction_same (f g : Fraction) : bool :=
  Polynomial_same (numi f) (numi g) && Deno_same (deno f) (deno g).

End Same.

(** ** Sample expressions used below *)

Definition x_to (n : Z) : JSObject Z := [("x", n)].

(** [x] *)
Definition term_x : Term := createTerm (ofZ 1) (x_to 1).
(** [x^2] *)
Definition term_x2 : Term := createTerm (ofZ 1) (x_to 2).
(** the constant [k] *)
Definition term_const (k : Z) : Term := createTerm1 (ofZ k).

Definition poly (ts : list Term) : Polynomial := {| terms := ts |}.

(** [x / (x - 2)] *)
Definition x_over_x_minus_2 : Fraction :=
  {| numi := poly [term_x];
     deno := DenoPolynomial (poly [term_x; term_const (-2)]) |}.

(** [x / (x + 1)] *)
Definition x_over_x_plus_1 : Fraction :=
  {| numi := poly [term_x];
     deno := DenoPolynomial (poly [term_x; term_const 1]) |}.

(** [(x + 1)] and [(x - 1)], denominators 1 *)
Definition x_plus_1 : Fraction :=
  {| numi := poly [term_x; term_const 1]; deno := DenoNumber one |}.
Definition x_minus_1 : Fraction :=
  {| numi := poly [term_x; term_const (-1)]; deno := DenoNumber one |}.

(** [x / 2] *)
Definition x_over_2 : Fraction :=
  {| numi := poly [term_x]; deno := DenoNumber (ofZ 2) |}.

(** [(6x^2 + 9x) / 3] *)
Definition six_x2_plus_nine_x_over_3 : Fraction :=
  {| numi := poly [createTerm (ofZ 6) (x_to 2); createTerm (ofZ 9) (x_to 1)];
     deno := DenoNumber (ofZ 3) |}.

(** [0 / 3] *)
Definition zero_over_3 : Fraction :=
  {| numi := poly [term_const 0]; deno := DenoNumber (ofZ 3) |}.

(** ** The normalization invariant of terms *)



(** The exponent of [v] in a term, 0 if [v] is absent. *)
Definition exponent_of (t : Term) (v : string) : Z :=
  match var_get t v with
  | Some p => p
  | None => 0
  end.

(** ** Composite Simpson's rule, as the specification words it *)

(** Weight of sample [i] out of [n] intervals: 1 at both ends, 4 at odd
    indices, 2 at even interior indices. *)
Definition simpson_weight (i n : Z) : number :=
  if (i =? 0) || (i =? n) then one
  else if Z.odd i then ofZ 4
  else ofZ 2.

(** The indices [0, 1, .., n]. *)
Definition sample_indices (n : Z) : list Z :=
  map Z.of_nat (seq 0 (Z.to_nat (n + 1))).

(** The fraction evaluated at [{v: x}] for each sample point in turn; the
    first failure is the failure of the whole. *)
Fixpoint evaluate_samples (fraction : Fraction) (v : string)
    (xs : list number) : Result (list number) :=
  match xs with
  | [] => Ok []
  | x :: rest =>
      do y <- evaluateFraction fraction [(v, x)];
      do ys <- evaluate_samples fraction v rest;
      Ok (y :: ys)
  end.

Definition weighted_sum (n : Z) (indices : list Z) (ys : list number)
    : number :=
  fold_left add
    (map (fun iy => mul (simpson_weight (fst iy) n) (snd iy))
       (combine indices ys))
    zero.

Definition simpson_rule (fraction : Fraction) (lower upper : number)
    (v : string) (steps : Z) : Result Fraction :=
  let n := if Z.odd steps then steps + 1 else steps in
  let h := div (sub upper lower) (ofZ n) in
  let indices := sample_indices n in
  do ys <- evaluate_samples fraction v
             (map (fun i => add lower (mul (ofZ i) h)) indices);
  Ok {| numi :=
          {| terms := [ {| coeff := mul (div h (ofZ 3))
                                      (weighted_sum n indices ys);
                           var := None |} ] |};
        deno := DenoNumber one |}.

(** ** Well-formed input *)

(** The coefficient is a real number (not an infinity, not NaN). *)
Definition finite_coeff (t : Term) : bool := isFinite (coeff t).

(** The test applied by the filter of [simplifyPolynomial]. *)
Definition above_epsilon (t : Term) : bool :=
  gtb (Num.abs (coeff t)) epsilon.

(** Degrees never increase along the sequence. *)
Definition degree_ge (t u : Term) : Prop := degree u <= degree t.

(** ** The greatest common divisor, as the specification words it *)

(** Euclid's gcd of the absolute values of two rationals, taken over their
    common denominator, with the convention that the gcd of 0 and 0 is 1.
    On integers it is the gcd of the integers. *)
Definition euclid_gcd (x y : Qc) : Qc :=
  let g := Z.gcd (Z.abs (Qnum x) * QDen y) (Z.abs (Qnum y) * QDen x) in
  if g =? 0 then Q2Qc 1 else Q2Qc (g # (Qden x * Qden y)).

Definition euclid_gcd_Z (a b : Z) : Z :=
  if Z.gcd a b =? 0 then 1 else Z.gcd a b.

(** ** Polynomials of the data model and their exact value *)

Fixpoint distinct_keys (ks : list string) : bool :=
  match ks with
  | [] => true
  | k :: rest => negb (existsb (String.eqb k) rest) && distinct_keys rest
  end.

(** A term of the data model: a real coefficient, and exponents that are
    non-negative integers on distinct variables. *)
Definition wf_term (t : Term) : bool :=
  isFinite (coeff t) &&
  match var t with
  | Some vars =>
      distinct_keys (obj_keys vars) && forallb (fun e => 0 <=? snd e) vars
  | None => true
  end.

Definition wf_polynomial (p : Polynomial) : bool :=
  forallb wf_term (terms p).

(** The binding gives a real value to the variable [k]. *)
Definition binds (values : JSObject number) (k : string) : bool :=
  match obj_get values k with
  | Some x => isFinite x
  | None => false
  end.


(** The rational bound to [k], 0 where the binding has no real value. *)
Definition valueQ (values : JSObject number) (k : string) : Qc :=
  match obj_get values k with
  | Some (Fin x) => x
  | _ => Q2Qc 0
  end.

(** The exact value of a product of powers. *)
Fixpoint monomialQ (values : JSObject number) (o : JSObject Z) : Qc :=
  match o with
  | [] => Q2Qc 1
  | (k, e) :: rest =>
      (valueQ values k ^ Z.to_nat e * monomialQ values rest)%Qc
  end.

Definition coeffQ (t : Term) : Qc :=
  match coeff t with
  | Fin c => c
  | _ => Q2Qc 0
  end.

Definition termQ (values : JSObject number) (t : Term) : Qc :=
  (coeffQ t * monomialQ values (match var t with
                                | Some vars => vars
                                | None => []
                                end))%Qc.

Definition sumQ (xs : list Qc) : Qc :=
  fold_right Qcplus (Q2Qc 0) xs.

Definition polynomialQ (values : JSObject number) (p : Polynomial) : Qc :=
  sumQ (map (termQ values) (terms p)).

(** ** Notions used in the proofs *)

(** Every entry of the map is filed under the key of its own term. *)
Definition keyed (m : TermMap) : Prop :=
  Forall (fun kt => varKey (snd kt) = fst kt) m.


(** The rational [K/D]. *)
Definition over (D : positive) (K : Z) : Qc := Q2Qc (K # D).

(** The variable of the entry is bound to a real value and its exponent is
    not negative. *)
Definition good_entry (values : JSObject number) (e : string * Z) : bool :=
  binds values (fst e) && (0 <=? snd e).

(** The binding gives a real value to every variable of the term. *)
Definition binds_term (values : JSObject number) (t : Term) : bool :=
  match var t with
  | Some vars => forallb (fun e => binds values (fst e)) vars
  | None => true
  end.

(** [xs] are the exact values of the terms [ts], one by one. *)
Definition evaluate_to (values : JSObject number) (ts : list Term)
    (xs : list Qc) : Prop :=
  Forall2 (fun t x => evaluateTerm t values = Ok (Fin x)) ts xs.

(** The binding gives a real value to every variable of the polynomial. *)
Definition binds_polynomial (values : JSObject number) (p : Polynomial)
    : bool :=
  forallb (binds_term values) (terms p).

(** ** The rest of the library *)

(** The second argument of [createFraction]: a number, an array of terms, or
    an object with a [terms] property. *)
Inductive DenoArg : Type :=
| ArgNumber (n : number)
| ArgArray (ts : list Term)
| ArgPolynomial (p : Polynomial).

(** [deepClone] of an array of terms. *)
Definition deepCloneTerms (ts : list Term) : list Term := map deepClone ts.

Definition createFraction (numiTerms : list Term) (denoTerms : DenoArg)
    : Fraction :=
  {| numi := {| terms := deepCloneTerms numiTerms |};
     deno := match denoTerms with
             | ArgNumber n => DenoNumber n
             | ArgArray ts => DenoPolynomial {| terms := deepCloneTerms ts |}
             | ArgPolynomial p =>
                 DenoPolynomial {| terms := deepCloneTerms (terms p) |}
             end |}.

Fixpoint evaluateProduct_loop (product : list Fraction)
    (values : JSObject number) (result : number) : Result number :=
  match product with
  | [] => Ok result
  | fraction :: rest =>
      do v <- evaluateFraction fraction values;
      evaluateProduct_loop rest values (mul result v)
  end.

Definition evaluateProduct (product : list Fraction)
    (values : JSObject number) : Result number :=
  evaluateProduct_loop product values one.

Fixpoint evaluateEquation_loop (equation : list (list Fraction))
    (values : JSObject number) (result : number) : Result number :=
  match equation with
  | [] => Ok result
  | product :: rest =>
      do v <- evaluateProduct product values;
      evaluateEquation_loop rest values (add result v)
  end.

Definition evaluateEquation (equation : list (list Fraction))
    (values : JSObject number) : Result number :=
  evaluateEquation_loop equation values zero.

(** [terms.map(term => f(term))] for a callback that may throw: the first
    failure ends the map. *)
Fixpoint map_terms (f : Term -> Result Term) (ts : list Term)
    : Result (list Term) :=
  match ts with
  | [] => Ok []
  | t :: rest =>
      do t' <- f t;
      do rest' <- map_terms f rest;
      Ok (t' :: rest')
  end.

Definition integratePolynomial (polynomial : Polynomial) (indvar : string)
    : Result Polynomial :=
  do ts <- map_terms (fun term => integrateTerm term indvar)
             (terms polynomial);
  Ok {| terms := ts |}.

Definition isSimpleSubstitutionCase (fraction : Fraction) (indvar : string)
    : bool :=
  match deno fraction with
  | DenoNumber _ => false
  | DenoPolynomial d =>
      let denoDeriv := differentiatePolynomial d indvar in
      if negb (List.length (terms (numi fraction))
               =? List.length (terms denoDeriv))%nat
      then false
      else false
  end.

Section IntegrateFraction.
(** [integrateBySubstitution] is called by [integrateFraction] and defined
    nowhere in the library: it is a parameter here. *)
Variable integrateBySubstitution : Fraction -> string -> Result Fraction.

Definition integrateFraction (fraction : Fraction) (indvar : string)
    : Result Fraction :=
  match deno fraction with
  | DenoNumber d =>
      do p <- integratePolynomial (numi fraction) indvar;
      Ok {| numi := p; deno := DenoNumber d |}
  | DenoPolynomial _ =>
      if isSimpleSubstitutionCase fraction indvar
      then integrateBySubstitution fraction indvar
      else Throw UnsupportedIntegral
  end.
End IntegrateFraction.

Definition definiteIntegrateTerm (term : Term) (lower upper : number)
    (indvar : string) : Result Term :=
  do integratedTerm <- integrateTerm term indvar;
  let intPower := match var_get integratedTerm indvar with
                  | Some p => p
                  | None => 0
                  end in
  let upperValue := pow upper intPower in
  let lowerValue := pow lower intPower in
  let boundsDiff := sub upperValue lowerValue in
  let resultTerm := deepClone integratedTerm in
  let c := mul (coeff resultTerm) boundsDiff in
  match var resultTerm with
  | Some vars =>
      let vars' := obj_delete vars indvar in
      Ok {| coeff := c;
            var := if (List.length (obj_keys vars') =? 0)%nat then None
                   else Some vars' |}
  | None => Ok {| coeff := c; var := None |}
  end.

Definition definiteIntegratePolynomial (polynomial : Polynomial)
    (lower upper : number) (indvar : string) : Result Polynomial :=
  do ts <- map_terms
             (fun term => definiteIntegrateTerm term lower upper indvar)
             (terms polynomial);
  Ok {| terms := ts |}.

(** The last argument of [numericalIntegrateFraction] is left to its
    default, 1000. *)
Definition definiteIntegrateFraction (fraction : Fraction)
    (lower upper : number) (indvar : string) : Result Fraction :=
  match deno fraction with
  | DenoNumber d =>
      do p <- definiteIntegratePolynomial (numi fraction) lower upper indvar;
      Ok {| numi := p; deno := DenoNumber d |}
  | DenoPolynomial _ =>
      numericalIntegrateFraction fraction lower upper indvar 1000
  end.

Definition simplifyProduct (product : list Fraction) : list Fraction :=
  map (fun fraction => simplifyFraction fraction) product.

Definition simplifyEquation (equation : list (list Fraction))
    : list (list Fraction) :=
  map (fun product => simplifyProduct product) equation.

(** The loop of [expandProduct] over the factors after the first. *)
Fixpoint expandProduct_loop (rest : list Fraction) (result : Fraction)
    : Result Fraction :=
  match rest with
  | [] => Ok result
  | fraction :: rest' =>
      do result' <- expandFractions result fraction;
      expandProduct_loop rest' result'
  end.

Definition expandProduct (product : list Fraction) : Result Fraction :=
  match product with
  | [] => Ok (createFraction [createTerm1 one] (ArgNumber one))
  | first :: rest => expandProduct_loop rest first
  end.

(** ** Which variables a binding must supply *)

(** [values[k] !== undefined] *)
Definition has_binding (values : JSObject number) (k : string) : bool :=
  match values_get values k with
  | Some _ => true
  | None => false
  end.

Definition term_bound (values : JSObject number) (t : Term) : bool :=
  match var t with
  | Some vars => forallb (fun e => has_binding values (fst e)) vars
  | None => true
  end.

Definition polynomial_bound (values : JSObject number) (p : Polynomial)
    : bool :=
  forallb (term_bound values) (terms p).

Definition fraction_bound (values : JSObject number) (f : Fraction) : bool :=
  polynomial_bound values (numi f) &&
  match deno f with
  | DenoNumber _ => true
  | DenoPolynomial d => polynomial_bound values d
  end.

Definition product_bound (values : JSObject number)
    (product : list Fraction) : bool :=
  forallb (fraction_bound values) product.

Definition equation_bound (values : JSObject number)
    (equation : list (list Fraction)) : bool :=
  forallb (product_bound values) equation.

(** The evaluation returns a number. *)
Definition returns (r : Result number) : Prop := exists x, r = Ok x.

(** The evaluation fails for a variable that the binding does not have. *)
Definition fails_unbound (values : JSObject number) (r : Result number)
    : Prop :=
  exists v, r = Throw (MissingVariable v) /\ has_binding values v = false.

(** An evaluation returns when its input is bound and fails for an unbound
    variable otherwise. *)
Definition decided_by (values : JSObject number) (bound : bool)
    (r : Result number) : Prop :=
  if bound then returns r else fails_unbound values r.

(** ** Terms that evaluate exactly *)

(** The number is an integer. *)
Definition is_integer (a : number) : bool :=
  match a with
  | Fin q => (Qden q =? 1)%positive
  | _ => false
  end.

Definition integer_coeff (t : Term) : bool := is_integer (coeff t).

(** The coefficient is real, and every variable of the term is bound to a
    real value and has an exponent that is not negative. *)
Definition exact_term (values : JSObject number) (t : Term) : bool :=
  isFinite (coeff t) &&
  match var t with
  | Some vars => forallb (good_entry values) vars
  | None => true
  end.

(** A polynomial of the data model whose variables all have real values. *)
Definition model_polynomial (values : JSObject number) (p : Polynomial)
    : bool :=
  wf_polynomial p && binds_polynomial values p.

(** [f] applied to the number that was returned. *)
Definition on_result (f : number -> number) (r : Result number)
    : Result number :=
  do x <- r; Ok (f x).

(** The key of an optional exponent mapping. *)
Definition key_of_var (o : option (JSObject Z)) : VarKey :=
  match o with
  | Some vars => KeyJSON vars
  | None => KeyConstant
  end.

(** The exact value of the terms held by the map of [simplifyPolynomial]. *)
Definition mapQ (values : JSObject number) (m : TermMap) : Qc :=
  sumQ (map (termQ values) (map snd m)).

(** A polynomial with integer coefficients and exponents that are not
    negative, all of whose variables have real values. *)
Definition integer_polynomial (values : JSObject number) (p : Polynomial)
    : bool :=
  forallb (exact_term values) (terms p) && forallb integer_coeff (terms p).

(** A real number other than 0. *)
Definition nonzero_real (d : number) : bool := isFinite d && truthy d.

(** A fraction of integer polynomials; a scalar denominator is a real
    number other than 0. *)
Definition integer_fraction (values : JSObject number) (f : Fraction)
    : bool :=
  integer_polynomial values (numi f) &&
  match deno f with
  | DenoNumber d => nonzero_real d
  | DenoPolynomial q => integer_polynomial values q
  end.

(** A fraction of the data model with an integer polynomial as numerator
    and an integer other than 0 as denominator. *)
Definition integer_scalar_fraction (values : JSObject number) (f : Fraction)
    : bool :=
  wf_polynomial (numi f) && integer_polynomial values (numi f) &&
  match deno f with
  | DenoNumber d => is_integer d && truthy d
  | DenoPolynomial _ => false
  end.

(** The exact value of a fraction with a real scalar denominator. *)
Definition fractionQ (values : JSObject number) (f : Fraction) : Qc :=
  match deno f with
  | DenoNumber (Fin d) => (polynomialQ values (numi f) / d)%Qc
  | _ => Q2Qc 0
  end.

Definition productQ (values : JSObject number) (product : list Fraction)
    : Qc :=
  fold_right (fun f acc => (fractionQ values f * acc)%Qc) (Q2Qc 1) product.

(** ** Terms on which integration can be undone *)

(** The [var] property is absent or has at least one variable, as
    [createTerm] builds it. *)
Definition proper_var (t : Term) : bool :=
  match var t with
  | Some [] => false
  | _ => true
  end.

(** A term with a real coefficient and a proper [var] in which [v] has
    neither exponent 0 nor exponent -1. *)
Definition invertible_term (v : string) (t : Term) : bool :=
  finite_coeff t && proper_var t &&
  match var_get t v with
  | Some n => negb (n =? 0) && negb (n =? -1)
  | None => true
  end.

(** Every variable of the term other than [v] is bound to a real value. *)
Definition binds_except (values : JSObject number) (v : string) (t : Term)
    : bool :=
  match var t with
  | Some vars =>
      forallb (fun e => String.eqb (fst e) v || binds values (fst e)) vars
  | None => true
  end.

(** A polynomial of the data model whose variables other than [v] all have
    real values. *)
Definition integrand (values : JSObject number) (v : string)
    (p : Polynomial) : bool :=
  forallb (fun t => wf_term t && binds_except values v t) (terms p).

(** The binding with [v] set to the real [x]. *)
Definition at_point (values : JSObject number) (v : string) (x : Qc)
    : JSObject number :=
  obj_set values v (Fin x).

(** The binding with [v] set to 1: under it a term has the value of its
    part that does not depend on [v]. *)
Definition unit_point (values : JSObject number) (v : string)
    : JSObject number :=
  at_point values v (Q2Qc 1).

(** The derivative in [v] of the exact value of a term [c v^n rest]:
    [n v^(n-1)] times [c rest]. *)
Definition derivativeQ (values : JSObject number) (v : string) (t : Term)
    : Qc :=
  (Q2Qc (inject_Z (exponent_of t v))
   * valueQ values v ^ Z.to_nat (exponent_of t v - 1)
   * termQ (unit_point values v) t)%Qc.

(** ** [simplifyPolynomial] on doubles

    The coefficients of the functions above are exact rationals.  The sum
    of two doubles can overflow to [Infinity], which no sum of rationals
    does; to show what [simplifyPolynomial] returns then, the function is
    embedded once more, with the same steps under the same names, on
    IEEE 754 binary64 numbers (the primitive floats, whose operations
    round as JavaScript's do). *)
Module Double.
Import PrimFloat.
#[local] Set Warnings "-inexact-float".

Record Term : Type := mkTerm {
  coeff : float;
  var : option (JSObject Z)
}.

Record Polynomial : Type := mkPolynomial {
  terms : list Term
}.

(** [Number.isFinite(a)] *)
Definition isFinite (a : float) : bool := ltb (abs a) infinity.

(** A number read back from [JSON.parse(JSON.stringify(..))]: a finite
    double comes back as it is, except that [-0] is written as [0]; a
    value that is not finite is written as [null], which counts as 0 in
    [+=] and in [Math.abs]. *)
Definition jsonNumber (a : float) : float :=
  if isFinite a then (if eqb a 0%float then 0%float else a) else 0%float.

Definition deepClone (t : Term) : Term :=
  {| coeff := jsonNumber (coeff t); var := var t |}.

Definition varKey (term : Term) : VarKey :=
  match var term with
  | Some vars => KeyJSON vars
  | None => KeyConstant
  end.

Definition TermMap := list (VarKey * Term).

(** [termMap.has(key)] *)
Fixpoint map_has (m : TermMap) (key : VarKey) : bool :=
  match m with
  | [] => false
  | (k, _) :: rest => VarKey_eqb k key || map_has rest key
  end.

(** [termMap.get(key).coeff += c] *)
Fixpoint map_add_coeff (m : TermMap) (key : VarKey) (c : float) : TermMap :=
  match m with
  | [] => []
  | (k, t) :: rest =>
      if VarKey_eqb k key
      then (k, {| coeff := add (coeff t) c; var := var t |}) :: rest
      else (k, t) :: map_add_coeff rest key c
  end.

(** [termMap.set(key, t)] for a key that the map does not have. *)
Definition map_set (m : TermMap) (key : VarKey) (t : Term) : TermMap :=
  m ++ [(key, t)].

Definition simplify_step (termMap : TermMap) (term : Term) : TermMap :=
  let key := varKey term in
  if map_has termMap key then map_add_coeff termMap key (coeff term)
  else map_set termMap key (deepClone term).

(** The threshold [1e-10]. *)
Definition epsilon : float := 1e-10%float.

Definition degree (t : Term) : Z :=
  match var t with
  | Some vars => fold_left (fun sum p => sum + p) (obj_values vars) 0
  | None => 0
  end.

Fixpoint sort_insert (t : Term) (sorted : list Term) : list Term :=
  match sorted with
  | [] => [t]
  | u :: rest =>
      if degree t <? degree u then u :: sort_insert t rest
      else t :: sorted
  end.

Definition sort_by_degree (ts : list Term) : list Term :=
  fold_right sort_insert [] ts.

Definition simplifyPolynomial (polynomial : Polynomial) : Polynomial :=
  let termMap := fold_left simplify_step (terms polynomial) [] in
  let simplifiedTerms :=
    sort_by_degree
      (filter (fun term => ltb epsilon (abs (coeff term)))
         (map snd termMap)) in
  {| terms := simplifiedTerms |}.

(** The coefficient is a finite number. *)
Definition finite_coeff (t : Term) : bool := isFinite (coeff t).

(** The test applied by the filter of [simplifyPolynomial]. *)
Definition above_epsilon (t : Term) : bool := ltb epsilon (abs (coeff t)).

(** Degrees never increase along the sequence. *)
Definition degree_ge (t u : Term) : Prop := degree u <= degree t.

(** Every entry of the map is filed under the key of its own term. *)
Definition keyed (m : TermMap) : Prop :=
  Forall (fun kt => varKey (snd kt) = fst kt) m.

(** [1e308 x] *)
Definition huge_x : Term := {| coeff := 1e308%float; var := Some [("x", 1)] |}.

(** [Infinity x] *)
Definition infinite_x : Term :=
  {| coeff := infinity; var := Some [("x", 1)] |}.

(** [1e308 x + 1e308 x] *)
Definition two_huge_x : Polynomial := {| terms := [huge_x; huge_x] |}.

(** [0.1x + 3x^2 + 1 + 0.2x - 1] *)
Definition sample : Polynomial :=
  {| terms := [ {| coeff := 0.1%float; var := Some [("x", 1)] |};
                {| coeff := 3%float; var := Some [("x", 2)] |};
                {| coeff := 1%float; var := None |};
                {| coeff := 0.2%float; var := Some [("x", 1)] |};
                {| coeff := (-1)%float; var := None |} ] |}.

End Double.

(** ** Variable names

    A lookup [o[k]] on an object [o] without the entry [k] is [undefined],
    unless [k] names a member of [Object.prototype]: then it finds the
    inherited function.  The lookups of exponents ([term.var[indvar]],
    [vars[v]]) are embedded as lookups in the entries alone; what is proved
    about them is stated for names that are not inherited. *)
Definition plain_name (k : string) : bool :=
  negb (existsb (String.eqb k) inherited_names).

Definition plain_names_term (t : Term) : bool :=
  match var t with
  | Some vars => forallb (fun e => plain_name (fst e)) vars
  | None => true
  end.

Definition plain_names (p : Polynomial) : bool :=
  forallb plain_names_term (terms p).

(** * Properties *)

Module SameFacts.
Import Same.

Lemma number_same_eq a b : number_same a b = true -> a = b.
Proof.
  destruct a, b; simpl; try discriminate; try reflexivity.
  intros H. apply Qc_eq_bool_correct in H. now subst.
Qed.

Lemma entries_eqb_eq o1 : forall o2, entries_eqb o1 o2 = true -> o1 = o2.
Proof.
  induction o1 as [|[k1 e1] r1 IH]; intros [|[k2 e2] r2]; simpl;
    try discriminate; try reflexivity.
  unfold entry_eqb; simpl. intros H.
  apply andb_prop in H as [H Hr]. apply andb_prop in H as [Hk He].
  apply String.eqb_eq in Hk. apply Z.eqb_eq in He.
  subst. f_equal. now apply IH.
Qed.

Lemma entries_eqb_refl o : entries_eqb o o = true.
Proof.
  induction o as [|[k e] r IH]; simpl; [reflexivity|].
  unfold entry_eqb; simpl. now rewrite String.eqb_refl, Z.eqb_refl, IH.
Qed.

Lemma var_same_eq o1 o2 : var_same o1 o2 = true -> o1 = o2.
Proof.
  destruct o1, o2; simpl; try discriminate; try reflexivity.
  intros H. f_equal. now apply entries_eqb_eq.
Qed.

Lemma Term_same_eq t u : Term_same t u = true -> t = u.
Proof.
  destruct t as [c o], u as [c' o']; unfold Term_same; simpl.
  intros H. apply andb_prop in H as [Hc Ho].
  apply number_same_eq in Hc. apply var_same_eq in Ho. now subst.
Qed.

Lemma terms_same_eq ts : forall us, terms_same ts us = true -> ts = us.
Proof.
  induction ts as [|t ts IH]; intros [|u us]; simpl;
    try discriminate; try reflexivity.
  intros H. apply andb_prop in H as [Ht Hr].
  apply Term_same_eq in Ht. apply IH in Hr. now subst.
Qed.

Lemma Polynomial_same_eq p q : Polynomial_same p q = true -> p = q.
Proof.
  destruct p, q; unfold Polynomial_same; simpl.
  intros H. f_equal. now apply terms_same_eq.
Qed.

Lemma Deno_same_eq d e : Deno_same d e = true -> d = e.
Proof.
  destruct d, e; simpl; try discriminate; intros H; f_equal.
  - now apply number_same_eq.
  - now apply Polynomial_same_eq.
Qed.

Lemma Fraction_same_eq f g : Fraction_same f g = true -> f = g.
Proof.
  destruct f, g; unfold Fraction_same; simpl.
  intros H. apply andb_prop in H as [Hn Hd].
  apply Polynomial_same_eq in Hn. apply Deno_same_eq in Hd. now subst.
Qed.

End SameFacts.

(** Closes an equation between two concrete values of the library. *)
Ltac same_by_computation :=
  first
    [ apply SameFacts.Fraction_same_eq
    | apply SameFacts.Polynomial_same_eq
    | apply SameFacts.terms_same_eq
    | apply SameFacts.Term_same_eq
    | apply SameFacts.number_same_eq ];
  vm_compute; reflexivity.


(** ** Objects *)

Lemma obj_get_set_same {A} (o : JSObject A) k a :
  obj_get (obj_set o k a) k = Some a.
Proof.
  induction o as [|[k' a'] rest IH]; simpl.
  - now rewrite String.eqb_refl.
  - destruct (String.eqb k' k) eqn:E; simpl; rewrite E; auto.
Qed.

(** An entry of the binding is what [values[k]] reads. *)
Lemma values_get_own values k x :
  obj_get values k = Some x -> values_get values k = Some x.
Proof. unfold values_get. now intros ->. Qed.

Lemma obj_get_set_other {A} (o : JSObject A) k a k' :
  k' <> k -> obj_get (obj_set o k a) k' = obj_get o k'.
Proof.
  intros Hne. induction o as [|[k0 a0] rest IH]; simpl.
  - destruct (String.eqb k k') eqn:E; [|reflexivity].
    apply String.eqb_eq in E. congruence.
  - destruct (String.eqb k0 k) eqn:E; simpl.
    + apply String.eqb_eq in E. subst k0.
      destruct (String.eqb k k') eqn:E'; [|reflexivity].
      apply String.eqb_eq in E'. congruence.
    + now rewrite IH.
Qed.

(** ** Differentiation of a fraction (C1) *)



(** ** Evaluation at a zero denominator (C2) *)

Lemma evaluateTerm_loop_throws entries values : forall result e,
  evaluateTerm_loop entries values result = Throw e ->
  exists v, e = MissingVariable v.
Proof.
  induction entries as [|[variable power] rest IH]; simpl; intros result e H.
  - discriminate.
  - destruct (values_get values variable).
    + eauto.
    + inversion H. eauto.
Qed.

Lemma evaluatePolynomial_loop_throws ts values : forall sum e,
  evaluatePolynomial_loop ts values sum = Throw e ->
  exists v, e = MissingVariable v.
Proof.
  induction ts as [|t rest IH]; simpl; intros sum e H.
  - discriminate.
  - unfold evaluateTerm in H.
    destruct (var t) as [vars|]; simpl in H.
    + destruct (evaluateTerm_loop vars values (coeff t)) eqn:E; simpl in H.
      * eauto.
      * inversion H; subst. eapply evaluateTerm_loop_throws; eauto.
    + eauto.
Qed.

(** The only failure of [evaluateFraction] is a missing variable. *)
Lemma evaluateFraction_throws fraction values e :
  evaluateFraction fraction values = Throw e ->
  exists v, e = MissingVariable v.
Proof.
  unfold evaluateFraction, evaluatePolynomial.
  destruct (evaluatePolynomial_loop (terms (numi fraction)) values zero)
    eqn:En; simpl.
  - destruct (deno fraction) as [d|d]; [discriminate|].
    destruct (evaluatePolynomial_loop (terms d) values zero) eqn:Ed; simpl.
    + discriminate.
    + intros H; inversion H; subst.
      eapply evaluatePolynomial_loop_throws; eauto.
  - intros H; inversion H; subst.
    eapply evaluatePolynomial_loop_throws; eauto.
Qed.

(** C2: no evaluation of a fraction fails with [DivisionByZero]; evaluating
    [x/(x-2)] at [x = 2] divides 2 by the zero denominator and returns
    [Infinity]. *)
Theorem evaluateFraction_zero_denominator_returns :
  (forall fraction values,
     evaluateFraction fraction values <> Throw DivisionByZero)
  /\ evaluatePolynomial (poly [term_x; term_const (-2)]) [("x", ofZ 2)]
     = Ok zero
  /\ evaluateFraction x_over_x_minus_2 [("x", ofZ 2)] = Ok PosInf.
Proof.
  split; [|split].
  - intros fraction values H.
    apply evaluateFraction_throws in H as [v Hv]. discriminate Hv.
  - unfold evaluatePolynomial. vm_compute. reflexivity.
  - vm_compute. reflexivity.
Qed.

(** ** Expansion (C3) *)

(** C3, as stated, fails: the product of [x/2] and [x+1], whose first
    denominator is the scalar 2, is returned as [(x^2 + x)/2]. *)
Lemma expandFractions_scalar_2_returns :
  deno x_over_2 <> DenoNumber one
  /\ expandFractions x_over_2 x_plus_1 <> Throw UnsupportedExpansion
  /\ expandFractions x_over_2 x_plus_1 =
     Ok {| numi := poly [term_x2; term_x]; deno := DenoNumber (ofZ 2) |}.
Proof.
  split; [|split].
  - intros H. apply (f_equal (fun d => Same.Deno_same d (DenoNumber one))) in H.
    vm_compute in H. discriminate H.
  - discriminate.
  - unfold expandFractions. apply f_equal. same_by_computation.
Qed.

(** C3, amended: [expandFractions] never fails.  It returns
    [simplifyFraction] of the fraction whose numerator is
    [multiplyPolynomials] of the two numerators and whose denominator is the
    product of the two denominators: the product of two scalars, a
    polynomial scaled by the scalar, or [multiplyPolynomials] of two
    polynomials.  Two denominators 1 give the denominator 1, and
    [(x+1)(x-1)] expands to exactly the terms [x^2] and [-1]. *)
Theorem expandFractions_always_returns :
  (forall f1 f2 e, expandFractions f1 f2 <> Throw e)
  /\ (forall n1 n2 d1 d2,
        expandFractions {| numi := n1; deno := DenoNumber d1 |}
                        {| numi := n2; deno := DenoNumber d2 |} =
        Ok (simplifyFraction {| numi := multiplyPolynomials n1 n2;
                                deno := DenoNumber (mul d1 d2) |}))
  /\ (forall n1 n2 d1 p2,
        expandFractions {| numi := n1; deno := DenoNumber d1 |}
                        {| numi := n2; deno := DenoPolynomial p2 |} =
        Ok (simplifyFraction
              {| numi := multiplyPolynomials n1 n2;
                 deno := DenoPolynomial
                           (multiplyPolynomialByConstant p2 d1) |}))
  /\ (forall n1 n2 p1 d2,
        expandFractions {| numi := n1; deno := DenoPolynomial p1 |}
                        {| numi := n2; deno := DenoNumber d2 |} =
        Ok (simplifyFraction
              {| numi := multiplyPolynomials n1 n2;
                 deno := DenoPolynomial
                           (multiplyPolynomialByConstant p1 d2) |}))
  /\ (forall n1 n2 p1 p2,
        expandFractions {| numi := n1; deno := DenoPolynomial p1 |}
                        {| numi := n2; deno := DenoPolynomial p2 |} =
        Ok (simplifyFraction
              {| numi := multiplyPolynomials n1 n2;
                 deno := DenoPolynomial (multiplyPolynomials p1 p2) |}))
  /\ (forall n1 n2,
        expandFractions {| numi := n1; deno := DenoNumber one |}
                        {| numi := n2; deno := DenoNumber one |} =
        Ok (simplifyFraction {| numi := multiplyPolynomials n1 n2;
                                deno := DenoNumber one |}))
  /\ expandFractions x_plus_1 x_minus_1 =
     Ok {| numi := poly [term_x2; term_const (-1)]; deno := DenoNumber one |}.
Proof.
  split; [discriminate|].
  do 4 (split; [reflexivity|]).
  split.
  - intros n1 n2. unfold expandFractions. cbn [deno numi].
    assert (E : mul one one = one) by same_by_computation.
    now rewrite E.
  - unfold expandFractions. apply f_equal. same_by_computation.
Qed.

(** ** A numerator that simplifies to zero (C9) *)

(** C9: with a scalar denominator and a numerator that simplifies to the
    empty sequence, [simplifyFraction] returns the empty numerator and the
    scalar denominator as it was. *)
Theorem simplifyFraction_zero_numerator (p : Polynomial) (d : number) :
  terms (simplifyPolynomial p) = [] ->
  simplifyFraction {| numi := p; deno := DenoNumber d |} =
  {| numi := {| terms := [] |}; deno := DenoNumber d |}.
Proof.
  intros H. unfold simplifyFraction. cbn [deno numi].
  rewrite H. cbn [map].
  destruct (simplifyPolynomial p) as [ts]. simpl in H. now subst.
Qed.

(** [0/3] keeps its denominator 3. *)
Lemma simplifyFraction_zero_numerator_witness :
  terms (simplifyPolynomial (numi zero_over_3)) = []
  /\ simplifyFraction zero_over_3 =
     {| numi := {| terms := [] |}; deno := DenoNumber (ofZ 3) |}.
Proof.
  split.
  - vm_compute. reflexivity.
  - apply (simplifyFraction_zero_numerator (numi zero_over_3) (ofZ 3)).
    vm_compute. reflexivity.
Defined.

(** ** The power rule of integration (C6) *)

Lemma jsonNumber_finite a : isFinite a = true -> jsonNumber a = a.
Proof. unfold jsonNumber. now intros ->. Qed.


(** Why C6 asks for a real coefficient: the clone writes [Infinity] as
    [null], and [null / 1] is 0. *)
Remark integrateTerm_infinite_coefficient :
  integrateTerm (createTerm1 PosInf) "x" =
  Ok {| coeff := zero; var := Some (x_to 1) |}.
Proof. vm_compute. reflexivity. Qed.


(** ** Numerical integration (C8) *)

Lemma mul_one_l a : mul one a = a.
Proof.
  destruct a as [q| | |]; try reflexivity.
  unfold one, ofZ, mul. f_equal. apply Qcmult_1_l.
Qed.

Lemma rem_2_odd i : 0 <= i -> (Z.rem i 2 =? 1) = Z.odd i.
Proof.
  intros Hi. rewrite Z.rem_mod_nonneg by lia. rewrite Zmod_odd.
  now destruct (Z.odd i).
Qed.

Lemma rem_2_not_even n : negb (Z.rem n 2 =? 0) = Z.odd n.
Proof.
  rewrite Zquot.Zrem_odd. destruct n as [|p|p]; try reflexivity;
    destruct p; reflexivity.
Qed.

(** The loop, started at index [k] with [sum] accumulated so far, adds the
    weighted samples of the remaining indices from left to right. *)
Lemma simpson_loop_weighted fraction lower h v n : forall count k sum,
  simpson_loop count (Z.of_nat k) fraction lower h v n sum =
  do ys <- evaluate_samples fraction v
             (map (fun i => add lower (mul (ofZ i) h))
                (map Z.of_nat (seq k count)));
  Ok (fold_left add
        (map (fun iy => mul (simpson_weight (fst iy) n) (snd iy))
           (combine (map Z.of_nat (seq k count)) ys))
        sum).
Proof.
  induction count as [|count IH]; intros k sum; [reflexivity|].
  cbn [simpson_loop seq map evaluate_samples].
  destruct (evaluateFraction fraction
              [(v, add lower (mul (ofZ (Z.of_nat k)) h))]) as [y|e];
    [|reflexivity].
  cbn [bind].
  replace (Z.of_nat k + 1) with (Z.of_nat (S k)) by lia.
  rewrite IH.
  destruct (evaluate_samples fraction v
              (map (fun i => add lower (mul (ofZ i) h))
                 (map Z.of_nat (seq (S k) count)))) as [ys|e];
    [|reflexivity].
  cbn [bind combine map fold_left fst snd]. do 2 f_equal.
  unfold simpson_weight.
  destruct ((Z.of_nat k =? 0) || (Z.of_nat k =? n)).
  - now rewrite mul_one_l.
  - rewrite rem_2_odd by lia. now destruct (Z.odd (Z.of_nat k)).
Qed.

(** C8: [numericalIntegrateFraction] is the composite Simpson's rule: an odd
    step count is incremented, [h = (upper-lower)/steps], the samples at
    [lower + i*h] for [i = 0..steps] are weighted 1, 4, 2, .., 4, 1 and
    summed, and [(h/3) * sum] is returned as one constant term over the
    scalar denominator 1. *)
Theorem numericalIntegrateFraction_simpson (fraction : Fraction)
    (lower upper : number) (v : string) (steps : Z) :
  numericalIntegrateFraction fraction lower upper v steps =
  simpson_rule fraction lower upper v steps.
Proof.
  unfold numericalIntegrateFraction, simpson_rule.
  rewrite rem_2_not_even.
  set (n := if Z.odd steps then steps + 1 else steps).
  set (h := div (sub upper lower) (ofZ n)).
  change 0 with (Z.of_nat 0) at 1.
  rewrite simpson_loop_weighted. unfold sample_indices, weighted_sum.
  destruct (evaluate_samples fraction v
              (map (fun i => add lower (mul (ofZ i) h))
                 (map Z.of_nat (seq 0 (Z.to_nat (n + 1)))))); reflexivity.
Qed.

(** ** The stable sort by descending degree *)

Lemma sort_insert_perm t : forall l, Permutation (sort_insert t l) (t :: l).
Proof.
  induction l as [|u rest IH]; simpl; [reflexivity|].
  destruct (degree t <? degree u); [|reflexivity].
  rewrite IH. apply perm_swap.
Qed.

Lemma sort_by_degree_perm : forall l, Permutation (sort_by_degree l) l.
Proof.
  induction l as [|t rest IH]; simpl; [reflexivity|].
  rewrite sort_insert_perm. now constructor.
Qed.

Lemma sort_insert_sorted t : forall l,
  Sorted degree_ge l -> Sorted degree_ge (sort_insert t l).
Proof.
  induction l as [|u rest IH]; simpl; intros Hs.
  - repeat constructor.
  - destruct (degree t <? degree u) eqn:E.
    + apply Z.ltb_lt in E. inversion Hs as [|? ? Hrest Hhd]; subst.
      constructor; [now apply IH|].
      destruct rest as [|w rest']; simpl.
      * constructor. unfold degree_ge. lia.
      * inversion Hhd; subst.
        destruct (degree t <? degree w); constructor;
          unfold degree_ge in *; lia.
    + apply Z.ltb_ge in E. constructor; [exact Hs|].
      constructor. exact E.
Qed.

Lemma sort_by_degree_sorted : forall l, Sorted degree_ge (sort_by_degree l).
Proof.
  induction l as [|t rest IH]; simpl; [constructor|].
  now apply sort_insert_sorted.
Qed.

(** Sorting a sequence that is already in order leaves it as it is. *)
Lemma sort_by_degree_fixed : forall l,
  Sorted degree_ge l -> sort_by_degree l = l.
Proof.
  induction l as [|t rest IH]; simpl; intros Hs; [reflexivity|].
  inversion Hs as [|? ? Hrest Hhd]; subst.
  rewrite (IH Hrest).
  destruct rest as [|u rest']; [reflexivity|]. simpl.
  inversion Hhd; subst. unfold degree_ge in *.
  destruct (degree t <? degree u) eqn:E; [|reflexivity].
  apply Z.ltb_lt in E. lia.
Qed.

(** ** The map of [simplifyPolynomial] *)

Lemma VarKey_eqb_eq k1 k2 : VarKey_eqb k1 k2 = true <-> k1 = k2.
Proof.
  split.
  - destruct k1, k2; simpl; try discriminate; try reflexivity.
    intros H. f_equal. now apply SameFacts.entries_eqb_eq.
  - intros ->. destruct k2; simpl; [reflexivity|].
    apply SameFacts.entries_eqb_refl.
Qed.

Lemma map_has_In (m : TermMap) key :
  map_has m key = true <-> In key (map fst m).
Proof.
  induction m as [|[k t] rest IH]; simpl.
  - split; [discriminate|contradiction].
  - rewrite orb_true_iff, IH, VarKey_eqb_eq. tauto.
Qed.

Lemma map_add_coeff_keys (m : TermMap) key c :
  map fst (map_add_coeff m key c) = map fst m.
Proof.
  induction m as [|[k t] rest IH]; simpl; [reflexivity|].
  destruct (VarKey_eqb k key); simpl; [reflexivity|]. now rewrite IH.
Qed.

Lemma map_add_coeff_keyed (m : TermMap) key c :
  keyed m -> keyed (map_add_coeff m key c).
Proof.
  unfold keyed. induction m as [|[k t] rest IH]; simpl; intros H.
  - constructor.
  - inversion H; subst. destruct (VarKey_eqb k key); constructor; auto.
Qed.

Lemma simplify_step_keys (m : TermMap) t :
  NoDup (map fst m) /\ keyed m ->
  NoDup (map fst (simplify_step m t)) /\ keyed (simplify_step m t).
Proof.
  intros [Hnd Hk]. unfold simplify_step.
  destruct (map_has m (varKey t)) eqn:E.
  - rewrite map_add_coeff_keys. split; [assumption|].
    now apply map_add_coeff_keyed.
  - unfold map_set. rewrite map_app. simpl. split.
    + apply NoDup_app; [exact Hnd|repeat constructor; intros []|].
      intros k Hin [Hk'|[]]. subst k.
      apply map_has_In in Hin. congruence.
    + apply Forall_app. split; [exact Hk|]. repeat constructor.
Qed.

Lemma simplify_fold_keys ts : forall m,
  NoDup (map fst m) /\ keyed m ->
  NoDup (map fst (fold_left simplify_step ts m))
  /\ keyed (fold_left simplify_step ts m).
Proof.
  induction ts as [|t rest IH]; simpl; intros m H; [exact H|].
  apply IH. now apply simplify_step_keys.
Qed.

Lemma keyed_keys (m : TermMap) :
  keyed m -> map varKey (map snd m) = map fst m.
Proof.
  unfold keyed. induction 1 as [|[k t] rest Hkt _ IH]; simpl;
    [reflexivity|].
  simpl in Hkt. now rewrite Hkt, IH.
Qed.

(** A property of terms that the coefficient update and the clone keep is
    kept by the whole loop. *)
Lemma simplify_fold_Forall (P : Term -> Prop) :
  (forall t u, P t -> P u ->
     P {| coeff := add (coeff t) (coeff u); var := var t |}) ->
  (forall u, P u -> P (deepClone u)) ->
  forall ts m, Forall P ts -> Forall P (map snd m) ->
    Forall P (map snd (fold_left simplify_step ts m)).
Proof.
  intros Hadd Hclone. induction ts as [|t rest IH]; simpl; intros m Hts Hm;
    [exact Hm|].
  inversion Hts; subst. apply IH; [assumption|].
  unfold simplify_step. destruct (map_has m (varKey t)).
  - clear IH. induction m as [|[k u] m' IHm]; simpl; [constructor|].
    simpl in Hm. inversion Hm; subst.
    destruct (VarKey_eqb k (varKey t)); simpl; constructor; auto.
  - unfold map_set. rewrite map_app. apply Forall_app. split; [exact Hm|].
    simpl. repeat constructor. auto.
Qed.

(** ** What [simplifyPolynomial] returns *)

(** A property of terms kept by the loop holds of every returned term. *)
Lemma simplifyPolynomial_Forall (P : Term -> Prop) :
  (forall t u, P t -> P u ->
     P {| coeff := add (coeff t) (coeff u); var := var t |}) ->
  (forall u, P u -> P (deepClone u)) ->
  forall p, Forall P (terms p) -> Forall P (terms (simplifyPolynomial p)).
Proof.
  intros Hadd Hclone p Hp. unfold simplifyPolynomial. cbn [terms].
  eapply Permutation_Forall.
  - symmetry. apply sort_by_degree_perm.
  - apply Forall_forall. intros t Ht. apply filter_In in Ht as [Ht _].
    revert t Ht. apply Forall_forall.
    apply simplify_fold_Forall;
      [exact Hadd|exact Hclone|exact Hp|constructor].
Qed.

Lemma simplifyPolynomial_above_epsilon p :
  Forall (fun t => above_epsilon t = true) (terms (simplifyPolynomial p)).
Proof.
  unfold simplifyPolynomial. cbn [terms].
  eapply Permutation_Forall.
  - symmetry. apply sort_by_degree_perm.
  - apply Forall_forall. intros t Ht. now apply filter_In in Ht as [_ Ht].
Qed.

Lemma NoDup_map_filter {A B} (f : A -> B) (keep : A -> bool) : forall l,
  NoDup (map f l) -> NoDup (map f (filter keep l)).
Proof.
  induction l as [|a rest IH]; simpl; intros H; [constructor|].
  inversion H as [|? ? Hnotin Hrest]; subst.
  destruct (keep a); simpl; [|auto].
  constructor; [|auto].
  intros Hin. apply Hnotin. apply in_map_iff in Hin as [b [Hb Hin]].
  apply filter_In in Hin as [Hin _]. apply in_map_iff. eauto.
Qed.

(** The returned terms have pairwise different keys. *)
Lemma simplifyPolynomial_distinct_keys p :
  NoDup (map varKey (terms (simplifyPolynomial p))).
Proof.
  unfold simplifyPolynomial. cbn [terms].
  eapply Permutation_NoDup.
  - apply Permutation_map. symmetry. apply sort_by_degree_perm.
  - apply NoDup_map_filter.
    destruct (simplify_fold_keys (terms p) []) as [Hnd Hk].
    + split; constructor.
    + rewrite keyed_keys by exact Hk. exact Hnd.
Qed.

Lemma simplifyPolynomial_sorted p :
  Sorted degree_ge (terms (simplifyPolynomial p)).
Proof. apply sort_by_degree_sorted. Qed.

Lemma add_finite a b :
  isFinite a = true -> isFinite b = true -> isFinite (add a b) = true.
Proof. destruct a, b; simpl; congruence. Qed.

Lemma jsonNumber_isFinite a : isFinite (jsonNumber a) = true.
Proof. destruct a; reflexivity. Qed.

Lemma simplifyPolynomial_finite p :
  Forall (fun t => finite_coeff t = true) (terms p) ->
  Forall (fun t => finite_coeff t = true) (terms (simplifyPolynomial p)).
Proof.
  apply simplifyPolynomial_Forall; unfold finite_coeff; simpl.
  - intros t u. apply add_finite.
  - intros u _. apply jsonNumber_isFinite.
Qed.

(** ** Idempotence of [simplifyPolynomial] (C5) *)

(** Terms with pairwise different keys, none of them in the map yet, are
    appended to the map one by one. *)
Lemma simplify_fold_distinct : forall ts m,
  NoDup (map fst m ++ map varKey ts) ->
  fold_left simplify_step ts m =
  m ++ map (fun t => (varKey t, deepClone t)) ts.
Proof.
  induction ts as [|t rest IH]; simpl; intros m Hnd.
  - now rewrite app_nil_r.
  - assert (Hnew : map_has m (varKey t) = false).
    { destruct (map_has m (varKey t)) eqn:E; [|reflexivity].
      apply map_has_In in E. apply NoDup_remove_2 in Hnd.
      exfalso. apply Hnd. apply in_or_app. now left. }
    unfold simplify_step at 2. rewrite Hnew. unfold map_set.
    rewrite IH.
    + now rewrite <- app_assoc.
    + rewrite map_app, <- app_assoc. exact Hnd.
Qed.

Lemma deepClone_finite t : finite_coeff t = true -> deepClone t = t.
Proof.
  destruct t as [c o]. unfold finite_coeff, deepClone; simpl.
  intros H. now rewrite jsonNumber_finite.
Qed.

Lemma filter_all {A} (keep : A -> bool) : forall l,
  Forall (fun a => keep a = true) l -> filter keep l = l.
Proof.
  induction 1 as [|a rest Ha _ IH]; simpl; [reflexivity|].
  now rewrite Ha, IH.
Qed.

(** A sequence of finite terms with different keys, all above the
    threshold and in descending order of degree, is returned as it is. *)
Lemma simplifyPolynomial_fixed ts :
  Forall (fun t => finite_coeff t = true) ts ->
  Forall (fun t => above_epsilon t = true) ts ->
  NoDup (map varKey ts) ->
  Sorted degree_ge ts ->
  simplifyPolynomial {| terms := ts |} = {| terms := ts |}.
Proof.
  intros Hfin Heps Hnd Hs. unfold simplifyPolynomial. cbn [terms].
  rewrite simplify_fold_distinct by exact Hnd. cbn [app].
  assert (Hclone : map snd (map (fun t => (varKey t, deepClone t)) ts) = ts).
  { clear Heps Hnd Hs. induction Hfin as [|t rest Ht _ IH]; simpl;
      [reflexivity|]. now rewrite deepClone_finite, IH. }
  rewrite Hclone.
  change (fun term : Term => gtb (Num.abs (coeff term)) epsilon)
    with above_epsilon.
  rewrite filter_all by exact Heps.
  now rewrite sort_by_degree_fixed.
Qed.

(** ** Idempotence on doubles

    The same argument on the embedding with IEEE 754 doubles: the keys, the
    filter and the sort do not depend on the arithmetic, and the JSON
    round trip returns a finite double that passes the filter as it is. *)
Module DoubleFacts.
Import Double.

Lemma double_sort_insert_perm t :
  forall l, Permutation (sort_insert t l) (t :: l).
Proof.
  induction l as [|u rest IH]; simpl; [reflexivity|].
  destruct (degree t <? degree u); [|reflexivity].
  rewrite IH. apply perm_swap.
Qed.

Lemma double_sort_by_degree_perm : forall l, Permutation (sort_by_degree l) l.
Proof.
  induction l as [|t rest IH]; simpl; [reflexivity|].
  rewrite double_sort_insert_perm. now constructor.
Qed.

Lemma double_sort_insert_sorted t : forall l,
  Sorted degree_ge l -> Sorted degree_ge (sort_insert t l).
Proof.
  induction l as [|u rest IH]; simpl; intros Hs.
  - repeat constructor.
  - destruct (degree t <? degree u) eqn:E.
    + apply Z.ltb_lt in E. inversion Hs as [|? ? Hrest Hhd]; subst.
      constructor; [now apply IH|].
      destruct rest as [|w rest']; simpl.
      * constructor. unfold degree_ge. lia.
      * inversion Hhd; subst.
        destruct (degree t <? degree w); constructor;
          unfold degree_ge in *; lia.
    + apply Z.ltb_ge in E. constructor; [exact Hs|].
      constructor. exact E.
Qed.

Lemma double_sort_by_degree_sorted :
  forall l, Sorted degree_ge (sort_by_degree l).
Proof.
  induction l as [|t rest IH]; simpl; [constructor|].
  now apply double_sort_insert_sorted.
Qed.

Lemma double_sort_by_degree_fixed : forall l,
  Sorted degree_ge l -> sort_by_degree l = l.
Proof.
  induction l as [|t rest IH]; simpl; intros Hs; [reflexivity|].
  inversion Hs as [|? ? Hrest Hhd]; subst.
  rewrite (IH Hrest).
  destruct rest as [|u rest']; [reflexivity|]. simpl.
  inversion Hhd; subst. unfold degree_ge in *.
  destruct (degree t <? degree u) eqn:E; [|reflexivity].
  apply Z.ltb_lt in E. lia.
Qed.

Lemma double_map_has_In (m : TermMap) key :
  map_has m key = true <-> In key (map fst m).
Proof.
  induction m as [|[k t] rest IH]; simpl.
  - split; [discriminate|contradiction].
  - rewrite orb_true_iff, IH, VarKey_eqb_eq. tauto.
Qed.

Lemma double_map_add_coeff_keys (m : TermMap) key c :
  map fst (map_add_coeff m key c) = map fst m.
Proof.
  induction m as [|[k t] rest IH]; simpl; [reflexivity|].
  destruct (VarKey_eqb k key); simpl; [reflexivity|]. now rewrite IH.
Qed.

Lemma double_map_add_coeff_keyed (m : TermMap) key c :
  keyed m -> keyed (map_add_coeff m key c).
Proof.
  unfold keyed. induction m as [|[k t] rest IH]; simpl; intros H.
  - constructor.
  - inversion H; subst. destruct (VarKey_eqb k key); constructor; auto.
Qed.

Lemma double_simplify_step_keys (m : TermMap) t :
  NoDup (map fst m) /\ keyed m ->
  NoDup (map fst (simplify_step m t)) /\ keyed (simplify_step m t).
Proof.
  intros [Hnd Hk]. unfold simplify_step.
  destruct (map_has m (varKey t)) eqn:E.
  - rewrite double_map_add_coeff_keys. split; [assumption|].
    now apply double_map_add_coeff_keyed.
  - unfold map_set. rewrite map_app. simpl. split.
    + apply NoDup_app; [exact Hnd|repeat constructor; intros []|].
      intros k Hin [Hk'|[]]. subst k.
      apply double_map_has_In in Hin. congruence.
    + apply Forall_app. split; [exact Hk|]. repeat constructor.
Qed.

Lemma double_simplify_fold_keys ts : forall m,
  NoDup (map fst m) /\ keyed m ->
  NoDup (map fst (fold_left simplify_step ts m))
  /\ keyed (fold_left simplify_step ts m).
Proof.
  induction ts as [|t rest IH]; simpl; intros m H; [exact H|].
  apply IH. now apply double_simplify_step_keys.
Qed.

Lemma double_keyed_keys (m : TermMap) :
  keyed m -> map varKey (map snd m) = map fst m.
Proof.
  unfold keyed. induction 1 as [|[k t] rest Hkt _ IH]; simpl;
    [reflexivity|].
  simpl in Hkt. now rewrite Hkt, IH.
Qed.

Lemma double_simplifyPolynomial_above_epsilon p :
  Forall (fun t => above_epsilon t = true) (terms (simplifyPolynomial p)).
Proof.
  unfold simplifyPolynomial. cbn [terms].
  eapply Permutation_Forall.
  - symmetry. apply double_sort_by_degree_perm.
  - apply Forall_forall. intros t Ht. now apply filter_In in Ht as [_ Ht].
Qed.

Lemma double_simplifyPolynomial_distinct_keys p :
  NoDup (map varKey (terms (simplifyPolynomial p))).
Proof.
  unfold simplifyPolynomial. cbn [terms].
  eapply Permutation_NoDup.
  - apply Permutation_map. symmetry. apply double_sort_by_degree_perm.
  - apply NoDup_map_filter.
    destruct (double_simplify_fold_keys (terms p) []) as [Hnd Hk].
    + split; constructor.
    + rewrite double_keyed_keys by exact Hk. exact Hnd.
Qed.

Lemma double_simplify_fold_distinct : forall ts m,
  NoDup (map fst m ++ map varKey ts) ->
  fold_left simplify_step ts m =
  m ++ map (fun t => (varKey t, deepClone t)) ts.
Proof.
  induction ts as [|t rest IH]; simpl; intros m Hnd.
  - now rewrite app_nil_r.
  - assert (Hnew : map_has m (varKey t) = false).
    { destruct (map_has m (varKey t)) eqn:E; [|reflexivity].
      apply double_map_has_In in E. apply NoDup_remove_2 in Hnd.
      exfalso. apply Hnd. apply in_or_app. now left. }
    unfold simplify_step at 2. rewrite Hnew. unfold map_set.
    rewrite IH.
    + now rewrite <- app_assoc.
    + rewrite map_app, <- app_assoc. exact Hnd.
Qed.

(** A finite double above the threshold is not a zero, and the JSON round
    trip returns it as it is. *)
Lemma double_jsonNumber_kept a :
  isFinite a = true -> PrimFloat.ltb epsilon (PrimFloat.abs a) = true ->
  jsonNumber a = a.
Proof.
  intros Hf He. unfold jsonNumber. rewrite Hf.
  match goal with
  | |- context [PrimFloat.eqb a ?z] => destruct (PrimFloat.eqb a z) eqn:E
  end; [|reflexivity].
  exfalso.
  rewrite FloatAxioms.eqb_spec in E.
  rewrite FloatAxioms.ltb_spec, FloatAxioms.abs_spec in He.
  destruct (FloatOps.Prim2SF a) as [s|s| |s m e].
  - vm_compute in He. discriminate He.
  - vm_compute in E. destruct s; discriminate E.
  - vm_compute in E. discriminate E.
  - destruct s; vm_compute in E; discriminate E.
Qed.

Lemma double_deepClone_kept t :
  finite_coeff t = true -> above_epsilon t = true -> deepClone t = t.
Proof.
  destruct t as [c o]. unfold finite_coeff, above_epsilon, deepClone.
  cbn [coeff var]. intros Hf He. now rewrite double_jsonNumber_kept.
Qed.

(** A sequence of finite terms with different keys, all above the
    threshold and in descending order of degree, is returned as it is. *)
Lemma double_simplifyPolynomial_fixed ts :
  Forall (fun t => finite_coeff t = true) ts ->
  Forall (fun t => above_epsilon t = true) ts ->
  NoDup (map varKey ts) ->
  Sorted degree_ge ts ->
  simplifyPolynomial {| terms := ts |} = {| terms := ts |}.
Proof.
  intros Hfin Heps Hnd Hs. unfold simplifyPolynomial. cbn [terms].
  rewrite double_simplify_fold_distinct by exact Hnd. cbn [app].
  assert (Hclone : map snd (map (fun t => (varKey t, deepClone t)) ts) = ts).
  { clear Hnd Hs. induction Hfin as [|t rest Ht _ IH]; simpl;
      [reflexivity|].
    inversion Heps; subst.
    now rewrite double_deepClone_kept, IH. }
  rewrite Hclone.
  change (fun term : Term =>
            PrimFloat.ltb epsilon (PrimFloat.abs (coeff term)))
    with above_epsilon.
  rewrite filter_all by exact Heps.
  now rewrite double_sort_by_degree_fixed.
Qed.

(** On doubles, too, the second pass returns the first result when all its
    coefficients are finite. *)
Lemma double_simplifyPolynomial_idempotent p :
  Forall (fun t => finite_coeff t = true) (terms (simplifyPolynomial p)) ->
  simplifyPolynomial (simplifyPolynomial p) = simplifyPolynomial p.
Proof.
  intros H1.
  pose proof (double_simplifyPolynomial_above_epsilon p) as H2.
  pose proof (double_simplifyPolynomial_distinct_keys p) as H3.
  assert (H4 : Sorted degree_ge (terms (simplifyPolynomial p)))
    by apply double_sort_by_degree_sorted.
  destruct (simplifyPolynomial p) as [ts]. cbn [terms] in *.
  now apply double_simplifyPolynomial_fixed.
Qed.

End DoubleFacts.


(** C5, amended: when every coefficient that [simplifyPolynomial(p)]
    returns is a finite number (no sum of coefficients has overflowed),
    the second pass returns the same terms in the same order.  This holds
    on the exact numbers and on doubles alike: the proof uses what the
    first pass establishes (different keys, coefficients above the
    threshold, descending degrees) and that the clone keeps a finite
    coefficient above the threshold; it uses no law of arithmetic. *)
Theorem simplifyPolynomial_idempotent :
  (forall p : Polynomial,
     Forall (fun t => finite_coeff t = true) (terms (simplifyPolynomial p)) ->
     simplifyPolynomial (simplifyPolynomial p) = simplifyPolynomial p)
  /\ (forall p : Double.Polynomial,
        Forall (fun t => Double.finite_coeff t = true)
          (Double.terms (Double.simplifyPolynomial p)) ->
        Double.simplifyPolynomial (Double.simplifyPolynomial p) =
        Double.simplifyPolynomial p).
Proof.
  split; [|exact DoubleFacts.double_simplifyPolynomial_idempotent].
  intros p H1.
  pose proof (simplifyPolynomial_above_epsilon p) as H2.
  pose proof (simplifyPolynomial_distinct_keys p) as H3.
  pose proof (simplifyPolynomial_sorted p) as H4.
  destruct (simplifyPolynomial p) as [ts]. cbn [terms] in *.
  now apply simplifyPolynomial_fixed.
Qed.

(** C5, as stated, fails on doubles: the coefficients of
    [1e308 x + 1e308 x] are finite, their sum overflows, the first pass
    returns [Infinity x], and the second pass, whose clone writes
    [Infinity] as [null], returns no term. *)
Lemma simplifyPolynomial_overflow_not_idempotent :
  let p := Double.two_huge_x in
  forallb (fun t => Double.isFinite (Double.coeff t)) (Double.terms p) = true
  /\ Double.terms (Double.simplifyPolynomial p) = [Double.infinite_x]
  /\ Double.terms (Double.simplifyPolynomial (Double.simplifyPolynomial p))
     = []
  /\ Double.simplifyPolynomial (Double.simplifyPolynomial p)
     <> Double.simplifyPolynomial p.
Proof.
  split; [vm_compute; reflexivity|].
  split; [vm_compute; reflexivity|].
  split; [vm_compute; reflexivity|].
  intros H.
  apply (f_equal (fun q => List.length (Double.terms q))) in H.
  vm_compute in H. discriminate H.
Qed.

(** The same on the exact numbers, where only a coefficient that is
    [Infinity] from the start gives an infinite sum: it survives the first
    pass, and the clone of the second pass writes it as [null], which the
    filter drops. *)
Remark simplifyPolynomial_infinite_coefficient :
  let p := poly [term_const 1; createTerm1 PosInf] in
  terms (simplifyPolynomial p) = [createTerm1 PosInf]
  /\ terms (simplifyPolynomial (simplifyPolynomial p)) = [].
Proof. split; vm_compute; reflexivity. Qed.

(** [x + 1 + 2x^2 - x] simplifies to [2x^2 + 1], and again to itself; on
    doubles [0.1x + 3x^2 + 1 + 0.2x - 1] simplifies to
    [3x^2 + 0.30000000000000004x], and again to itself. *)
Lemma simplifyPolynomial_idempotent_witness :
  let p := poly [term_x; term_const 1; createTerm (ofZ 2) (x_to 2);
                 createTerm (ofZ (-1)) (x_to 1)] in
  let q := Double.sample in
  (Forall (fun t => finite_coeff t = true) (terms (simplifyPolynomial p))
   /\ simplifyPolynomial (simplifyPolynomial p) = simplifyPolynomial p)
  /\ (Forall (fun t => Double.finite_coeff t = true)
        (Double.terms (Double.simplifyPolynomial q))
      /\ Double.simplifyPolynomial (Double.simplifyPolynomial q) =
         Double.simplifyPolynomial q).
Proof.
  intros p q.
  assert (Hp : Forall (fun t => finite_coeff t = true)
                 (terms (simplifyPolynomial p))).
  { apply Forall_forall. apply forallb_forall. vm_compute. reflexivity. }
  assert (Hq : Forall (fun t => Double.finite_coeff t = true)
                 (Double.terms (Double.simplifyPolynomial q))).
  { apply Forall_forall. apply forallb_forall. vm_compute. reflexivity. }
  split; split; try assumption.
  - exact (proj1 simplifyPolynomial_idempotent p Hp).
  - exact (proj2 simplifyPolynomial_idempotent q Hq).
Defined.

(** ** The normalization invariant (C4) *)


Section ExponentsAll.
Variable ok : Z -> bool.



End ExponentsAll.









(** ** Euclid's algorithm on numbers *)

Lemma Qc_eq_bool_iff (a b : Qc) : Qc_eq_bool a b = true <-> a = b.
Proof.
  unfold Qc_eq_bool. destruct (Qc_eq_dec a b); split; congruence.
Qed.

Section Scaled.
(** Rationals over one positive denominator [D]. *)
Variable D : positive.

Lemma scaled_is0 K : Qc_is0 (over D K) = (K =? 0).
Proof.
  unfold Qc_is0, over. apply eq_true_iff_eq.
  rewrite Qc_eq_bool_iff, Q2Qc_eq_iff, Z.eqb_eq.
  unfold Qeq; simpl. lia.
Qed.

Lemma scaled_num_den K :
  Qnum (over D K) * Z.pos D = K * QDen (over D K).
Proof.
  pose proof (Qred_correct (K # D)) as H. unfold Qeq in H. simpl in H.
  exact H.
Qed.

Lemma scaled_rem A B :
  B <> 0 -> Qc_rem (over D A) (over D B) = over D (Z.rem A B).
Proof.
  intros HB. unfold Qc_rem. unfold over at 5. apply Q2Qc_eq_iff.
  pose proof (scaled_num_den A) as HA'.
  pose proof (scaled_num_den B) as HB'.
  set (na := Qnum (over D A)) in *. set (da := Qden (over D A)) in *.
  set (nb := Qnum (over D B)) in *. set (db := Qden (over D B)) in *.
  unfold Qeq. cbn [Qnum Qden]. rewrite Pos2Z.inj_mul.
  assert (Hnb : nb <> 0) by nia.
  rewrite <- Z.mul_rem_distr_r by lia.
  replace (na * Z.pos db * Z.pos D) with (A * (Z.pos da * Z.pos db)) by nia.
  replace (nb * Z.pos da * Z.pos D) with (B * (Z.pos da * Z.pos db)) by nia.
  apply Z.mul_rem_distr_r; lia.
Qed.

(** With enough rounds the loop leaves with the gcd of the numerators. *)
Lemma gcd_loop_scaled : forall fuel A B,
  0 <= A -> 0 <= B -> (Z.to_nat B < fuel)%nat ->
  gcd_loop fuel (Fin (over D A)) (Fin (over D B)) =
  Some (Fin (over D (Z.gcd A B))).
Proof.
  induction fuel as [|fuel IH]; intros A B HA HB Hfuel; [lia|].
  cbn [gcd_loop truthy]. rewrite scaled_is0.
  destruct (B =? 0) eqn:E; cbn [negb].
  - apply Z.eqb_eq in E. subst B. rewrite Z.gcd_0_r, Z.abs_eq by lia.
    reflexivity.
  - apply Z.eqb_neq in E. cbn [Num.rem]. rewrite scaled_is0.
    apply Z.eqb_neq in E. rewrite E. apply Z.eqb_neq in E.
    rewrite scaled_rem by exact E.
    pose proof (Z.rem_bound_pos A B HA ltac:(lia)) as Hr.
    rewrite IH by lia.
    now rewrite Z.gcd_comm, Z.gcd_rem, Z.gcd_comm by exact E.
Qed.
End Scaled.

Lemma Qc_over_common (x y : Qc) :
  x = Q2Qc (Qnum x * QDen y # Qden x * Qden y).
Proof.
  apply Qc_is_canon. unfold Q2Qc. cbn [this]. symmetry.
  etransitivity; [apply Qred_correct|].
  unfold Qeq. cbn [Qnum Qden]. rewrite Pos2Z.inj_mul. ring.
Qed.

Lemma Qc_over_common_r (x y : Qc) :
  y = Q2Qc (Qnum y * QDen x # Qden x * Qden y).
Proof.
  apply Qc_is_canon. unfold Q2Qc. cbn [this]. symmetry.
  etransitivity; [apply Qred_correct|].
  unfold Qeq. cbn [Qnum Qden]. rewrite Pos2Z.inj_mul. ring.
Qed.

Lemma Qcabs_num (x : Qc) : Qnum (Qcabs x) = Z.abs (Qnum x).
Proof. destruct x as [[n d] c]. reflexivity. Qed.

Lemma Qcabs_den (x : Qc) : Qden (Qcabs x) = Qden x.
Proof. destruct x as [[n d] c]. reflexivity. Qed.

(** On finite numbers [gcd] leaves its loop and returns Euclid's gcd. *)
Lemma gcd_euclid (x y : Qc) : gcd (Fin x) (Fin y) = Fin (euclid_gcd x y).
Proof.
  unfold gcd. cbn [Num.abs gcd_fuel].
  set (ax := Qcabs x). set (ay := Qcabs y).
  set (D := (Qden ax * Qden ay)%positive).
  set (A := Qnum ax * QDen ay). set (B := Qnum ay * QDen ax).
  assert (HA : 0 <= A).
  { unfold A, ax. rewrite Qcabs_num. lia. }
  assert (HB : 0 <= B).
  { unfold B, ay. rewrite Qcabs_num. lia. }
  assert (Hx : ax = over D A) by apply Qc_over_common.
  assert (Hy : ay = over D B) by apply Qc_over_common_r.
  replace (Fin ax) with (Fin (over D A)) by now rewrite <- Hx.
  replace (Fin ay) with (Fin (over D B)) by now rewrite <- Hy.
  rewrite (gcd_loop_scaled D) by (try assumption; lia).
  cbn [truthy]. rewrite scaled_is0.
  unfold euclid_gcd, over.
  unfold A, B, D, ax, ay. rewrite !Qcabs_num, !Qcabs_den.
  destruct (Z.gcd (Z.abs (Qnum x) * QDen y) (Z.abs (Qnum y) * QDen x) =? 0);
    reflexivity.
Qed.

Lemma ofZ_num a : Qnum (Q2Qc (inject_Z a)) = a.
Proof.
  unfold Q2Qc, inject_Z. cbn [this].
  rewrite Qred_identity; [reflexivity|]. apply Z.gcd_1_r.
Qed.

Lemma ofZ_den a : Qden (Q2Qc (inject_Z a)) = 1%positive.
Proof.
  unfold Q2Qc, inject_Z. cbn [this].
  rewrite Qred_identity; [reflexivity|]. apply Z.gcd_1_r.
Qed.

(** On integers [gcd] is the gcd of the integers, 1 for two zeros. *)
Lemma gcd_integers (a b : Z) :
  gcd (ofZ a) (ofZ b) = ofZ (euclid_gcd_Z a b).
Proof.
  unfold ofZ. rewrite gcd_euclid. f_equal. unfold euclid_gcd, euclid_gcd_Z.
  rewrite !ofZ_num, !ofZ_den, !Z.mul_1_r, Z.gcd_abs_l, Z.gcd_abs_r.
  destruct (Z.gcd a b =? 0); reflexivity.
Qed.

(** The loop of [gcd] leaves within the rounds allotted, whatever the
    numbers. *)
Lemma gcd_loop_leaves (a b : number) :
  exists r,
    gcd_loop (gcd_fuel (Num.abs a) (Num.abs b)) (Num.abs a) (Num.abs b)
    = Some r.
Proof.
  destruct a as [x| | |], b as [y| | |]; cbn [Num.abs gcd_fuel];
    try (eexists; reflexivity).
  1: { pose proof (gcd_euclid x y) as H. unfold gcd in H.
       cbn [Num.abs gcd_fuel] in H.
       destruct (gcd_loop _ (Fin (Qcabs x)) (Fin (Qcabs y))) as [r|];
         [eauto|discriminate]. }
  all: cbn [gcd_loop truthy Num.rem];
    match goal with
    | |- context [Qc_is0 ?z] => destruct (Qc_is0 z)
    end; cbn [negb]; eexists; reflexivity.
Qed.

(** ** Reduction by the gcd (C7) *)

(** C7: [gcd] is Euclid's algorithm on absolute values, 1 for two zeros;
    with a scalar denominator [d] and a non-empty simplified numerator,
    [simplifyFraction] takes [g = gcd(gcd of the coefficients, d)] and, when
    [g > 1], divides every coefficient and [d] by [g]; [(6x^2+9x)/3]
    becomes [2x^2 + 3x] over 1. *)
Theorem simplifyFraction_gcd_reduction :
  (forall x y : Qc, gcd (Fin x) (Fin y) = Fin (euclid_gcd x y))
  /\ (forall a b : Z, gcd (ofZ a) (ofZ b) = ofZ (euclid_gcd_Z a b))
  /\ gcd (ofZ 0) (ofZ 0) = ofZ 1
  /\ (forall p d t ts,
        terms (simplifyPolynomial p) = t :: ts ->
        let g := gcd (fold_left gcd (map coeff ts) (coeff t)) d in
        simplifyFraction {| numi := p; deno := DenoNumber d |} =
        if gtb g one then
          {| numi :=
               {| terms := map (fun u => {| coeff := div (coeff u) g;
                                            var := var u |}) (t :: ts) |};
             deno := DenoNumber (div d g) |}
        else {| numi := simplifyPolynomial p; deno := DenoNumber d |})
  /\ simplifyFraction six_x2_plus_nine_x_over_3 =
     {| numi := poly [createTerm (ofZ 2) (x_to 2);
                      createTerm (ofZ 3) (x_to 1)];
        deno := DenoNumber one |}.
Proof.
  split; [exact gcd_euclid|].
  split; [exact gcd_integers|].
  split; [apply gcd_integers|].
  split; [|same_by_computation].
  intros p d t ts H g. unfold simplifyFraction. cbn [deno numi].
  rewrite H. cbn [map]. unfold reduce_gcd. fold g.
  destruct (gtb g one); reflexivity.
Qed.

(** The general part at [(6x^2+9x)/3]: the simplified numerator is
    [6x^2, 9x], and [g = gcd(gcd(6, 9), 3) = 3]. *)
Lemma simplifyFraction_gcd_reduction_witness :
  let p := numi six_x2_plus_nine_x_over_3 in
  let t := createTerm (ofZ 6) (x_to 2) in
  let ts := [createTerm (ofZ 9) (x_to 1)] in
  terms (simplifyPolynomial p) = t :: ts
  /\ gcd (fold_left gcd (map coeff ts) (coeff t)) (ofZ 3) = ofZ 3
  /\ simplifyFraction {| numi := p; deno := DenoNumber (ofZ 3) |} =
     if gtb (gcd (fold_left gcd (map coeff ts) (coeff t)) (ofZ 3)) one then
       {| numi :=
            {| terms :=
                 map (fun u =>
                        {| coeff :=
                             div (coeff u)
                               (gcd (fold_left gcd (map coeff ts) (coeff t))
                                  (ofZ 3));
                           var := var u |}) (t :: ts) |};
          deno :=
            DenoNumber
              (div (ofZ 3)
                 (gcd (fold_left gcd (map coeff ts) (coeff t)) (ofZ 3))) |}
     else {| numi := simplifyPolynomial p; deno := DenoNumber (ofZ 3) |}.
Proof.
  intros p t ts.
  assert (H : terms (simplifyPolynomial p) = t :: ts)
    by same_by_computation.
  split; [exact H|]. split; [same_by_computation|].
  destruct simplifyFraction_gcd_reduction as [_ [_ [_ [Hgen _]]]].
  exact (Hgen p (ofZ 3) t ts H).
Defined.

(** ** Multiplication and evaluation (C10) *)

Section PairsAll.
Variable ok : string * Z -> bool.

Lemma forallb_obj_set (o : JSObject Z) k a :
  forallb ok o = true -> ok (k, a) = true ->
  forallb ok (obj_set o k a) = true.
Proof.
  induction o as [|[k' a'] rest IH]; simpl; intros Ho Ha.
  - now rewrite Ha.
  - apply andb_prop in Ho as [H1 H2].
    destruct (String.eqb k' k) eqn:E; simpl.
    + apply String.eqb_eq in E. subst k'. now rewrite Ha, H2.
    + now rewrite H1, IH.
Qed.
End PairsAll.

Section Exact.
Variable values : JSObject number.

Lemma Qcpower_add (x : Qc) (n m : nat) :
  (x ^ (n + m) = x ^ n * x ^ m)%Qc.
Proof.
  induction n as [|n IH]; simpl.
  - now rewrite Qcmult_1_l.
  - rewrite IH. ring.
Qed.

Lemma pow_bound k e :
  binds values k = true -> 0 <= e ->
  exists x, obj_get values k = Some (Fin x)
    /\ pow (Fin x) e = Fin (valueQ values k ^ Z.to_nat e)%Qc.
Proof.
  unfold binds, valueQ. intros Hb He.
  destruct (obj_get values k) as [[x| | |]|]; try discriminate.
  exists x. split; [reflexivity|]. unfold pow.
  destruct (e =? 0) eqn:E0.
  - apply Z.eqb_eq in E0. subst e. reflexivity.
  - apply Z.eqb_neq in E0.
    assert (H : (0 <? e) = true) by (apply Z.ltb_lt; lia).
    now rewrite H.
Qed.

(** The loop of [evaluateTerm] multiplies by the exact value of the
    monomial. *)
Lemma evaluateTerm_loop_exact o : forall r,
  forallb (good_entry values) o = true ->
  evaluateTerm_loop o values (Fin r) = Ok (Fin (r * monomialQ values o)%Qc).
Proof.
  induction o as [|[k e] rest IH]; simpl; intros r Ho.
  - now rewrite Qcmult_1_r.
  - apply andb_prop in Ho as [Hke Hrest].
    unfold good_entry in Hke. simpl in Hke. apply andb_prop in Hke as [Hk He].
    apply Z.leb_le in He.
    destruct (pow_bound k e Hk He) as [x [Hx Hp]].
    rewrite (values_get_own _ _ _ Hx), Hp. cbn [mul].
    rewrite IH by exact Hrest.
    do 2 f_equal. ring.
Qed.

Lemma monomialQ_set_new o k e :
  obj_get o k = None ->
  monomialQ values (obj_set o k e) =
  (monomialQ values o * valueQ values k ^ Z.to_nat e)%Qc.
Proof.
  induction o as [|[k' e'] rest IH]; simpl; intros Hg.
  - ring.
  - destruct (String.eqb k' k); [discriminate|]. simpl.
    rewrite IH by exact Hg. ring.
Qed.

Lemma monomialQ_set_add o k e0 e :
  obj_get o k = Some e0 -> 0 <= e0 -> 0 <= e ->
  monomialQ values (obj_set o k (e0 + e)) =
  (monomialQ values o * valueQ values k ^ Z.to_nat e)%Qc.
Proof.
  intros Hg He0 He. induction o as [|[k' e'] rest IH]; simpl in *;
    [discriminate|].
  destruct (String.eqb k' k) eqn:E; simpl.
  - inversion Hg; subst e'. apply String.eqb_eq in E. subst k'.
    rewrite Z2Nat.inj_add, Qcpower_add by lia. ring.
  - rewrite IH by exact Hg. ring.
Qed.

Lemma existsb_eqb_false k ks :
  existsb (String.eqb k) ks = false -> ~ In k ks.
Proof.
  intros H Hin. assert (Ht : existsb (String.eqb k) ks = true).
  { apply existsb_exists. exists k. split; [exact Hin|].
    apply String.eqb_refl. }
  congruence.
Qed.

(** First loop of [multiplyTerms]: the variables of the first term are
    copied. *)
Lemma first_loop_exact o : forall acc,
  distinct_keys (obj_keys o) = true ->
  (forall k, In k (obj_keys o) -> obj_get acc k = None) ->
  forallb (good_entry values) o = true ->
  forallb (good_entry values) acc = true ->
  let vars := fold_left (fun vars e => obj_set vars (fst e) (snd e)) o acc in
  forallb (good_entry values) vars = true
  /\ monomialQ values vars = (monomialQ values acc * monomialQ values o)%Qc.
Proof.
  induction o as [|[k e] rest IH]; simpl; intros acc Hd Hfresh Ho Hacc.
  - split; [exact Hacc|]. ring.
  - apply andb_prop in Hd as [Hk Hd]. apply negb_true_iff in Hk.
    apply existsb_eqb_false in Hk.
    apply andb_prop in Ho as [Hke Ho].
    destruct (IH (obj_set acc k e)) as [Hgood Hval]; try assumption.
    + intros k' Hin. rewrite obj_get_set_other.
      * apply Hfresh. now right.
      * intros ->. contradiction.
    + now apply forallb_obj_set.
    + split; [exact Hgood|]. rewrite Hval.
      rewrite monomialQ_set_new by (apply Hfresh; now left). ring.
Qed.

Lemma good_get o k e0 :
  forallb (good_entry values) o = true -> obj_get o k = Some e0 -> 0 <= e0.
Proof.
  induction o as [|[k' e'] rest IH]; simpl; intros Ho Hg; [discriminate|].
  apply andb_prop in Ho as [Hke Ho].
  destruct (String.eqb k' k).
  - inversion Hg; subst e'. unfold good_entry in Hke. simpl in Hke.
    apply andb_prop in Hke as [_ He]. now apply Z.leb_le.
  - auto.
Qed.

(** Second loop: the exponents of the second term are added. *)
Lemma second_loop_exact o : forall acc,
  forallb (good_entry values) o = true ->
  forallb (good_entry values) acc = true ->
  let vars :=
    fold_left
      (fun vars e =>
         obj_set vars (fst e) (or_zero (obj_get vars (fst e)) + snd e))
      o acc in
  forallb (good_entry values) vars = true
  /\ monomialQ values vars = (monomialQ values acc * monomialQ values o)%Qc.
Proof.
  induction o as [|[k e] rest IH]; simpl; intros acc Ho Hacc.
  - split; [exact Hacc|]. ring.
  - apply andb_prop in Ho as [Hke Ho].
    assert (Hke' := Hke). unfold good_entry in Hke'. simpl in Hke'.
    apply andb_prop in Hke' as [Hk He]. apply Z.leb_le in He.
    destruct (obj_get acc k) as [e0|] eqn:Hg; cbn [or_zero].
    + pose proof (good_get acc k e0 Hacc Hg) as He0.
      replace (if e0 =? 0 then 0 else e0) with e0
        by (destruct (e0 =? 0) eqn:E; [apply Z.eqb_eq in E|]; lia).
      destruct (IH (obj_set acc k (e0 + e))) as [Hgood Hval];
        try assumption.
      * apply forallb_obj_set; [exact Hacc|].
        unfold good_entry. simpl. rewrite Hk. apply Z.leb_le. lia.
      * split; [exact Hgood|]. rewrite Hval.
        rewrite monomialQ_set_add by assumption. ring.
    + destruct (IH (obj_set acc k (0 + e))) as [Hgood Hval];
        try assumption.
      * apply forallb_obj_set; [exact Hacc|]. exact Hke.
      * split; [exact Hgood|]. rewrite Hval.
        rewrite monomialQ_set_new by assumption. simpl. ring.
Qed.
End Exact.

Section ExactTerms.
Variable values : JSObject number.

Lemma forallb_good o :
  forallb (fun e => binds values (fst e)) o = true ->
  forallb (fun e : string * Z => 0 <=? snd e) o = true ->
  forallb (good_entry values) o = true.
Proof.
  induction o as [|e rest IH]; simpl; intros Hb Hn; [reflexivity|].
  apply andb_prop in Hb as [Hb1 Hb2]. apply andb_prop in Hn as [Hn1 Hn2].
  unfold good_entry at 1. now rewrite Hb1, Hn1, IH.
Qed.

(** What [wf_term] and the binding give for the entries of a term. *)
Lemma wf_term_entries t :
  wf_term t = true -> binds_term values t = true ->
  exists c, coeff t = Fin c
    /\ let o := match var t with Some vars => vars | None => [] end in
       distinct_keys (obj_keys o) = true
       /\ forallb (good_entry values) o = true.
Proof.
  unfold wf_term, binds_term. intros Hwf Hb.
  apply andb_prop in Hwf as [Hc Hv].
  destruct (coeff t) as [c| | |]; try discriminate.
  exists c. split; [reflexivity|].
  destruct (var t) as [vars|]; simpl; [|auto].
  apply andb_prop in Hv as [Hd Hn]. split; [exact Hd|].
  now apply forallb_good.
Qed.


(** The value of a product of two terms is the product of their values. *)
Lemma multiplyTerms_exact t1 t2 :
  wf_term t1 = true -> binds_term values t1 = true ->
  wf_term t2 = true -> binds_term values t2 = true ->
  evaluateTerm (multiplyTerms t1 t2) values =
  Ok (Fin (termQ values t1 * termQ values t2)%Qc).
Proof.
  intros Hwf1 Hb1 Hwf2 Hb2.
  destruct (wf_term_entries t1 Hwf1 Hb1) as [c1 [Hc1 [Hd1 Hg1]]].
  destruct (wf_term_entries t2 Hwf2 Hb2) as [c2 [Hc2 [_ Hg2]]].
  unfold termQ, coeffQ. rewrite Hc1, Hc2.
  set (o1 := match var t1 with Some vars => vars | None => [] end) in *.
  set (o2 := match var t2 with Some vars => vars | None => [] end) in *.
  destruct (first_loop_exact values o1 [] Hd1 (fun _ _ => eq_refl) Hg1
              eq_refl) as [Hgood1 Hval1].
  set (vars1 := fold_left (fun vars e => obj_set vars (fst e) (snd e))
                  o1 []) in *.
  destruct (second_loop_exact values o2 vars1 Hg2 Hgood1)
    as [Hgood Hval].
  set (vars := fold_left
                 (fun vars e =>
                    obj_set vars (fst e)
                      (or_zero (obj_get vars (fst e)) + snd e))
                 o2 vars1) in *.
  assert (Hm : multiplyTerms t1 t2 =
               {| coeff := Fin (c1 * c2)%Qc;
                  var := if (0 <? List.length (obj_keys vars))%nat
                         then Some vars else None |}).
  { unfold multiplyTerms. rewrite Hc1, Hc2. cbn [mul].
    unfold vars, vars1, o1, o2.
    destruct (var t1), (var t2); reflexivity. }
  rewrite Hm. unfold evaluateTerm. cbn [var coeff].
  assert (Hv : monomialQ values vars =
               (monomialQ values o1 * monomialQ values o2)%Qc).
  { rewrite Hval, Hval1. simpl. ring. }
  destruct (0 <? List.length (obj_keys vars))%nat eqn:E.
  - rewrite (evaluateTerm_loop_exact values vars _ Hgood).
    do 2 f_equal. rewrite Hv. ring.
  - replace (c1 * monomialQ values o1 * (c2 * monomialQ values o2))%Qc
      with (c1 * c2 * (monomialQ values o1 * monomialQ values o2))%Qc
      by ring.
    rewrite <- Hv.
    destruct vars as [|e rest]; [|discriminate].
    simpl. now rewrite Qcmult_1_r.
Qed.

Lemma evaluatePolynomial_loop_exact ts xs :
  evaluate_to values ts xs -> forall s,
  evaluatePolynomial_loop ts values (Fin s) = Ok (Fin (s + sumQ xs)%Qc).
Proof.
  induction 1 as [|t x ts xs Ht _ IH]; simpl; intros s.
  - now rewrite Qcplus_0_r.
  - rewrite Ht. cbn [bind add]. rewrite IH. do 2 f_equal. ring.
Qed.

Lemma sumQ_app xs ys : sumQ (xs ++ ys) = (sumQ xs + sumQ ys)%Qc.
Proof.
  induction xs as [|x xs IH]; simpl.
  - now rewrite Qcplus_0_l.
  - rewrite IH. ring.
Qed.

Lemma sumQ_scale a ys :
  sumQ (map (fun y => a * y)%Qc ys) = (a * sumQ ys)%Qc.
Proof.
  induction ys as [|y ys IH]; simpl.
  - ring.
  - rewrite IH. ring.
Qed.

Lemma sumQ_products xs ys :
  sumQ (flat_map (fun x => map (fun y => x * y)%Qc ys) xs) =
  (sumQ xs * sumQ ys)%Qc.
Proof.
  induction xs as [|x xs IH]; simpl.
  - ring.
  - rewrite sumQ_app, sumQ_scale, IH. ring.
Qed.


Lemma evaluate_to_products ts1 ts2 :
  forallb wf_term ts1 = true -> forallb (binds_term values) ts1 = true ->
  forallb wf_term ts2 = true -> forallb (binds_term values) ts2 = true ->
  evaluate_to values
    (flat_map (fun t1 => map (fun t2 => multiplyTerms t1 t2) ts2) ts1)
    (flat_map (fun x => map (fun y => x * y)%Qc (map (termQ values) ts2))
       (map (termQ values) ts1)).
Proof.
  unfold evaluate_to. intros Hwf1 Hb1 Hwf2 Hb2.
  induction ts1 as [|t1 ts1 IH]; simpl; [constructor|].
  simpl in Hwf1, Hb1.
  apply andb_prop in Hwf1 as [Hw1 Hwf1].
  apply andb_prop in Hb1 as [Hbt1 Hb1].
  apply Forall2_app; [|now apply IH].
  clear IH. induction ts2 as [|t2 ts2 IH2]; simpl; [constructor|].
  simpl in Hwf2, Hb2.
  apply andb_prop in Hwf2 as [Hw2 Hwf2].
  apply andb_prop in Hb2 as [Hbt2 Hb2].
  constructor; [|now apply IH2].
  now apply multiplyTerms_exact.
Qed.
End ExactTerms.



(** * Further properties of the library *)

(** ** When an evaluation fails *)

Lemma evaluateTerm_loop_decided values entries : forall result,
  decided_by values (forallb (fun e => has_binding values (fst e)) entries)
    (evaluateTerm_loop entries values result).
Proof.
  induction entries as [|[k e] rest IH]; intros result; simpl.
  - now exists result.
  - unfold has_binding at 1. destruct (values_get values k) as [x|] eqn:Hk;
      simpl.
    + apply IH.
    + exists k. split; [reflexivity|]. unfold has_binding. now rewrite Hk.
Qed.

Lemma evaluateTerm_decided values t :
  decided_by values (term_bound values t) (evaluateTerm t values).
Proof.
  unfold term_bound, evaluateTerm. destruct (var t) as [vars|].
  - apply evaluateTerm_loop_decided.
  - now exists (coeff t).
Qed.

(** A loop that evaluates the parts one after the other, each decided by
    its own variables, is decided by the variables of all of them. *)
Lemma loop_decided {A} values (bound : A -> bool)
    (eval : A -> Result number) (op : number -> number -> number)
    (loop : list A -> number -> Result number) :
  (forall acc, loop [] acc = Ok acc) ->
  (forall a rest acc,
     loop (a :: rest) acc = do v <- eval a; loop rest (op acc v)) ->
  (forall a, decided_by values (bound a) (eval a)) ->
  forall parts acc, decided_by values (forallb bound parts) (loop parts acc).
Proof.
  intros Hnil Hcons Heval. induction parts as [|a rest IH]; intros acc;
    simpl.
  - rewrite Hnil. now exists acc.
  - rewrite Hcons. specialize (Heval a).
    destruct (bound a); simpl in *.
    + destruct Heval as [x ->]. simpl. apply IH.
    + destruct Heval as [v [-> Hv]]. simpl. now exists v.
Qed.

Lemma evaluatePolynomial_decided values p :
  decided_by values (polynomial_bound values p) (evaluatePolynomial p values).
Proof.
  unfold polynomial_bound, evaluatePolynomial.
  apply (loop_decided values (term_bound values)
           (fun t => evaluateTerm t values) add
           (fun ts acc => evaluatePolynomial_loop ts values acc));
    try reflexivity.
  apply evaluateTerm_decided.
Qed.

Lemma evaluateFraction_decided values f :
  decided_by values (fraction_bound values f) (evaluateFraction f values).
Proof.
  unfold fraction_bound, evaluateFraction.
  pose proof (evaluatePolynomial_decided values (numi f)) as Hn.
  destruct (polynomial_bound values (numi f)); simpl in *.
  - destruct Hn as [x ->]. simpl.
    destruct (deno f) as [d|d].
    + now eexists.
    + pose proof (evaluatePolynomial_decided values d) as Hd.
      destruct (polynomial_bound values d); simpl in *.
      * destruct Hd as [y ->]. simpl. now eexists.
      * destruct Hd as [v [-> Hv]]. simpl. now exists v.
  - destruct Hn as [v [-> Hv]]. simpl. now exists v.
Qed.

Lemma evaluateProduct_decided values product :
  decided_by values (product_bound values product)
    (evaluateProduct product values).
Proof.
  unfold product_bound, evaluateProduct.
  apply (loop_decided values (fraction_bound values)
           (fun f => evaluateFraction f values) mul
           (fun fs acc => evaluateProduct_loop fs values acc));
    try reflexivity.
  apply evaluateFraction_decided.
Qed.

(** X1: Evaluating an equation returns a number exactly when [values[v]]
    is not [undefined] for every variable [v] that occurs in it (numerators
    and polynomial denominators): [v] is an entry of the binding, or a name
    that the binding inherits from [Object.prototype], such as [toString],
    which is then read as [NaN].  Otherwise the evaluation fails with
    [MissingVariable] for a variable that is neither.  A zero denominator
    is no failure. *)
Theorem evaluateEquation_fails_only_unbound (values : JSObject number)
    (equation : list (list Fraction)) :
  (equation_bound values equation = true ->
   exists x, evaluateEquation equation values = Ok x)
  /\ (equation_bound values equation = false ->
      exists v, evaluateEquation equation values = Throw (MissingVariable v)
                /\ obj_get values v = None
                /\ existsb (String.eqb v) inherited_names = false).
Proof.
  assert (H : decided_by values (equation_bound values equation)
                (evaluateEquation equation values)).
  { unfold equation_bound, evaluateEquation.
    apply (loop_decided values (product_bound values)
             (fun p => evaluateProduct p values) add
             (fun ps acc => evaluateEquation_loop ps values acc));
      try reflexivity.
    apply evaluateProduct_decided. }
  split; intros Hb; rewrite Hb in H; simpl in H.
  - exact H.
  - destruct H as [v [Hv Hn]]. exists v. split; [exact Hv|].
    unfold has_binding, values_get in Hn.
    destruct (obj_get values v); [discriminate|].
    destruct (existsb (String.eqb v) inherited_names); [discriminate|].
    split; reflexivity.
Qed.

(** A variable named after a member of [Object.prototype] needs no entry:
    [evaluateTerm(createTerm(2, {toString: 1}), {})] returns [NaN]. *)
Remark evaluateTerm_inherited_name :
  evaluateTerm (createTerm (ofZ 2) [("toString", 1)]) [] = Ok NaN.
Proof. reflexivity. Qed.

(** ** Sums *)

Lemma add_zero_l a : add zero a = a.
Proof.
  destruct a as [q| | |]; try reflexivity.
  unfold zero, ofZ, add. f_equal. apply Qcplus_0_l.
Qed.

Lemma add_assoc a b c : add (add a b) c = add a (add b c).
Proof.
  destruct a, b, c; try reflexivity.
  simpl. f_equal. ring.
Qed.

(** The running sum can be added afterwards. *)
Lemma evaluatePolynomial_loop_from ts values : forall sum,
  evaluatePolynomial_loop ts values sum =
  do x <- evaluatePolynomial_loop ts values zero; Ok (add sum x).
Proof.
  induction ts as [|t rest IH]; intros sum;
    cbn [evaluatePolynomial_loop bind].
  - destruct sum as [q| | |]; try reflexivity.
    unfold zero, ofZ. simpl. do 2 f_equal. now rewrite Qcplus_0_r.
  - destruct (evaluateTerm t values) as [v|e]; [|reflexivity].
    cbn [bind]. rewrite (IH (add sum v)), (IH (add zero v)).
    destruct (evaluatePolynomial_loop rest values zero) as [x|e];
      [|reflexivity].
    cbn [bind]. now rewrite add_zero_l, add_assoc.
Qed.

Lemma evaluatePolynomial_loop_app ts1 ts2 values : forall sum,
  evaluatePolynomial_loop (ts1 ++ ts2) values sum =
  do a <- evaluatePolynomial_loop ts1 values sum;
  evaluatePolynomial_loop ts2 values a.
Proof.
  induction ts1 as [|t rest IH]; intros sum; simpl; [reflexivity|].
  destruct (evaluateTerm t values) as [v|e]; [|reflexivity]. simpl.
  apply IH.
Qed.

Lemma evaluatePolynomial_add (p q : Polynomial)
    (values : JSObject number) :
  evaluatePolynomial (addPolynomials p q) values =
  do a <- evaluatePolynomial p values;
  do b <- evaluatePolynomial q values;
  Ok (add a b).
Proof.
  unfold evaluatePolynomial, addPolynomials. cbn [terms].
  rewrite evaluatePolynomial_loop_app.
  destruct (evaluatePolynomial_loop (terms p) values zero) as [a|e];
    [|reflexivity].
  simpl. apply evaluatePolynomial_loop_from.
Qed.

(** X3: In exact arithmetic the value of [addPolynomials(p, q)] is the sum
    of the values of [p] and [q]; a failure of [p] comes first, then one
    of [q].  (On doubles the terms of [q] are added one by one to the value
    of [p], which rounds differently from adding the value of [q].) *)
Theorem addPolynomials_evaluates (p q : Polynomial)
    (values : JSObject number) :
  evaluatePolynomial (addPolynomials p q) values =
  do a <- evaluatePolynomial p values;
  do b <- evaluatePolynomial q values;
  Ok (add a b).
Proof. exact (evaluatePolynomial_add p q values). Qed.

Lemma evaluateEquation_loop_from equation values : forall sum,
  evaluateEquation_loop equation values sum =
  do x <- evaluateEquation_loop equation values zero; Ok (add sum x).
Proof.
  induction equation as [|p rest IH]; intros sum;
    cbn [evaluateEquation_loop bind].
  - destruct sum as [q| | |]; try reflexivity.
    unfold zero, ofZ. simpl. do 2 f_equal. now rewrite Qcplus_0_r.
  - destruct (evaluateProduct p values) as [v|e]; [|reflexivity].
    cbn [bind]. rewrite (IH (add sum v)), (IH (add zero v)).
    destruct (evaluateEquation_loop rest values zero) as [x|e];
      [|reflexivity].
    cbn [bind]. now rewrite add_zero_l, add_assoc.
Qed.

(** X2: In exact arithmetic an equation is the sum of its products: the
    value of two equations put end to end is the sum of their values, and
    the empty equation is 0.  (On doubles the running sum is rounded at
    each step, and the two sides can differ in the last digit.) *)
Theorem evaluateEquation_app (e1 e2 : list (list Fraction))
    (values : JSObject number) :
  evaluateEquation [] values = Ok zero
  /\ evaluateEquation (e1 ++ e2) values =
     do a <- evaluateEquation e1 values;
     do b <- evaluateEquation e2 values;
     Ok (add a b).
Proof.
  split; [reflexivity|]. unfold evaluateEquation.
  assert (Happ : forall sum,
            evaluateEquation_loop (e1 ++ e2) values sum =
            do a <- evaluateEquation_loop e1 values sum;
            evaluateEquation_loop e2 values a).
  { induction e1 as [|p rest IH]; intros sum; simpl; [reflexivity|].
    destruct (evaluateProduct p values) as [v|e]; [|reflexivity]. simpl.
    apply IH. }
  rewrite Happ.
  destruct (evaluateEquation_loop e1 values zero) as [a|e]; [|reflexivity].
  simpl. apply evaluateEquation_loop_from.
Qed.

(** ** Exact values *)

Lemma ofZ_add a b : add (ofZ a) (ofZ b) = ofZ (a + b).
Proof.
  unfold ofZ, add. f_equal. unfold Qcplus. apply Q2Qc_eq_iff.
  cbn [this Q2Qc]. rewrite !Qred_correct, inject_Z_plus. reflexivity.
Qed.

Lemma ofZ_mul a b : mul (ofZ a) (ofZ b) = ofZ (a * b).
Proof.
  unfold ofZ, mul. f_equal. unfold Qcmult. apply Q2Qc_eq_iff.
  cbn [this Q2Qc]. rewrite !Qred_correct, inject_Z_mult. reflexivity.
Qed.

Lemma ofZ_is0 z : Qc_is0 (Q2Qc (inject_Z z)) = (z =? 0).
Proof.
  unfold Qc_is0. apply eq_true_iff_eq.
  rewrite Qc_eq_bool_iff, Q2Qc_eq_iff, Z.eqb_eq.
  unfold Qeq, inject_Z; simpl. lia.
Qed.

Lemma is_integer_ofZ a : is_integer a = true -> exists z, a = ofZ z.
Proof.
  destruct a as [q| | |]; cbn [is_integer]; try discriminate.
  intros H. apply Pos.eqb_eq in H. exists (Qnum q). unfold ofZ. f_equal.
  apply Qc_is_canon. cbn [this Q2Qc]. rewrite Qred_correct.
  destruct q as [[n d] c]. simpl in *. subst d. reflexivity.
Qed.

Lemma ofZ_is_integer z : is_integer (ofZ z) = true.
Proof.
  unfold is_integer, ofZ. rewrite ofZ_den. reflexivity.
Qed.

(** An integer coefficient that the filter of [simplifyPolynomial] drops
    is 0. *)
Lemma integer_below_epsilon z :
  gtb (Num.abs (ofZ z)) epsilon = false -> z = 0.
Proof.
  unfold ofZ, epsilon. cbn [Num.abs gtb]. unfold Qc_ltb.
  destruct (Z.eq_dec z 0) as [|Hz]; [auto|]. intros H. exfalso.
  assert (Hlt : (Q2Qc (1 # 10000000000) < Qcabs (Q2Qc (inject_Z z)))%Qc).
  { unfold Qclt. cbn [this Q2Qc Qcabs]. rewrite !Qred_correct.
    unfold Qlt, inject_Z. cbn [Qabs.Qabs Qnum Qden]. lia. }
  assert (E : (Q2Qc (1 # 10000000000) ?= Qcabs (Q2Qc (inject_Z z)))%Qc
              = Lt) by (apply Qclt_alt; exact Hlt).
  rewrite E in H. discriminate.
Qed.

Section ExactOps.
Variable values : JSObject number.

Lemma exact_term_model t :
  wf_term t = true -> binds_term values t = true ->
  exact_term values t = true.
Proof.
  intros Hwf Hb.
  destruct (wf_term_entries values t Hwf Hb) as [c [Hc [_ Hg]]].
  unfold exact_term. rewrite Hc. simpl.
  destruct (var t); [exact Hg|reflexivity].
Qed.

Lemma exact_terms_model ts :
  forallb wf_term ts = true -> forallb (binds_term values) ts = true ->
  forallb (exact_term values) ts = true.
Proof.
  induction ts as [|t rest IH]; simpl; intros Hwf Hb; [reflexivity|].
  apply andb_prop in Hwf as [H1 H2]. apply andb_prop in Hb as [H3 H4].
  now rewrite exact_term_model, IH.
Qed.

Lemma evaluateTerm_exact_term t :
  exact_term values t = true ->
  evaluateTerm t values = Ok (Fin (termQ values t)).
Proof.
  unfold exact_term, evaluateTerm, termQ, coeffQ. intros H.
  apply andb_prop in H as [Hc Hv].
  destruct (coeff t) as [c| | |]; try discriminate.
  destruct (var t) as [vars|].
  - now apply evaluateTerm_loop_exact.
  - simpl. now rewrite Qcmult_1_r.
Qed.

(** A sequence of exact terms evaluates to the sum of their values. *)
Lemma evaluatePolynomial_exact_terms ts :
  forallb (exact_term values) ts = true ->
  evaluatePolynomial {| terms := ts |} values =
  Ok (Fin (sumQ (map (termQ values) ts))).
Proof.
  intros H. unfold evaluatePolynomial. cbn [terms].
  assert (Hto : evaluate_to values ts (map (termQ values) ts)).
  { unfold evaluate_to. induction ts as [|t rest IH]; simpl; constructor.
    - simpl in H. apply andb_prop in H as [H1 _].
      now apply evaluateTerm_exact_term.
    - simpl in H. apply andb_prop in H as [_ H2]. now apply IH. }
  unfold zero, ofZ.
  rewrite (evaluatePolynomial_loop_exact values _ _ Hto).
  do 2 f_equal. apply Qcplus_0_l.
Qed.

Lemma evaluatePolynomial_exact p :
  forallb (exact_term values) (terms p) = true ->
  evaluatePolynomial p values = Ok (Fin (polynomialQ values p)).
Proof.
  destruct p as [ts]. apply evaluatePolynomial_exact_terms.
Qed.

Lemma model_polynomial_exact p :
  model_polynomial values p = true ->
  forallb (exact_term values) (terms p) = true.
Proof.
  unfold model_polynomial, wf_polynomial, binds_polynomial. intros H.
  apply andb_prop in H as [H1 H2]. now apply exact_terms_model.
Qed.

Lemma sumQ_perm xs ys : Permutation xs ys -> sumQ xs = sumQ ys.
Proof.
  induction 1; simpl; try congruence; ring.
Qed.

Lemma sumQ_negate xs : sumQ (map Qcopp xs) = (- sumQ xs)%Qc.
Proof.
  induction xs as [|x rest IH]; simpl.
  - ring.
  - rewrite IH. ring.
Qed.
End ExactOps.

(** ** Differences *)

Lemma Qc_ltb_lt a b : Qc_ltb a b = true <-> (a < b)%Qc.
Proof.
  unfold Qc_ltb. rewrite Qclt_alt.
  destruct (a ?= b)%Qc; split; congruence.
Qed.

Lemma Qc_is0_iff x : Qc_is0 x = true <-> x = Q2Qc 0.
Proof. apply Qc_eq_bool_iff. Qed.

Lemma Qc_is0_opp x : Qc_is0 (- x)%Qc = Qc_is0 x.
Proof.
  apply eq_true_iff_eq. rewrite !Qc_is0_iff. split; intros H.
  - rewrite <- (Qcopp_involutive x), H. ring.
  - rewrite H. ring.
Qed.

Lemma Qc_neg_opp x : Qc_is0 x = false -> Qc_neg (- x)%Qc = negb (Qc_neg x).
Proof.
  intros Hx. unfold Qc_neg.
  assert (Hne : x <> Q2Qc 0).
  { intros H. apply Qc_is0_iff in H. congruence. }
  destruct (Qc_dec x (Q2Qc 0)) as [[Hlt|Hgt]|Heq]; [| |contradiction].
  - assert (H1 : Qc_ltb x (Q2Qc 0) = true) by now apply Qc_ltb_lt.
    rewrite H1. simpl.
    destruct (Qc_ltb (- x) (Q2Qc 0)) eqn:E; [|reflexivity].
    apply Qc_ltb_lt in E. apply Qclt_minus_iff in E.
    replace (Q2Qc 0 + - - x)%Qc with x in E by ring.
    exfalso. apply (Qclt_not_le _ _ Hlt). now apply Qclt_le_weak.
  - assert (H1 : Qc_ltb (- x) (Q2Qc 0) = true).
    { apply Qc_ltb_lt. apply Qclt_minus_iff.
      now replace (Q2Qc 0 + - - x)%Qc with x by ring. }
    rewrite H1.
    destruct (Qc_ltb x (Q2Qc 0)) eqn:E; [|reflexivity].
    apply Qc_ltb_lt in E.
    exfalso. apply (Qclt_not_le _ _ E). now apply Qclt_le_weak.
Qed.

Lemma mul_neg_l a b : mul (neg a) b = neg (mul a b).
Proof.
  destruct a as [x| | |], b as [y| | |]; try reflexivity; cbn [neg mul].
  - f_equal. ring.
  - rewrite Qc_is0_opp. destruct (Qc_is0 x) eqn:E; [reflexivity|].
    rewrite Qc_neg_opp by exact E. now destruct (Qc_neg x).
  - rewrite Qc_is0_opp. destruct (Qc_is0 x) eqn:E; [reflexivity|].
    rewrite Qc_neg_opp by exact E. now destruct (Qc_neg x).
  - destruct (Qc_is0 y); [reflexivity|]. now destruct (Qc_neg y).
  - destruct (Qc_is0 y); [reflexivity|]. now destruct (Qc_neg y).
Qed.

Lemma add_neg a b : add (neg a) (neg b) = neg (add a b).
Proof.
  destruct a, b; try reflexivity. simpl. f_equal. ring.
Qed.

Lemma neg_zero : neg zero = zero.
Proof. same_by_computation. Qed.

Lemma evaluateTerm_loop_neg entries values : forall result,
  evaluateTerm_loop entries values (neg result) =
  on_result neg (evaluateTerm_loop entries values result).
Proof.
  induction entries as [|[k e] rest IH]; intros result; simpl;
    [reflexivity|].
  destruct (values_get values k) as [x|]; [|reflexivity].
  rewrite mul_neg_l. apply IH.
Qed.

Lemma evaluatePolynomial_loop_neg ts values : forall sum,
  evaluatePolynomial_loop
    (map (fun t => {| coeff := neg (coeff t); var := var (deepClone t) |}) ts)
    values (neg sum) =
  on_result neg (evaluatePolynomial_loop ts values sum).
Proof.
  induction ts as [|t rest IH]; intros sum;
    cbn [map evaluatePolynomial_loop]; [reflexivity|].
  unfold evaluateTerm. cbn [var coeff deepClone].
  assert (Ht : match var t with
               | Some vars => evaluateTerm_loop vars values (neg (coeff t))
               | None => Ok (neg (coeff t))
               end =
               on_result neg match var t with
                             | Some vars =>
                                 evaluateTerm_loop vars values (coeff t)
                             | None => Ok (coeff t)
                             end).
  { destruct (var t); [apply evaluateTerm_loop_neg|reflexivity]. }
  rewrite Ht.
  destruct (match var t with
            | Some vars => evaluateTerm_loop vars values (coeff t)
            | None => Ok (coeff t)
            end) as [v|e]; [|reflexivity].
  cbn [on_result bind]. rewrite add_neg. apply IH.
Qed.

Lemma evaluatePolynomial_subtract (p q : Polynomial)
    (values : JSObject number) :
  evaluatePolynomial (subtractPolynomials p q) values =
  do a <- evaluatePolynomial p values;
  do b <- evaluatePolynomial q values;
  Ok (sub a b).
Proof.
  unfold subtractPolynomials. rewrite evaluatePolynomial_add.
  destruct (evaluatePolynomial p values) as [a|e]; [|reflexivity].
  cbn [bind]. unfold evaluatePolynomial at 1. cbn [terms].
  rewrite <- neg_zero at 1. rewrite evaluatePolynomial_loop_neg.
  fold (evaluatePolynomial q values).
  destruct (evaluatePolynomial q values) as [b|e]; reflexivity.
Qed.

(** X4: In exact arithmetic the value of [subtractPolynomials(p, q)] is the
    value of [p] minus the value of [q]; a failure of [p] comes first, then
    one of [q]. *)
Theorem subtractPolynomials_evaluates (p q : Polynomial)
    (values : JSObject number) :
  evaluatePolynomial (subtractPolynomials p q) values =
  do a <- evaluatePolynomial p values;
  do b <- evaluatePolynomial q values;
  Ok (sub a b).
Proof. exact (evaluatePolynomial_subtract p q values). Qed.

(** ** What [simplifyPolynomial] returns *)

Lemma simplify_step_length m t :
  (List.length (simplify_step m t) <= S (List.length m))%nat.
Proof.
  unfold simplify_step. destruct (map_has m (varKey t)).
  - assert (H : List.length (map_add_coeff m (varKey t) (coeff t))
                = List.length m).
    { induction m as [|[k u] rest IH]; simpl; [reflexivity|].
      destruct (VarKey_eqb k (varKey t)); simpl; [reflexivity|].
      now rewrite IH. }
    lia.
  - unfold map_set. rewrite length_app. simpl. lia.
Qed.

Lemma simplify_fold_length ts : forall m,
  (List.length (fold_left simplify_step ts m)
   <= List.length ts + List.length m)%nat.
Proof.
  induction ts as [|t rest IH]; intros m; simpl; [lia|].
  specialize (IH (simplify_step m t)).
  pose proof (simplify_step_length m t). lia.
Qed.

(** X5: What [simplifyPolynomial] returns, whatever the input: no two
    returned terms have the same [var] as it is written (the same
    variables with the same exponents in the same order, which is what the
    key [JSON.stringify(term.var)] compares), every returned coefficient
    is above [1e-10] in absolute value, the total degrees never increase
    along the sequence, the [var] of every returned term is that of an
    input term, and there are at most as many terms as in the input.
    Terms that are alike but list their variables in a different order are
    not merged (see [simplifyPolynomial_keeps_reordered_variables]). *)
Theorem simplifyPolynomial_result_shape (p : Polynomial) :
  let ts := terms (simplifyPolynomial p) in
  NoDup (map var ts)
  /\ Forall (fun t => gtb (Num.abs (coeff t)) epsilon = true) ts
  /\ Sorted (fun t u => degree u <= degree t) ts
  /\ Forall (fun t => exists u, In u (terms p) /\ var t = var u) ts
  /\ (List.length ts <= List.length (terms p))%nat.
Proof.
  intros ts. split; [|split; [|split; [|split]]].
  - apply (NoDup_map_inv key_of_var). rewrite map_map.
    exact (simplifyPolynomial_distinct_keys p).
  - exact (simplifyPolynomial_above_epsilon p).
  - exact (simplifyPolynomial_sorted p).
  - apply simplifyPolynomial_Forall.
    + intros t u [w [Hw Hv]] _. exists w. now split.
    + intros u [w [Hw Hv]]. exists w. now split.
    + apply Forall_forall. intros u Hu. exists u. now split.
  - unfold ts, simplifyPolynomial. cbn [terms].
    rewrite (Permutation_length (sort_by_degree_perm _)).
    etransitivity; [apply filter_length_le|].
    rewrite length_map.
    pose proof (simplify_fold_length (terms p) []). simpl in H. lia.
Qed.

(** [x y] and [y x] have the same exponents, but their keys [{"x":1,"y":1}]
    and [{"y":1,"x":1}] differ: both terms are returned. *)
Remark simplifyPolynomial_keeps_reordered_variables :
  let xy := createTerm (ofZ 1) [("x", 1); ("y", 1)] in
  let yx := createTerm (ofZ 1) [("y", 1); ("x", 1)] in
  terms (simplifyPolynomial (poly [xy; yx])) = [xy; yx].
Proof. vm_compute. reflexivity. Qed.

(** ** [simplifyPolynomial] and the value *)

Lemma varKey_var t u : varKey t = varKey u -> var t = var u.
Proof.
  unfold varKey. destruct (var t), (var u); congruence.
Qed.

Section SimplifyValue.
Variable values : JSObject number.

Lemma termQ_add_coeff t c :
  finite_coeff t = true ->
  termQ values {| coeff := add (coeff t) (Fin c); var := var t |} =
  (termQ values t
   + c * monomialQ values (match var t with
                           | Some vars => vars
                           | None => []
                           end))%Qc.
Proof.
  unfold finite_coeff, termQ, coeffQ. cbn [coeff var].
  destruct (coeff t) as [a| | |]; try discriminate. intros _.
  cbn [add]. ring.
Qed.

Lemma map_add_coeff_value (m : TermMap) t c :
  coeff t = Fin c ->
  keyed m -> Forall (fun u => finite_coeff u = true) (map snd m) ->
  map_has m (varKey t) = true ->
  mapQ values (map_add_coeff m (varKey t) (coeff t)) =
  (mapQ values m + termQ values t)%Qc.
Proof.
  intros Hc. unfold mapQ, keyed.
  induction m as [|[k u] rest IH]; simpl; intros Hk Hfin Hhas;
    [discriminate|].
  pose proof (Forall_inv Hk) as Hku. simpl in Hku.
  pose proof (Forall_inv_tail Hk) as Hkrest.
  pose proof (Forall_inv Hfin) as Hu.
  pose proof (Forall_inv_tail Hfin) as Hfrest.
  destruct (VarKey_eqb k (varKey t)) eqn:E; simpl.
  - apply VarKey_eqb_eq in E. rewrite <- Hku in E.
    apply varKey_var in E. rewrite Hc.
    rewrite termQ_add_coeff by exact Hu.
    rewrite E.
    assert (Ht : termQ values t =
                 (c * monomialQ values match var t with
                                       | Some vars => vars
                                       | None => []
                                       end)%Qc)
      by (unfold termQ, coeffQ; now rewrite Hc).
    rewrite Ht. ring.
  - simpl in Hhas. rewrite IH by assumption. ring.
Qed.

Lemma termQ_deepClone t :
  finite_coeff t = true -> termQ values (deepClone t) = termQ values t.
Proof. intros H. now rewrite deepClone_finite. Qed.

Lemma simplify_step_value (m : TermMap) t :
  finite_coeff t = true ->
  keyed m -> Forall (fun u => finite_coeff u = true) (map snd m) ->
  mapQ values (simplify_step m t) = (mapQ values m + termQ values t)%Qc.
Proof.
  intros Ht Hk Hfin. unfold simplify_step.
  destruct (map_has m (varKey t)) eqn:E.
  - unfold finite_coeff in Ht.
    destruct (coeff t) as [c| | |] eqn:Hc; try discriminate.
    rewrite <- Hc. now apply map_add_coeff_value with (c := c).
  - unfold map_set, mapQ. rewrite !map_app, sumQ_app. simpl.
    rewrite termQ_deepClone by exact Ht. ring.
Qed.

Lemma simplify_step_finite (m : TermMap) t :
  finite_coeff t = true ->
  Forall (fun u => finite_coeff u = true) (map snd m) ->
  Forall (fun u => finite_coeff u = true) (map snd (simplify_step m t)).
Proof.
  intros Ht Hm.
  apply (simplify_fold_Forall (fun u => finite_coeff u = true))
    with (ts := [t]) (m := m); unfold finite_coeff; simpl; auto.
  - intros a b. apply add_finite.
  - intros u _. apply jsonNumber_isFinite.
Qed.

Lemma simplify_fold_value ts : forall m,
  Forall (fun t => finite_coeff t = true) ts ->
  NoDup (map fst m) /\ keyed m ->
  Forall (fun u => finite_coeff u = true) (map snd m) ->
  mapQ values (fold_left simplify_step ts m) =
  (mapQ values m + sumQ (map (termQ values) ts))%Qc.
Proof.
  induction ts as [|t rest IH]; simpl; intros m Hts Hk Hfin.
  - ring.
  - inversion Hts; subst.
    rewrite IH; try assumption.
    + rewrite simplify_step_value; try assumption; [ring|apply Hk].
    + now apply simplify_step_keys.
    + now apply simplify_step_finite.
Qed.

(** Dropping terms of value 0 does not change the sum. *)
Lemma sumQ_filter (keep : Term -> bool) ts :
  Forall (fun t => keep t = false -> termQ values t = Q2Qc 0) ts ->
  sumQ (map (termQ values) (filter keep ts)) = sumQ (map (termQ values) ts).
Proof.
  induction 1 as [|t rest Ht _ IH]; simpl; [reflexivity|].
  destruct (keep t) eqn:E; simpl.
  - now rewrite IH.
  - rewrite IH, (Ht eq_refl). ring.
Qed.

Lemma integer_term_dropped t :
  integer_coeff t = true -> above_epsilon t = false ->
  termQ values t = Q2Qc 0.
Proof.
  unfold integer_coeff, above_epsilon, termQ, coeffQ. intros Hi Hd.
  apply is_integer_ofZ in Hi as [z Hz]. rewrite Hz in *.
  apply integer_below_epsilon in Hd. subst z.
  unfold ofZ. replace (Q2Qc (inject_Z 0)) with (Q2Qc 0) by reflexivity.
  ring.
Qed.

Lemma integer_finite t : integer_coeff t = true -> finite_coeff t = true.
Proof.
  unfold integer_coeff, finite_coeff. now destruct (coeff t).
Qed.

(** Merging like terms and dropping the zero ones keeps the exact value of
    a polynomial with integer coefficients. *)
Lemma simplifyPolynomial_value p :
  Forall (fun t => integer_coeff t = true) (terms p) ->
  polynomialQ values (simplifyPolynomial p) = polynomialQ values p.
Proof.
  intros Hint. unfold polynomialQ, simplifyPolynomial. cbn [terms].
  rewrite (sumQ_perm _ _ (Permutation_map _ (sort_by_degree_perm _))).
  change (fun term : Term => gtb (Num.abs (coeff term)) epsilon)
    with above_epsilon.
  assert (Hfin : Forall (fun t => finite_coeff t = true) (terms p)).
  { eapply Forall_impl; [|exact Hint]. apply integer_finite. }
  rewrite sumQ_filter.
  - fold (mapQ values (fold_left simplify_step (terms p) [])).
    rewrite simplify_fold_value; try assumption.
    + unfold mapQ. simpl. ring.
    + split; constructor.
    + constructor.
  - apply Forall_forall. intros t Ht. apply integer_term_dropped.
    revert t Ht. apply Forall_forall.
    apply (simplify_fold_Forall (fun t => integer_coeff t = true)).
    + unfold integer_coeff. cbn [coeff]. intros t u Ht Hu.
      apply is_integer_ofZ in Ht as [a ->].
      apply is_integer_ofZ in Hu as [b ->].
      rewrite ofZ_add. apply ofZ_is_integer.
    + unfold integer_coeff, deepClone. cbn [coeff]. intros u Hu.
      rewrite jsonNumber_finite; [exact Hu|].
      now destruct (coeff u).
    + exact Hint.
    + constructor.
Qed.

Lemma simplifyPolynomial_exact p :
  forallb (exact_term values) (terms p) = true ->
  forallb (exact_term values) (terms (simplifyPolynomial p)) = true.
Proof.
  intros H. apply forallb_forall. apply Forall_forall.
  apply (simplifyPolynomial_Forall (fun t => exact_term values t = true)).
  - unfold exact_term. cbn [coeff var]. intros t u Ht Hu.
    apply andb_prop in Ht as [Ht1 Ht2]. apply andb_prop in Hu as [Hu1 _].
    now rewrite add_finite, Ht2.
  - unfold exact_term, deepClone. cbn [coeff var]. intros u Hu.
    apply andb_prop in Hu as [_ Hu2].
    now rewrite jsonNumber_isFinite, Hu2.
  - apply Forall_forall. now apply forallb_forall.
Qed.
End SimplifyValue.

(** X6: For a polynomial with integer coefficients and exponents that are not
    negative, and a binding with a real value for each variable,
    [simplifyPolynomial] returns a polynomial of the same value, in exact
    arithmetic. *)
Theorem simplifyPolynomial_preserves_value (p : Polynomial)
    (values : JSObject number) :
  integer_polynomial values p = true ->
  exists a : Qc,
    evaluatePolynomial p values = Ok (Fin a)
    /\ evaluatePolynomial (simplifyPolynomial p) values = Ok (Fin a).
Proof.
  unfold integer_polynomial. intros H. apply andb_prop in H as [Hm Hi].
  exists (polynomialQ values p). split.
  - now apply evaluatePolynomial_exact.
  - rewrite evaluatePolynomial_exact
      by now apply simplifyPolynomial_exact.
    rewrite simplifyPolynomial_value; [reflexivity|].
    apply Forall_forall. now apply forallb_forall.
Qed.

(** [x + 1 + 2x^2 - x] and its simplification [2x^2 + 1] at [x = 3]. *)
Lemma simplifyPolynomial_preserves_value_witness :
  let p := poly [term_x; term_const 1; createTerm (ofZ 2) (x_to 2);
                 createTerm (ofZ (-1)) (x_to 1)] in
  let values := [("x", ofZ 3)] in
  integer_polynomial values p = true
  /\ exists a : Qc,
       evaluatePolynomial p values = Ok (Fin a)
       /\ evaluatePolynomial (simplifyPolynomial p) values = Ok (Fin a).
Proof.
  intros p values. split; [reflexivity|].
  apply (simplifyPolynomial_preserves_value p values); reflexivity.
Defined.

(** ** [simplifyFraction] and the value *)

Lemma reduce_gcd_finite cs : forall c : Qc,
  Forall (fun a => isFinite a = true) cs ->
  exists g : Qc, fold_left gcd cs (Fin c) = Fin g.
Proof.
  induction cs as [|a rest IH]; simpl; intros c H; [eauto|].
  inversion H as [|? ? Ha Hrest]; subst.
  destruct a as [x| | |]; try discriminate.
  rewrite gcd_euclid. now apply IH.
Qed.

Lemma gtb_one_nonzero g : gtb (Fin g) one = true -> Qc_is0 g = false.
Proof.
  unfold one, ofZ. cbn [gtb]. intros H. apply Qc_ltb_lt in H.
  destruct (Qc_is0 g) eqn:E; [|reflexivity].
  apply Qc_is0_iff in E. subst g. exfalso.
  apply (Qclt_not_le _ _ H). unfold Qcle. simpl. discriminate.
Qed.

Lemma Qc_is0_false x : Qc_is0 x = false -> x <> Q2Qc 0.
Proof.
  intros H E. apply Qc_is0_iff in E. congruence.
Qed.

Lemma Qc_is0_div d g :
  Qc_is0 d = false -> Qc_is0 g = false -> Qc_is0 (d / g)%Qc = false.
Proof.
  intros Hd Hg. destruct (Qc_is0 (d / g)%Qc) eqn:E; [|reflexivity].
  apply Qc_is0_iff in E. apply Qc_is0_false in Hd, Hg.
  exfalso. apply Hd. rewrite <- (Qcmult_div_r d g Hg), E. ring.
Qed.

Section SimplifyFractionValue.
Variable values : JSObject number.

(** Dividing every coefficient by a real [g] other than 0 divides the
    value by [g]. *)
Lemma divided_terms_exact (g : Qc) ts :
  Qc_is0 g = false ->
  forallb (exact_term values) ts = true ->
  forallb (exact_term values)
    (map (fun t => {| coeff := div (coeff t) (Fin g);
                      var := var (deepClone t) |}) ts) = true
  /\ sumQ (map (termQ values)
             (map (fun t => {| coeff := div (coeff t) (Fin g);
                               var := var (deepClone t) |}) ts)) =
     (sumQ (map (termQ values) ts) / g)%Qc.
Proof.
  intros Hg. induction ts as [|t rest IH]; cbn [map forallb sumQ fold_right];
    intros H.
  - split; [reflexivity|]. field. now apply Qc_is0_false.
  - apply andb_prop in H as [Ht Hrest].
    destruct (IH Hrest) as [IH1 IH2]. clear IH.
    fold (sumQ (map (termQ values) rest)).
    fold (sumQ (map (termQ values)
                  (map (fun t => {| coeff := div (coeff t) (Fin g);
                                    var := var (deepClone t) |}) rest))).
    rewrite IH1, IH2, andb_true_r.
    unfold exact_term in Ht. apply andb_prop in Ht as [Hc Hv].
    unfold exact_term, termQ, coeffQ. cbn [coeff var deepClone].
    destruct (coeff t) as [c| | |]; try discriminate.
    cbn [div]. rewrite Hg. cbn [isFinite andb].
    split; [exact Hv|]. field. now apply Qc_is0_false.
Qed.

Lemma simplifyFraction_scalar_value p (d : Qc) :
  integer_polynomial values p = true -> Qc_is0 d = false ->
  evaluateFraction
    (simplifyFraction {| numi := p; deno := DenoNumber (Fin d) |}) values =
  evaluateFraction {| numi := p; deno := DenoNumber (Fin d) |} values.
Proof.
  unfold integer_polynomial. intros Hp Hd.
  apply andb_prop in Hp as [Hm Hi].
  pose proof (simplifyPolynomial_exact values p Hm) as Hs.
  assert (Hval : polynomialQ values (simplifyPolynomial p)
                 = polynomialQ values p).
  { apply simplifyPolynomial_value. apply Forall_forall.
    now apply forallb_forall. }
  assert (Hunchanged :
            evaluateFraction
              {| numi := simplifyPolynomial p; deno := DenoNumber (Fin d) |}
              values =
            evaluateFraction {| numi := p; deno := DenoNumber (Fin d) |}
              values).
  { unfold evaluateFraction. cbn [numi deno].
    rewrite !evaluatePolynomial_exact by assumption. now rewrite Hval. }
  unfold simplifyFraction. cbn [numi deno].
  destruct (map coeff (terms (simplifyPolynomial p))) as [|c cs] eqn:Ecs;
    [exact Hunchanged|].
  assert (Hfin : Forall (fun a => isFinite a = true) (c :: cs)).
  { rewrite <- Ecs. apply Forall_forall. intros a Ha.
    apply in_map_iff in Ha as [t [<- Ht]].
    assert (He : exact_term values t = true).
    { revert t Ht. now apply forallb_forall. }
    unfold exact_term in He. now apply andb_prop in He as [He _]. }
  inversion Hfin as [|? ? Hc Hcs]; subst.
  destruct c as [c0| | |]; try discriminate.
  unfold reduce_gcd.
  destruct (reduce_gcd_finite cs c0 Hcs) as [G ->].
  rewrite gcd_euclid. set (g := euclid_gcd G d).
  destruct (gtb (Fin g) one) eqn:Egt; [|exact Hunchanged].
  apply gtb_one_nonzero in Egt.
  destruct (divided_terms_exact g (terms (simplifyPolynomial p)) Egt Hs)
    as [Hex Hsum].
  unfold evaluateFraction. cbn [numi deno].
  rewrite (evaluatePolynomial_exact_terms values _ Hex).
  rewrite (evaluatePolynomial_exact values p Hm).
  cbn [bind div]. rewrite Hd, Egt, (Qc_is0_div d g Hd Egt).
  rewrite Hsum. fold (polynomialQ values (simplifyPolynomial p)).
  rewrite Hval. do 2 f_equal.
  field. split; now apply Qc_is0_false.
Qed.

Lemma simplifyFraction_polynomial_value p q :
  integer_polynomial values p = true ->
  integer_polynomial values q = true ->
  evaluateFraction
    (simplifyFraction {| numi := p; deno := DenoPolynomial q |}) values =
  evaluateFraction {| numi := p; deno := DenoPolynomial q |} values.
Proof.
  unfold integer_polynomial. intros Hp Hq.
  apply andb_prop in Hp as [Hmp Hip]. apply andb_prop in Hq as [Hmq Hiq].
  unfold simplifyFraction, evaluateFraction. cbn [numi deno].
  rewrite !evaluatePolynomial_exact
    by (try apply simplifyPolynomial_exact; assumption).
  rewrite !simplifyPolynomial_value
    by (apply Forall_forall; now apply forallb_forall).
  reflexivity.
Qed.
End SimplifyFractionValue.

Lemma simplifyFraction_value (f : Fraction)
    (values : JSObject number) :
  integer_fraction values f = true ->
  evaluateFraction (simplifyFraction f) values = evaluateFraction f values.
Proof.
  destruct f as [p [d|q]]; unfold integer_fraction; cbn [numi deno];
    intros H; apply andb_prop in H as [Hp Hd].
  - unfold nonzero_real in Hd. apply andb_prop in Hd as [Hfin Hnz].
    destruct d as [d0| | |]; try discriminate.
    cbn [truthy] in Hnz. apply negb_true_iff in Hnz.
    now apply simplifyFraction_scalar_value.
  - now apply simplifyFraction_polynomial_value.
Qed.

(** X7: In exact arithmetic [simplifyFraction] keeps the value of a
    fraction of integer polynomials, whether the denominator is a real
    scalar other than 0 (reduced by the gcd or not) or an integer
    polynomial.  (On doubles the reduced fraction can differ from the
    original in the last digit.) *)
Theorem simplifyFraction_preserves_value (f : Fraction)
    (values : JSObject number) :
  integer_fraction values f = true ->
  evaluateFraction (simplifyFraction f) values = evaluateFraction f values.
Proof. exact (simplifyFraction_value f values). Qed.

(** [(6x^2 + 9x)/3] and its reduction [2x^2 + 3x] at [x = 2]. *)
Lemma simplifyFraction_preserves_value_witness :
  let values := [("x", ofZ 2)] in
  integer_fraction values six_x2_plus_nine_x_over_3 = true
  /\ evaluateFraction (simplifyFraction six_x2_plus_nine_x_over_3) values =
     evaluateFraction six_x2_plus_nine_x_over_3 values.
Proof.
  intros values. split; [reflexivity|].
  apply (simplifyFraction_preserves_value six_x2_plus_nine_x_over_3 values).
  reflexivity.
Defined.

(** ** Products of terms, once more *)

Lemma existsb_keys_obj_set (o : JSObject Z) k a k' :
  existsb (String.eqb k') (obj_keys (obj_set o k a)) =
  existsb (String.eqb k') (obj_keys o) || String.eqb k' k.
Proof.
  induction o as [|[k0 a0] rest IH]; simpl.
  - now rewrite orb_false_r.
  - destruct (String.eqb k0 k) eqn:E; simpl.
    + apply String.eqb_eq in E. subst k0.
      destruct (String.eqb k' k); simpl; [reflexivity|].
      now rewrite orb_false_r.
    + rewrite IH. now rewrite orb_assoc.
Qed.

Lemma obj_set_distinct (o : JSObject Z) k a :
  distinct_keys (obj_keys o) = true ->
  distinct_keys (obj_keys (obj_set o k a)) = true.
Proof.
  induction o as [|[k0 a0] rest IH]; simpl; intros H; [reflexivity|].
  apply andb_prop in H as [Hk Hrest].
  destruct (String.eqb k0 k) eqn:E; simpl.
  - now rewrite Hk, Hrest.
  - rewrite existsb_keys_obj_set, E, orb_false_r, Hk. simpl. now apply IH.
Qed.

Lemma multiplyTerms_distinct t1 t2 :
  match var (multiplyTerms t1 t2) with
  | Some vars => distinct_keys (obj_keys (A:=Z) vars) = true
  | None => True
  end.
Proof.
  unfold multiplyTerms. cbn [var].
  match goal with
  | |- context [if ?c then Some ?vs else None] =>
      assert (Hvs : distinct_keys (obj_keys (A:=Z) vs) = true);
      [|destruct c; [exact Hvs|exact I]]
  end.
  assert (Hfirst : forall (o acc : JSObject Z),
            distinct_keys (obj_keys acc) = true ->
            distinct_keys
              (obj_keys (fold_left
                           (fun vars e => obj_set vars (fst e) (snd e))
                           o acc)) = true).
  { induction o as [|e rest IH]; simpl; intros acc H; [exact H|].
    apply IH. now apply obj_set_distinct. }
  assert (Hsecond : forall (o acc : JSObject Z),
            distinct_keys (obj_keys acc) = true ->
            distinct_keys
              (obj_keys
                 (fold_left
                    (fun vars e =>
                       obj_set vars (fst e)
                         (or_zero (obj_get vars (fst e)) + snd e))
                    o acc)) = true).
  { induction o as [|e rest IH]; simpl; intros acc H; [exact H|].
    apply IH. now apply obj_set_distinct. }
  destruct (var t1) as [o1|], (var t2) as [o2|]; auto.
Qed.

Section ProductValue.
Variable values : JSObject number.

(** The product of an exact term without a repeated variable and an exact
    term is exact, and its value is the product of the values. *)
Lemma multiplyTerms_value t1 t2 :
  wf_term t1 = true ->
  exact_term values t1 = true -> exact_term values t2 = true ->
  exact_term values (multiplyTerms t1 t2) = true
  /\ termQ values (multiplyTerms t1 t2) =
     (termQ values t1 * termQ values t2)%Qc.
Proof.
  intros Hwf H1 H2.
  assert (Hd1 : distinct_keys
                  (obj_keys match var t1 with
                            | Some vars => vars
                            | None => []
                            end) = true).
  { unfold wf_term in Hwf. apply andb_prop in Hwf as [_ Hwf].
    destruct (var t1); [|reflexivity]. now apply andb_prop in Hwf as [Hd _]. }
  unfold exact_term in H1, H2.
  apply andb_prop in H1 as [Hc1 Hg1]. apply andb_prop in H2 as [Hc2 Hg2].
  destruct (coeff t1) as [c1| | |] eqn:Ec1; try discriminate.
  destruct (coeff t2) as [c2| | |] eqn:Ec2; try discriminate.
  set (o1 := match var t1 with Some vars => vars | None => [] end) in *.
  set (o2 := match var t2 with Some vars => vars | None => [] end).
  assert (Hgo1 : forallb (good_entry values) o1 = true).
  { unfold o1. destruct (var t1); [exact Hg1|reflexivity]. }
  assert (Hgo2 : forallb (good_entry values) o2 = true).
  { unfold o2. destruct (var t2); [exact Hg2|reflexivity]. }
  destruct (first_loop_exact values o1 [] Hd1 (fun _ _ => eq_refl) Hgo1
              eq_refl) as [Hgood1 Hval1].
  set (vars1 := fold_left (fun vars e => obj_set vars (fst e) (snd e))
                  o1 []) in *.
  destruct (second_loop_exact values o2 vars1 Hgo2 Hgood1)
    as [Hgood Hval].
  set (vars := fold_left
                 (fun vars e =>
                    obj_set vars (fst e)
                      (or_zero (obj_get vars (fst e)) + snd e))
                 o2 vars1) in *.
  assert (Hm : multiplyTerms t1 t2 =
               {| coeff := Fin (c1 * c2)%Qc;
                  var := if (0 <? List.length (obj_keys vars))%nat
                         then Some vars else None |}).
  { unfold multiplyTerms. rewrite Ec1, Ec2. cbn [mul].
    unfold vars, vars1, o1, o2.
    destruct (var t1), (var t2); reflexivity. }
  rewrite Hm. unfold exact_term, termQ, coeffQ. cbn [coeff var isFinite].
  rewrite Ec1, Ec2. fold o1 o2.
  assert (Hv : monomialQ values vars =
               (monomialQ values o1 * monomialQ values o2)%Qc).
  { rewrite Hval, Hval1. simpl. ring. }
  destruct (0 <? List.length (obj_keys vars))%nat eqn:E.
  - split; [exact Hgood|]. rewrite Hv. ring.
  - split; [reflexivity|].
    destruct vars as [|e rest]; [|discriminate].
    simpl in Hv. cbn [monomialQ].
    transitivity (c1 * c2 * (monomialQ values o1 * monomialQ values o2))%Qc;
      [rewrite <- Hv|]; ring.
Qed.

Lemma multiplyTerms_integer t1 t2 :
  integer_coeff t1 = true -> integer_coeff t2 = true ->
  integer_coeff (multiplyTerms t1 t2) = true.
Proof.
  unfold integer_coeff, multiplyTerms. cbn [coeff]. intros H1 H2.
  apply is_integer_ofZ in H1 as [a ->]. apply is_integer_ofZ in H2 as [b ->].
  rewrite ofZ_mul. apply ofZ_is_integer.
Qed.

Lemma multiplyTerms_wf t1 t2 :
  exact_term values (multiplyTerms t1 t2) = true ->
  wf_term (multiplyTerms t1 t2) = true.
Proof.
  pose proof (multiplyTerms_distinct t1 t2) as Hd.
  destruct (multiplyTerms t1 t2) as [c o]. cbn [var] in Hd.
  unfold exact_term, wf_term. cbn [coeff var].
  intros H. apply andb_prop in H as [Hc Hg].
  rewrite Hc. cbn [andb].
  destruct o as [vars|]; [|reflexivity].
  rewrite Hd. cbn [andb].
  clear Hd. induction vars as [|e rest IH]; simpl in *; [reflexivity|].
  apply andb_prop in Hg as [He Hrest]. rewrite IH by exact Hrest.
  unfold good_entry in He. apply andb_prop in He as [_ He]. now rewrite He.
Qed.

(** The product of two integer polynomials of the data model is one, and
    its value is the product of the values. *)
Lemma multiplyPolynomials_value p q :
  wf_polynomial p = true ->
  integer_polynomial values p = true -> integer_polynomial values q = true ->
  wf_polynomial (multiplyPolynomials p q) = true
  /\ integer_polynomial values (multiplyPolynomials p q) = true
  /\ polynomialQ values (multiplyPolynomials p q) =
     (polynomialQ values p * polynomialQ values q)%Qc.
Proof.
  unfold wf_polynomial, integer_polynomial, polynomialQ, multiplyPolynomials.
  cbn [terms]. destruct p as [ts1], q as [ts2]. cbn [terms].
  intros Hwf Hp Hq.
  apply andb_prop in Hp as [He1 Hi1]. apply andb_prop in Hq as [He2 Hi2].
  rewrite <- sumQ_products.
  induction ts1 as [|t1 rest IH]; cbn [flat_map map forallb].
  - repeat split; reflexivity.
  - simpl in Hwf, He1, Hi1.
    apply andb_prop in Hwf as [Hw1 Hwf].
    apply andb_prop in He1 as [Hx1 He1].
    apply andb_prop in Hi1 as [Hz1 Hi1].
    destruct (IH Hwf He1 Hi1) as [IHw [IHi IHv]]. clear IH.
    apply andb_prop in IHi as [IHe IHi].
    assert (Hrow :
              forallb wf_term (map (fun t2 => multiplyTerms t1 t2) ts2) = true
              /\ forallb (exact_term values)
                   (map (fun t2 => multiplyTerms t1 t2) ts2) = true
              /\ forallb integer_coeff
                   (map (fun t2 => multiplyTerms t1 t2) ts2) = true
              /\ map (termQ values) (map (fun t2 => multiplyTerms t1 t2) ts2)
                 = map (fun y => termQ values t1 * y)%Qc
                     (map (termQ values) ts2)).
    { clear IHw IHe IHi IHv.
      induction ts2 as [|t2 rest2 IH2]; cbn [map forallb].
      - repeat split; reflexivity.
      - simpl in He2, Hi2.
        apply andb_prop in He2 as [Hx2 He2].
        apply andb_prop in Hi2 as [Hz2 Hi2].
        destruct (IH2 He2 Hi2) as [A [B [C D]]].
        destruct (multiplyTerms_value t1 t2 Hw1 Hx1 Hx2) as [Hex Hval].
        rewrite A, B, C, D, Hex, Hval, multiplyTerms_wf by exact Hex.
        rewrite multiplyTerms_integer by assumption.
        repeat split; reflexivity. }
    destruct Hrow as [A [B [C D]]].
    rewrite !forallb_app, A, B, C, IHw, IHe, IHi.
    split; [reflexivity|]. split; [reflexivity|].
    rewrite map_app, !sumQ_app, D, IHv. reflexivity.
Qed.
End ProductValue.

(** ** The gcd of integer coefficients *)

Lemma euclid_gcd_Z_divide_l a b : (euclid_gcd_Z a b | a).
Proof.
  unfold euclid_gcd_Z. destruct (Z.gcd a b =? 0).
  - apply Z.divide_1_l.
  - apply Z.gcd_divide_l.
Qed.

Lemma euclid_gcd_Z_divide_r a b : (euclid_gcd_Z a b | b).
Proof.
  unfold euclid_gcd_Z. destruct (Z.gcd a b =? 0).
  - apply Z.divide_1_l.
  - apply Z.gcd_divide_r.
Qed.

Lemma euclid_gcd_Z_nonzero a b : euclid_gcd_Z a b <> 0.
Proof.
  unfold euclid_gcd_Z. destruct (Z.gcd a b =? 0) eqn:E; [lia|].
  now apply Z.eqb_neq in E.
Qed.

Lemma integers_of cs :
  Forall (fun a => is_integer a = true) cs -> exists zs, cs = map ofZ zs.
Proof.
  induction 1 as [|a rest Ha _ [zs ->]].
  - now exists [].
  - apply is_integer_ofZ in Ha as [z ->]. now exists (z :: zs).
Qed.

Lemma fold_gcd_integers zs : forall z,
  fold_left gcd (map ofZ zs) (ofZ z) = ofZ (fold_left euclid_gcd_Z zs z).
Proof.
  induction zs as [|a rest IH]; intros z; simpl; [reflexivity|].
  rewrite gcd_integers. apply IH.
Qed.

Lemma fold_gcd_divides zs : forall z,
  (fold_left euclid_gcd_Z zs z | z)
  /\ Forall (fun a => (fold_left euclid_gcd_Z zs z | a)) zs.
Proof.
  induction zs as [|a rest IH]; intros z; simpl.
  - split; [apply Z.divide_refl|constructor].
  - destruct (IH (euclid_gcd_Z z a)) as [H1 H2]. split; [|constructor].
    + eapply Z.divide_trans; [exact H1|apply euclid_gcd_Z_divide_l].
    + eapply Z.divide_trans; [exact H1|apply euclid_gcd_Z_divide_r].
    + exact H2.
Qed.

(** The gcd that [simplifyFraction] takes of integer coefficients and an
    integer denominator is an integer other than 0 that divides all of
    them. *)
Lemma reduce_gcd_integers zs z0 k :
  exists gz,
    gcd (fold_left gcd (map ofZ zs) (ofZ z0)) (ofZ k) = ofZ gz
    /\ gz <> 0 /\ (gz | k) /\ Forall (fun a => (gz | a)) (z0 :: zs).
Proof.
  exists (euclid_gcd_Z (fold_left euclid_gcd_Z zs z0) k).
  rewrite fold_gcd_integers, gcd_integers.
  split; [reflexivity|]. split; [apply euclid_gcd_Z_nonzero|].
  split; [apply euclid_gcd_Z_divide_r|].
  destruct (fold_gcd_divides zs z0) as [H1 H2].
  constructor.
  - eapply Z.divide_trans; [apply euclid_gcd_Z_divide_l|exact H1].
  - eapply Forall_impl; [|exact H2]. intros a Ha.
    eapply Z.divide_trans; [apply euclid_gcd_Z_divide_l|exact Ha].
Qed.

Lemma div_ofZ_divides z gz :
  gz <> 0 -> (gz | z) -> div (ofZ z) (ofZ gz) = ofZ (z / gz).
Proof.
  intros Hg [m ->]. rewrite Z.div_mul by exact Hg.
  rewrite <- ofZ_mul. unfold ofZ. cbn [mul div].
  rewrite ofZ_is0. apply Z.eqb_neq in Hg. rewrite Hg. f_equal.
  field. apply Qc_is0_false. rewrite ofZ_is0. exact Hg.
Qed.

Lemma truthy_ofZ k : truthy (ofZ k) = negb (k =? 0).
Proof. unfold ofZ. cbn [truthy]. now rewrite ofZ_is0. Qed.

(** ** Expansion and the value *)

Section ExpansionValue.
Variable values : JSObject number.

Lemma simplifyPolynomial_wf p :
  wf_polynomial p = true -> wf_polynomial (simplifyPolynomial p) = true.
Proof.
  unfold wf_polynomial. intros H. apply forallb_forall. apply Forall_forall.
  apply (simplifyPolynomial_Forall (fun t => wf_term t = true)).
  - unfold wf_term. cbn [coeff var]. intros t u Ht Hu.
    apply andb_prop in Ht as [Ht1 Ht2]. apply andb_prop in Hu as [Hu1 _].
    now rewrite add_finite, Ht2.
  - unfold wf_term, deepClone. cbn [coeff var]. intros u Hu.
    apply andb_prop in Hu as [_ Hu2].
    now rewrite jsonNumber_isFinite, Hu2.
  - apply Forall_forall. now apply forallb_forall.
Qed.

Lemma simplifyPolynomial_integer p :
  forallb integer_coeff (terms p) = true ->
  forallb integer_coeff (terms (simplifyPolynomial p)) = true.
Proof.
  intros H. apply forallb_forall. apply Forall_forall.
  apply (simplifyPolynomial_Forall (fun t => integer_coeff t = true)).
  - unfold integer_coeff. cbn [coeff]. intros t u Ht Hu.
    apply is_integer_ofZ in Ht as [a ->].
    apply is_integer_ofZ in Hu as [b ->].
    rewrite ofZ_add. apply ofZ_is_integer.
  - unfold integer_coeff, deepClone. cbn [coeff]. intros u Hu.
    rewrite jsonNumber_finite; [exact Hu|]. now destruct (coeff u).
  - apply Forall_forall. now apply forallb_forall.
Qed.

Lemma simplifyPolynomial_integer_polynomial p :
  integer_polynomial values p = true ->
  integer_polynomial values (simplifyPolynomial p) = true.
Proof.
  unfold integer_polynomial. intros H. apply andb_prop in H as [He Hi].
  now rewrite simplifyPolynomial_exact, simplifyPolynomial_integer.
Qed.

(** Terms whose integer coefficients are all multiples of [gz], divided
    by [gz]. *)
Lemma divided_terms_class gz ts zs :
  gz <> 0 -> map coeff ts = map ofZ zs -> Forall (fun a => (gz | a)) zs ->
  forallb wf_term ts = true -> forallb (exact_term values) ts = true ->
  let ts' := map (fun t => {| coeff := div (coeff t) (ofZ gz);
                              var := var (deepClone t) |}) ts in
  forallb wf_term ts' = true
  /\ forallb (exact_term values) ts' = true
  /\ forallb integer_coeff ts' = true.
Proof.
  intros Hg. revert zs.
  induction ts as [|t rest IH]; intros zs Hcs Hdiv Hwf Hex; cbn [map forallb].
  - repeat split; reflexivity.
  - destruct zs as [|z zs']; [discriminate|].
    cbn [map] in Hcs. injection Hcs as Hc Hrest.
    pose proof (Forall_inv Hdiv) as Hz.
    pose proof (Forall_inv_tail Hdiv) as Hzs.
    cbn [forallb] in Hwf, Hex.
    apply andb_prop in Hwf as [Hw Hwf]. apply andb_prop in Hex as [Hx Hex].
    destruct (IH zs' Hrest Hzs Hwf Hex) as [A [B C]].
    rewrite A, B, C, !andb_true_r.
    unfold wf_term, exact_term, integer_coeff in *.
    cbn [coeff var deepClone]. rewrite Hc in *.
    rewrite div_ofZ_divides by assumption.
    rewrite ofZ_is_integer. cbn [isFinite ofZ andb] in *.
    repeat split; assumption.
Qed.

Lemma integer_deno k :
  is_integer (ofZ k) && truthy (ofZ k) = true <-> k <> 0.
Proof.
  rewrite ofZ_is_integer, truthy_ofZ. cbn [andb].
  rewrite negb_true_iff. apply Z.eqb_neq.
Qed.

(** [simplifyFraction] keeps a fraction of integers a fraction of
    integers. *)
Lemma simplifyFraction_class f :
  integer_scalar_fraction values f = true ->
  integer_scalar_fraction values (simplifyFraction f) = true.
Proof.
  destruct f as [p [d|q]]; unfold integer_scalar_fraction; cbn [numi deno];
    [|now rewrite andb_false_r].
  intros H. apply andb_prop in H as [H Hd]. apply andb_prop in H as [Hwf Hip].
  assert (Hd' := Hd). apply andb_prop in Hd' as [Hdi _].
  apply is_integer_ofZ in Hdi as [k ->].
  assert (Hunchanged :
            wf_polynomial (simplifyPolynomial p)
            && integer_polynomial values (simplifyPolynomial p)
            && (is_integer (ofZ k) && truthy (ofZ k)) = true).
  { now rewrite simplifyPolynomial_wf, simplifyPolynomial_integer_polynomial,
      Hd. }
  unfold simplifyFraction. cbn [numi deno].
  destruct (map coeff (terms (simplifyPolynomial p))) as [|c cs] eqn:Ecs;
    [exact Hunchanged|].
  pose proof (simplifyPolynomial_integer_polynomial p Hip) as His.
  unfold integer_polynomial in His. apply andb_prop in His as [Hes Hints].
  assert (Hall : Forall (fun a => is_integer a = true) (c :: cs)).
  { rewrite <- Ecs. apply Forall_forall. intros a Ha.
    apply in_map_iff in Ha as [t [<- Ht]].
    revert t Ht. apply forallb_forall. exact Hints. }
  destruct (integers_of _ Hall) as [zs0 Hzs0].
  destruct zs0 as [|z0 zs]; [discriminate|].
  cbn [map] in Hzs0. injection Hzs0 as -> ->.
  unfold reduce_gcd.
  destruct (reduce_gcd_integers zs z0 k) as [gz [-> [Hgz [Hgk Hgall]]]].
  destruct (gtb (ofZ gz) one); [|exact Hunchanged].
  cbn [numi deno].
  destruct (divided_terms_class gz (terms (simplifyPolynomial p)) (z0 :: zs)
              Hgz Ecs Hgall (simplifyPolynomial_wf p Hwf) Hes)
    as [A [B C]].
  unfold wf_polynomial, integer_polynomial. cbn [terms].
  rewrite A, B, C. cbn [andb].
  rewrite div_ofZ_divides by assumption.
  apply integer_deno. apply integer_deno in Hd.
  destruct Hgk as [m ->]. rewrite Z.div_mul by exact Hgz.
  intros ->. now apply Hd.
Qed.

Lemma evaluateFraction_class f :
  integer_scalar_fraction values f = true ->
  evaluateFraction f values = Ok (Fin (fractionQ values f)).
Proof.
  destruct f as [p [d|q]]; unfold integer_scalar_fraction; cbn [numi deno];
    [|now rewrite andb_false_r].
  intros H. apply andb_prop in H as [H Hd]. apply andb_prop in H as [_ Hip].
  unfold integer_polynomial in Hip. apply andb_prop in Hip as [He _].
  unfold evaluateFraction, fractionQ. cbn [numi deno].
  rewrite evaluatePolynomial_exact by exact He. cbn [bind].
  apply andb_prop in Hd as [Hdi Hdt].
  destruct d as [d0| | |]; try discriminate.
  cbn [truthy] in Hdt. apply negb_true_iff in Hdt.
  cbn [div]. now rewrite Hdt.
Qed.

Lemma simplifyFraction_fractionQ f :
  integer_scalar_fraction values f = true ->
  fractionQ values (simplifyFraction f) = fractionQ values f.
Proof.
  intros H.
  pose proof (evaluateFraction_class _ (simplifyFraction_class f H)) as H1.
  pose proof (evaluateFraction_class f H) as H2.
  assert (Hf : integer_fraction values f = true).
  { unfold integer_scalar_fraction in H. unfold integer_fraction.
    apply andb_prop in H as [H Hd]. apply andb_prop in H as [_ Hip].
    rewrite Hip. destruct (deno f) as [d|q]; [|discriminate].
    unfold nonzero_real. apply andb_prop in Hd as [Hdi Hdt].
    rewrite Hdt, andb_true_r. now destruct d. }
  rewrite (simplifyFraction_value f values Hf), H2 in H1.
  now injection H1.
Qed.

(** The expansion of two fractions of integers is a fraction of integers
    whose value is the product of their values. *)
Lemma expandFractions_class f1 f2 :
  integer_scalar_fraction values f1 = true ->
  integer_scalar_fraction values f2 = true ->
  exists r, expandFractions f1 f2 = Ok r
    /\ integer_scalar_fraction values r = true
    /\ fractionQ values r = (fractionQ values f1 * fractionQ values f2)%Qc.
Proof.
  intros H1 H2. unfold expandFractions.
  destruct f1 as [p1 [d1|q1]], f2 as [p2 [d2|q2]];
    unfold integer_scalar_fraction in H1, H2; cbn [numi deno] in *;
    try (rewrite andb_false_r in H1; discriminate);
    try (rewrite andb_false_r in H2; discriminate).
  apply andb_prop in H1 as [H1 Hd1]. apply andb_prop in H1 as [Hw1 Hi1].
  apply andb_prop in H2 as [H2 Hd2]. apply andb_prop in H2 as [Hw2 Hi2].
  assert (Hk1 := Hd1). apply andb_prop in Hk1 as [Hk1 _].
  apply is_integer_ofZ in Hk1 as [k1 ->].
  assert (Hk2 := Hd2). apply andb_prop in Hk2 as [Hk2 _].
  apply is_integer_ofZ in Hk2 as [k2 ->].
  apply integer_deno in Hd1, Hd2.
  destruct (multiplyPolynomials_value values p1 p2 Hw1 Hi1 Hi2)
    as [HwP [HiP HvP]].
  set (F := {| numi := multiplyPolynomials p1 p2;
               deno := DenoNumber (mul (ofZ k1) (ofZ k2)) |}).
  assert (HF : integer_scalar_fraction values F = true).
  { unfold integer_scalar_fraction, F. cbn [numi deno].
    rewrite HwP, HiP, ofZ_mul. apply integer_deno. lia. }
  exists (simplifyFraction F). split; [reflexivity|].
  split; [now apply simplifyFraction_class|].
  rewrite simplifyFraction_fractionQ by exact HF.
  unfold fractionQ, F. cbn [numi deno]. unfold ofZ. cbn [mul].
  rewrite HvP. field.
  split; apply Qc_is0_false; rewrite ofZ_is0; now apply Z.eqb_neq.
Qed.

Lemma expandProduct_loop_class rest : forall result,
  integer_scalar_fraction values result = true ->
  forallb (integer_scalar_fraction values) rest = true ->
  exists r, expandProduct_loop rest result = Ok r
    /\ integer_scalar_fraction values r = true
    /\ fractionQ values r =
       (fractionQ values result * productQ values rest)%Qc.
Proof.
  induction rest as [|f rest' IH]; intros result Hr Hrest;
    cbn [expandProduct_loop productQ fold_right].
  - exists result. split; [reflexivity|]. split; [exact Hr|ring].
  - simpl in Hrest. apply andb_prop in Hrest as [Hf Hrest].
    destruct (expandFractions_class result f Hr Hf) as [r' [-> [Hc Hq]]].
    cbn [bind].
    destruct (IH r' Hc Hrest) as [r [Hl [Hc' Hq']]].
    exists r. split; [exact Hl|]. split; [exact Hc'|].
    fold (productQ values rest'). rewrite Hq', Hq. ring.
Qed.

Lemma evaluateProduct_loop_class product : forall acc : Qc,
  forallb (integer_scalar_fraction values) product = true ->
  evaluateProduct_loop product values (Fin acc) =
  Ok (Fin (acc * productQ values product)%Qc).
Proof.
  induction product as [|f rest IH]; intros acc H; simpl.
  - now rewrite Qcmult_1_r.
  - apply andb_prop in H as [Hf Hrest].
    rewrite (evaluateFraction_class f Hf). cbn [bind mul].
    rewrite IH by exact Hrest. do 2 f_equal. ring.
Qed.
End ExpansionValue.

(** X9: In exact arithmetic [expandProduct] multiplies out a product
    without changing its value: for factors with integer polynomial
    numerators and integer denominators other than 0, and a binding with a
    real value for each variable, it returns a single fraction that
    evaluates to what [evaluateProduct] gives for the product (1 for the
    empty product).  The variables are not named after members of
    [Object.prototype]. *)
Theorem expandProduct_preserves_value (product : list Fraction)
    (values : JSObject number) :
  forallb (fun f => plain_names (numi f)) product = true ->
  forallb (integer_scalar_fraction values) product = true ->
  exists r, expandProduct product = Ok r
    /\ evaluateFraction r values = evaluateProduct product values.
Proof.
  intros _ H. destruct product as [|first rest].
  - eexists. split; [reflexivity|]. unfold evaluateProduct. cbn.
    apply f_equal. same_by_computation.
  - simpl in H. apply andb_prop in H as [Hf Hrest].
    destruct (expandProduct_loop_class values rest first Hf Hrest)
      as [r [Hl [Hc Hq]]].
    exists r. split; [exact Hl|].
    rewrite (evaluateFraction_class values r Hc), Hq.
    unfold evaluateProduct, one, ofZ.
    rewrite (evaluateProduct_loop_class values (first :: rest)).
    + simpl. do 2 f_equal.
      replace (Q2Qc (inject_Z 1)) with (Q2Qc 1) by reflexivity. ring.
    + simpl. now rewrite Hf, Hrest.
Qed.

(** [(x + 1)(x - 1)(x/2)] at [x = 3]. *)
Lemma expandProduct_preserves_value_witness :
  let product := [x_plus_1; x_minus_1; x_over_2] in
  let values := [("x", ofZ 3)] in
  (forallb (fun f => plain_names (numi f)) product = true
   /\ forallb (integer_scalar_fraction values) product = true)
  /\ exists r, expandProduct product = Ok r
       /\ evaluateFraction r values = evaluateProduct product values.
Proof.
  intros product values. split; [split; reflexivity|].
  apply (expandProduct_preserves_value product values); reflexivity.
Defined.

(** ** Differentiation undoes integration *)

Lemma obj_delete_set_new {A} (o : JSObject A) k a :
  obj_get o k = None -> obj_delete (obj_set o k a) k = o.
Proof.
  induction o as [|[k' a'] rest IH]; simpl; intros H.
  - now rewrite String.eqb_refl.
  - destruct (String.eqb k' k) eqn:E; [discriminate|]. simpl.
    rewrite E. now rewrite IH.
Qed.

Lemma obj_set_set {A} (o : JSObject A) k a n :
  obj_get o k = Some n -> obj_set (obj_set o k a) k n = o.
Proof.
  induction o as [|[k' a'] rest IH]; simpl; intros H; [discriminate|].
  destruct (String.eqb k' k) eqn:E; simpl; rewrite E.
  - now inversion H.
  - now rewrite IH.
Qed.

Lemma obj_set_nonempty {A} (o : JSObject A) k a :
  (List.length (obj_keys (obj_set o k a)) =? 0)%nat = false.
Proof.
  destruct o as [|[k' a'] rest]; simpl; [reflexivity|].
  now destruct (String.eqb k' k).
Qed.

Lemma divided_then_multiplied (c : Qc) m :
  m <> 0 -> mul (jsonNumber (div (Fin c) (ofZ m))) (ofZ m) = Fin c.
Proof.
  intros Hm. unfold ofZ. cbn [div]. rewrite ofZ_is0.
  apply Z.eqb_neq in Hm. rewrite Hm. cbn [jsonNumber isFinite mul]. f_equal.
  field. apply Qc_is0_false. now rewrite ofZ_is0.
Qed.

Lemma integrateTerm_undone (t : Term) (v : string) :
  invertible_term v t = true ->
  exists t', integrateTerm t v = Ok t' /\ differentiateTerm t' v = t.
Proof.
  unfold invertible_term, finite_coeff, proper_var, var_get.
  destruct t as [c o]. cbn [coeff var]. intros H.
  apply andb_prop in H as [H Hv]. apply andb_prop in H as [Hc Hp].
  destruct c as [c0| | |]; try discriminate.
  unfold integrateTerm, var_get. cbn [deepClone coeff var jsonNumber isFinite].
  destruct o as [vars|].
  - destruct (obj_get vars v) as [n|] eqn:Hg.
    + apply andb_prop in Hv as [H0 H1].
      apply negb_true_iff in H0, H1. rewrite H1.
      apply Z.eqb_neq in H0, H1.
      eexists. split; [reflexivity|].
      unfold differentiateTerm. cbn [deepClone coeff var].
      rewrite obj_get_set_same.
      assert (E : (n + 1 =? 1) = false) by (apply Z.eqb_neq; lia).
      rewrite E, divided_then_multiplied by lia.
      replace (n + 1 - 1) with n by lia. now rewrite obj_set_set.
    + eexists. split; [reflexivity|].
      unfold differentiateTerm. cbn [deepClone coeff var].
      rewrite obj_get_set_same. cbn [Z.add Z.eqb Pos.eqb].
      rewrite divided_then_multiplied by lia.
      rewrite obj_delete_set_new by exact Hg.
      destruct vars as [|e rest]; [discriminate|]. reflexivity.
  - eexists. split; [reflexivity|].
    unfold differentiateTerm. cbn [deepClone coeff var].
    rewrite obj_get_set_same. cbn [Z.add Z.eqb Pos.eqb].
    rewrite divided_then_multiplied by lia.
    rewrite obj_delete_set_new by reflexivity. reflexivity.
Qed.

(** X10: The power rule undone, in exact arithmetic: differentiating the
    integral of a term gives the term back.  The exponents come back as
    they were; the coefficient comes back as [(c / (n+1)) * (n+1)], which
    is [c] in exact arithmetic (on doubles it can differ from [c] in the
    last digit).  The variable is not named after a member of
    [Object.prototype]. *)
Theorem differentiateTerm_integrateTerm (t : Term) (v : string) :
  plain_name v = true -> invertible_term v t = true ->
  exists t', integrateTerm t v = Ok t' /\ differentiateTerm t' v = t.
Proof. intros _. exact (integrateTerm_undone t v). Qed.

(** [3x^2 y] integrated and differentiated in [x]. *)
Lemma differentiateTerm_integrateTerm_witness :
  let t := createTerm (ofZ 3) [("x", 2); ("y", 1)] in
  (plain_name "x" = true /\ invertible_term "x" t = true)
  /\ exists t', integrateTerm t "x" = Ok t' /\ differentiateTerm t' "x" = t.
Proof.
  intros t. split; [split; reflexivity|].
  apply (differentiateTerm_integrateTerm t "x"); reflexivity.
Defined.

Lemma differentiatePolynomial_integrateTerms v ts :
  forallb (fun t => invertible_term v t
                    && negb (Num.eqb (coeff t) zero)) ts = true ->
  exists ts', map_terms (fun term => integrateTerm term v) ts = Ok ts'
    /\ terms (differentiatePolynomial {| terms := ts' |} v) = ts.
Proof.
  induction ts as [|t rest IH]; simpl; intros H.
  - now exists [].
  - apply andb_prop in H as [Ht Hrest]. apply andb_prop in Ht as [Hi Hnz].
    destruct (integrateTerm_undone t v Hi) as [t' [-> Hd]].
    destruct (IH Hrest) as [ts' [-> Hds]]. cbn [bind].
    exists (t' :: ts'). split; [reflexivity|].
    unfold differentiatePolynomial in *. cbn [terms map filter] in *.
    rewrite Hd, Hnz, Hds. reflexivity.
Qed.

(** X11: In exact arithmetic, differentiating the integral of a polynomial
    gives the polynomial back, term by term, when no coefficient is 0 and
    every term can be integrated and recovered.  The variable is not named
    after a member of [Object.prototype]. *)
Theorem differentiatePolynomial_integratePolynomial (p : Polynomial)
    (v : string) :
  plain_name v = true ->
  forallb (fun t => invertible_term v t
                    && negb (Num.eqb (coeff t) zero)) (terms p) = true ->
  exists P, integratePolynomial p v = Ok P
    /\ differentiatePolynomial P v = p.
Proof.
  intros _ H. unfold integratePolynomial.
  destruct (differentiatePolynomial_integrateTerms v (terms p) H)
    as [ts' [-> Hd]].
  cbn [bind]. eexists. split; [reflexivity|].
  destruct p as [ts]. cbn [terms] in Hd.
  unfold differentiatePolynomial in *. cbn [terms] in *. now rewrite Hd.
Qed.

(** [3x^2 + 2x + 5], integrated and differentiated in [x]. *)
Lemma differentiatePolynomial_integratePolynomial_witness :
  let p := poly [createTerm (ofZ 3) (x_to 2); createTerm (ofZ 2) (x_to 1);
                 term_const 5] in
  (plain_name "x" = true
   /\ forallb (fun t => invertible_term "x" t
                       && negb (Num.eqb (coeff t) zero)) (terms p) = true)
  /\ exists P, integratePolynomial p "x" = Ok P
       /\ differentiatePolynomial P "x" = p.
Proof.
  intros p. split; [split; reflexivity|].
  apply (differentiatePolynomial_integratePolynomial p "x"); reflexivity.
Defined.

(** ** When symbolic integration fails *)

Lemma integrateTerms_outcome v ts :
  if existsb (fun t => exponent_of t v =? -1) ts
  then map_terms (fun term => integrateTerm term v) ts
       = Throw LogarithmicIntegral
  else exists ts', map_terms (fun term => integrateTerm term v) ts = Ok ts'
         /\ List.length ts' = List.length ts.
Proof.
  induction ts as [|t rest IH]; cbn [existsb map_terms].
  - now exists [].
  - unfold integrateTerm at 1 3.
    change (match var_get (deepClone t) v with
            | Some p => p
            | None => 0
            end) with (exponent_of t v).
    destruct (exponent_of t v =? -1); cbn [orb bind]; [reflexivity|].
    destruct (existsb (fun t0 => exponent_of t0 v =? -1) rest).
    + now rewrite IH.
    + destruct IH as [ts' [-> Hlen]]. cbn [bind].
      eexists. split; [reflexivity|]. simpl. now rewrite Hlen.
Qed.

(** X12: Symbolic integration of a fraction: over a polynomial denominator it
    always fails with [UnsupportedIntegral], whatever the numerator (the
    substitution case is never taken); over a scalar denominator it fails
    with [LogarithmicIntegral] exactly when some term has exponent -1 in
    the variable, and otherwise returns as many terms over the same
    denominator. *)
Theorem integrateFraction_outcome
    (bySubstitution : Fraction -> string -> Result Fraction)
    (f : Fraction) (v : string) :
  match deno f with
  | DenoPolynomial _ =>
      integrateFraction bySubstitution f v = Throw UnsupportedIntegral
  | DenoNumber d =>
      if existsb (fun t => exponent_of t v =? -1) (terms (numi f))
      then integrateFraction bySubstitution f v = Throw LogarithmicIntegral
      else exists p,
             integrateFraction bySubstitution f v
             = Ok {| numi := p; deno := DenoNumber d |}
             /\ List.length (terms p) = List.length (terms (numi f))
  end.
Proof.
  unfold integrateFraction, isSimpleSubstitutionCase.
  destruct (deno f) as [d|q].
  - unfold integratePolynomial.
    pose proof (integrateTerms_outcome v (terms (numi f))) as H.
    destruct (existsb (fun t => exponent_of t v =? -1) (terms (numi f))).
    + now rewrite H.
    + destruct H as [ts' [-> Hlen]]. cbn [bind].
      eexists. split; [reflexivity|]. exact Hlen.
  - now destruct (negb _).
Qed.

(** ** The definite integral *)

Lemma obj_delete_set {A} (o : JSObject A) k a :
  obj_delete (obj_set o k a) k = obj_delete o k.
Proof.
  induction o as [|[k' a'] rest IH]; simpl.
  - now rewrite String.eqb_refl.
  - destruct (String.eqb k' k) eqn:E; simpl; rewrite E; [reflexivity|].
    now rewrite IH.
Qed.

Lemma obj_delete_absent (o : JSObject Z) k :
  distinct_keys (obj_keys o) = true ->
  existsb (String.eqb k) (obj_keys (obj_delete o k)) = false.
Proof.
  induction o as [|[k' a'] rest IH]; simpl; intros H; [reflexivity|].
  apply andb_prop in H as [Hk Hrest]. apply negb_true_iff in Hk.
  destruct (String.eqb k' k) eqn:E.
  - apply String.eqb_eq in E. now subst k'.
  - simpl. rewrite String.eqb_sym, E. simpl. now apply IH.
Qed.

Lemma obj_get_absent (o : JSObject Z) k :
  existsb (String.eqb k) (obj_keys o) = false -> obj_get o k = None.
Proof.
  induction o as [|[k' a'] rest IH]; simpl; intros H; [reflexivity|].
  apply orb_false_iff in H as [H1 H2].
  rewrite String.eqb_sym, H1. now apply IH.
Qed.

Section Definite.
Variable values : JSObject number.
Variable v : string.

Lemma valueQ_at_point_same x : valueQ (at_point values v x) v = x.
Proof. unfold valueQ, at_point. now rewrite obj_get_set_same. Qed.

Lemma valueQ_at_point_other x k :
  k <> v -> valueQ (at_point values v x) k = valueQ values k.
Proof.
  intros H. unfold valueQ, at_point. now rewrite obj_get_set_other.
Qed.

Lemma binds_at_point x k :
  binds (at_point values v x) k = String.eqb k v || binds values k.
Proof.
  unfold binds, at_point. destruct (String.eqb k v) eqn:E.
  - apply String.eqb_eq in E. subst k. now rewrite obj_get_set_same.
  - apply String.eqb_neq in E. now rewrite obj_get_set_other.
Qed.

(** The part of a monomial that does not depend on [v]. *)
Lemma monomialQ_split x (o : JSObject Z) m :
  monomialQ (at_point values v x) (obj_set o v m) =
  (x ^ Z.to_nat m * monomialQ (at_point values v x) (obj_delete o v))%Qc.
Proof.
  induction o as [|[k a] rest IH]; simpl.
  - now rewrite valueQ_at_point_same.
  - destruct (String.eqb k v) eqn:E; simpl.
    + apply String.eqb_eq in E. subst k. now rewrite valueQ_at_point_same.
    + rewrite IH. ring.
Qed.

Lemma monomialQ_without x (o : JSObject Z) :
  existsb (String.eqb v) (obj_keys o) = false ->
  monomialQ (at_point values v x) o = monomialQ values o.
Proof.
  induction o as [|[k a] rest IH]; simpl; intros H; [reflexivity|].
  apply orb_false_iff in H as [H1 H2].
  rewrite IH by exact H2. rewrite valueQ_at_point_other; [reflexivity|].
  intros ->. now rewrite String.eqb_refl in H1.
Qed.

Lemma good_at_point x (o : JSObject Z) :
  forallb (fun e => String.eqb (fst e) v || binds values (fst e)) o = true ->
  forallb (fun e : string * Z => 0 <=? snd e) o = true ->
  forallb (good_entry (at_point values v x)) o = true.
Proof.
  induction o as [|e rest IH]; simpl; intros Hb Hn; [reflexivity|].
  apply andb_prop in Hb as [Hb1 Hb2]. apply andb_prop in Hn as [Hn1 Hn2].
  unfold good_entry at 1. now rewrite binds_at_point, Hb1, Hn1, IH.
Qed.

Lemma good_without (o : JSObject Z) :
  distinct_keys (obj_keys o) = true ->
  forallb (fun e => String.eqb (fst e) v || binds values (fst e)) o = true ->
  forallb (fun e : string * Z => 0 <=? snd e) o = true ->
  forallb (good_entry values) (obj_delete o v) = true.
Proof.
  induction o as [|[k a] rest IH]; simpl; intros Hd Hb Hn; [reflexivity|].
  apply andb_prop in Hd as [Hk Hd]. apply negb_true_iff in Hk.
  apply andb_prop in Hb as [Hb1 Hb2]. apply andb_prop in Hn as [Hn1 Hn2].
  destruct (String.eqb k v) eqn:E.
  - apply String.eqb_eq in E. subst k. clear IH Hb1.
    induction rest as [|[k' a'] rest' IH']; simpl in *; [reflexivity|].
    apply orb_false_iff in Hk as [Hk1 Hk2].
    apply andb_prop in Hd as [_ Hd].
    apply andb_prop in Hb2 as [Hb' Hb2]. apply andb_prop in Hn2 as [Hn' Hn2].
    rewrite IH' by assumption. unfold good_entry. simpl.
    rewrite String.eqb_sym, Hk1 in Hb'. simpl in Hb'.
    now rewrite Hb', Hn'.
  - simpl. rewrite IH by assumption. unfold good_entry. simpl.
    simpl in Hb1. now rewrite Hb1, Hn1.
Qed.

Lemma pow_real (x : Qc) m : 0 < m -> pow (Fin x) m = Fin (x ^ Z.to_nat m)%Qc.
Proof.
  intros Hm. unfold pow.
  assert (E0 : (m =? 0) = false) by (apply Z.eqb_neq; lia).
  assert (E1 : (0 <? m) = true) by (apply Z.ltb_lt; lia).
  now rewrite E0, E1.
Qed.

Lemma exponent_nonneg (o : JSObject Z) k n :
  forallb (fun e : string * Z => 0 <=? snd e) o = true ->
  obj_get o k = Some n -> 0 <= n.
Proof.
  induction o as [|[k' a'] rest IH]; simpl; intros H Hg; [discriminate|].
  apply andb_prop in H as [H1 H2].
  destruct (String.eqb k' k); [|auto].
  inversion Hg; subst. now apply Z.leb_le.
Qed.

(** The definite integral of a term is the integral at the upper bound
    minus the integral at the lower bound, and no longer has the
    variable. *)
Lemma definiteIntegrateTerm_difference t (a b : Qc) :
  wf_term t = true -> binds_except values v t = true ->
  exists t' r,
    integrateTerm t v = Ok t'
    /\ definiteIntegrateTerm t (Fin a) (Fin b) v = Ok r
    /\ var_get r v = None
    /\ exact_term (at_point values v b) t' = true
    /\ exact_term (at_point values v a) t' = true
    /\ exact_term values r = true
    /\ termQ values r =
       (termQ (at_point values v b) t' - termQ (at_point values v a) t')%Qc.
Proof.
  unfold wf_term, binds_except. destruct t as [c o]. cbn [coeff var].
  intros Hwf Hb. apply andb_prop in Hwf as [Hc Hwf].
  destruct c as [c0| | |]; try discriminate.
  set (vars := match o with Some vars => vars | None => [] end).
  assert (Hd : distinct_keys (obj_keys vars) = true).
  { unfold vars. destruct o; [|reflexivity].
    now apply andb_prop in Hwf as [Hd _]. }
  assert (Hn : forallb (fun e : string * Z => 0 <=? snd e) vars = true).
  { unfold vars. destruct o; [|reflexivity].
    now apply andb_prop in Hwf as [_ Hn]. }
  assert (Hbv : forallb (fun e => String.eqb (fst e) v
                                  || binds values (fst e)) vars = true).
  { unfold vars. destruct o; [exact Hb|reflexivity]. }
  set (n := match obj_get vars v with Some p => p | None => 0 end).
  assert (Hn0 : 0 <= n).
  { unfold n. destruct (obj_get vars v) eqn:Hg; [|lia].
    now apply (exponent_nonneg vars v). }
  assert (Hint : integrateTerm {| coeff := Fin c0; var := o |} v =
                 Ok {| coeff := Fin (c0 / Q2Qc (inject_Z (n + 1)))%Qc;
                       var := Some (obj_set vars v (n + 1)) |}).
  { unfold integrateTerm, var_get.
    cbn [deepClone coeff var jsonNumber isFinite].
    assert (En : match match o with
                       | Some vars0 => obj_get vars0 v
                       | None => None
                       end with
                 | Some p => p
                 | None => 0
                 end = n).
    { unfold n, vars. now destruct o. }
    rewrite En.
    assert (E1 : (n =? -1) = false) by (apply Z.eqb_neq; lia).
    rewrite E1. unfold ofZ. cbn [div]. rewrite ofZ_is0.
    assert (E2 : (n + 1 =? 0) = false) by (apply Z.eqb_neq; lia).
    now rewrite E2. }
  set (m := Z.to_nat (n + 1)).
  set (rest := obj_delete vars v).
  assert (Hdef : definiteIntegrateTerm {| coeff := Fin c0; var := o |}
                   (Fin a) (Fin b) v =
                 Ok {| coeff := Fin (c0 / Q2Qc (inject_Z (n + 1))
                                     * (b ^ m + - a ^ m))%Qc;
                       var := if (List.length (obj_keys rest) =? 0)%nat
                              then None else Some rest |}).
  { unfold definiteIntegrateTerm. rewrite Hint. cbn [bind].
    unfold var_get. cbn [var deepClone coeff jsonNumber isFinite].
    rewrite obj_get_set_same, !pow_real by lia.
    now rewrite obj_delete_set. }
  eexists. eexists. split; [exact Hint|]. split; [exact Hdef|].
  assert (Hrest : existsb (String.eqb v) (obj_keys rest) = false)
    by now apply obj_delete_absent.
  assert (Hgrest : forallb (good_entry values) rest = true)
    by now apply good_without.
  assert (Hgood : forall x,
            forallb (good_entry (at_point values v x)) (obj_set vars v (n + 1))
            = true).
  { intros x. apply forallb_obj_set; [now apply good_at_point|].
    unfold good_entry. simpl. rewrite binds_at_point, String.eqb_refl.
    simpl. apply Z.leb_le. lia. }
  assert (Hval : forall x,
            monomialQ (at_point values v x) (obj_set vars v (n + 1)) =
            (x ^ m * monomialQ values rest)%Qc).
  { intros x. rewrite monomialQ_split. fold m rest.
    now rewrite monomialQ_without. }
  unfold var_get, exact_term, termQ, coeffQ. cbn [coeff var isFinite andb].
  rewrite !Hgood, !Hval.
  destruct (List.length (obj_keys rest) =? 0)%nat eqn:E.
  - split; [reflexivity|]. split; [reflexivity|]. split; [reflexivity|].
    split; [reflexivity|].
    destruct rest as [|e rest']; [|discriminate]. simpl. ring.
  - split; [now apply obj_get_absent|].
    split; [reflexivity|]. split; [reflexivity|].
    split; [exact Hgrest|]. ring.
Qed.
End Definite.

Section DefiniteSums.
Variable values : JSObject number.
Variable v : string.
Variables a b : Qc.

Lemma definiteIntegrateTerms_difference ts :
  forallb (fun t => wf_term t && binds_except values v t) ts = true ->
  exists ts' rs,
    map_terms (fun term => integrateTerm term v) ts = Ok ts'
    /\ map_terms (fun term => definiteIntegrateTerm term (Fin a) (Fin b) v)
         ts = Ok rs
    /\ Forall (fun r => var_get r v = None) rs
    /\ forallb (exact_term (at_point values v b)) ts' = true
    /\ forallb (exact_term (at_point values v a)) ts' = true
    /\ forallb (exact_term values) rs = true
    /\ sumQ (map (termQ values) rs) =
       (sumQ (map (termQ (at_point values v b)) ts')
        - sumQ (map (termQ (at_point values v a)) ts'))%Qc.
Proof.
  induction ts as [|t rest IH]; cbn [forallb map_terms]; intros H.
  - exists [], []. repeat split; try reflexivity; try constructor;
      try (simpl; ring).
  - apply andb_prop in H as [Ht Hrest]. apply andb_prop in Ht as [Hwf Hb].
    destruct (definiteIntegrateTerm_difference values v t a b Hwf Hb)
      as [t' [r [-> [-> [Hv [Hb' [Ha' [Hr Hq]]]]]]]].
    destruct (IH Hrest) as [ts' [rs [-> [-> [Hvs [Hbs [Has [Hrs Hqs]]]]]]]].
    cbn [bind]. exists (t' :: ts'), (r :: rs).
    split; [reflexivity|]. split; [reflexivity|].
    split; [now constructor|].
    cbn [forallb map sumQ fold_right].
    rewrite Hb', Ha', Hr, Hbs, Has, Hrs.
    split; [reflexivity|]. split; [reflexivity|]. split; [reflexivity|].
    fold (sumQ (map (termQ values) rs)).
    fold (sumQ (map (termQ (at_point values v b)) ts')).
    fold (sumQ (map (termQ (at_point values v a)) ts')).
    rewrite Hq, Hqs. ring.
Qed.
End DefiniteSums.

(** X13: In exact arithmetic (no rounding, no overflow of the powers) the
    definite integral of a polynomial over a real scalar other than 0,
    between real bounds, is the symbolic integral evaluated at the upper
    bound minus the symbolic integral evaluated at the lower bound; the
    result no longer has the integration variable, which need not be
    bound and is not named after a member of [Object.prototype]. *)
Theorem definiteIntegrateFraction_difference
    (bySubstitution : Fraction -> string -> Result Fraction)
    (p : Polynomial) (d : number) (a b : Qc) (v : string)
    (values : JSObject number) :
  plain_name v = true ->
  integrand values v p = true -> nonzero_real d = true ->
  let f := {| numi := p; deno := DenoNumber d |} in
  exists F r (A B : Qc),
    integrateFraction bySubstitution f v = Ok F
    /\ definiteIntegrateFraction f (Fin a) (Fin b) v = Ok r
    /\ Forall (fun t => var_get t v = None) (terms (numi r))
    /\ evaluateFraction F (obj_set values v (Fin b)) = Ok (Fin B)
    /\ evaluateFraction F (obj_set values v (Fin a)) = Ok (Fin A)
    /\ evaluateFraction r values = Ok (Fin (B - A)%Qc).
Proof.
  intros _ Hp Hd f. unfold integrand in Hp. unfold nonzero_real in Hd.
  apply andb_prop in Hd as [Hfin Hnz].
  destruct d as [d0| | |]; try discriminate.
  cbn [truthy] in Hnz. apply negb_true_iff in Hnz.
  destruct (definiteIntegrateTerms_difference values v a b (terms p) Hp)
    as [ts' [rs [Hi [Hdef [Hvs [Hbs [Has [Hrs Hq]]]]]]]].
  exists {| numi := {| terms := ts' |}; deno := DenoNumber (Fin d0) |},
         {| numi := {| terms := rs |}; deno := DenoNumber (Fin d0) |},
         (sumQ (map (termQ (at_point values v a)) ts') / d0)%Qc,
         (sumQ (map (termQ (at_point values v b)) ts') / d0)%Qc.
  unfold f, integrateFraction, definiteIntegrateFraction,
    integratePolynomial, definiteIntegratePolynomial. cbn [numi deno].
  rewrite Hi, Hdef. cbn [bind].
  split; [reflexivity|]. split; [reflexivity|]. split; [exact Hvs|].
  unfold evaluateFraction. cbn [numi deno].
  fold (at_point values v b). fold (at_point values v a).
  rewrite !evaluatePolynomial_exact_terms by assumption.
  cbn [bind div]. rewrite Hnz.
  split; [reflexivity|]. split; [reflexivity|].
  rewrite Hq. do 2 f_equal. field. now apply Qc_is0_false.
Qed.

(** The integral of [3x^2] from 0 to 2. *)
Lemma definiteIntegrateFraction_difference_witness :
  let p := poly [createTerm (ofZ 3) (x_to 2)] in
  (plain_name "x" = true
   /\ integrand [] "x" p = true /\ nonzero_real one = true)
  /\ exists F r (A B : Qc),
       integrateFraction (fun _ _ => Throw UnsupportedIntegral)
         {| numi := p; deno := DenoNumber one |} "x" = Ok F
       /\ definiteIntegrateFraction {| numi := p; deno := DenoNumber one |}
            (Fin (Q2Qc 0)) (Fin (Q2Qc 2)) "x" = Ok r
       /\ Forall (fun t => var_get t "x" = None) (terms (numi r))
       /\ evaluateFraction F (obj_set [] "x" (Fin (Q2Qc 2))) = Ok (Fin B)
       /\ evaluateFraction F (obj_set [] "x" (Fin (Q2Qc 0))) = Ok (Fin A)
       /\ evaluateFraction r [] = Ok (Fin (B - A)%Qc).
Proof.
  intros p. split; [split; [|split]; reflexivity|].
  apply (definiteIntegrateFraction_difference
           (fun _ _ => Throw UnsupportedIntegral) p one (Q2Qc 0) (Q2Qc 2)
           "x" []); reflexivity.
Defined.

(** ** The value of a derivative *)

Lemma forallb_obj_delete (ok : string * Z -> bool) (o : JSObject Z) k :
  forallb ok o = true -> forallb ok (obj_delete o k) = true.
Proof.
  induction o as [|[k' a'] rest IH]; simpl; intros H; [reflexivity|].
  apply andb_prop in H as [H1 H2].
  destruct (String.eqb k' k); simpl; [exact H2|]. now rewrite H1, IH.
Qed.

Lemma existsb_keys_obj_delete (o : JSObject Z) k k' :
  existsb (String.eqb k') (obj_keys o) = false ->
  existsb (String.eqb k') (obj_keys (obj_delete o k)) = false.
Proof.
  induction o as [|[k0 a0] rest IH]; simpl; intros H; [reflexivity|].
  apply orb_false_iff in H as [H1 H2].
  destruct (String.eqb k0 k); simpl; [exact H2|]. now rewrite H1, IH.
Qed.

Lemma obj_delete_distinct (o : JSObject Z) k :
  distinct_keys (obj_keys o) = true ->
  distinct_keys (obj_keys (obj_delete o k)) = true.
Proof.
  induction o as [|[k0 a0] rest IH]; simpl; intros H; [reflexivity|].
  apply andb_prop in H as [Hk Hrest]. apply negb_true_iff in Hk.
  destruct (String.eqb k0 k); simpl; [exact Hrest|].
  rewrite existsb_keys_obj_delete by exact Hk. simpl. now apply IH.
Qed.

Lemma mul_real_zero (c : Qc) n :
  Num.eqb (mul (Fin c) (ofZ n)) zero = false -> n <> 0.
Proof.
  intros H ->. unfold zero, ofZ in H. cbn [mul Num.eqb] in H.
  assert (E : (c * Q2Qc (inject_Z 0))%Qc = Q2Qc (inject_Z 0)).
  { replace (Q2Qc (inject_Z 0)) with (Q2Qc 0) by reflexivity. ring. }
  rewrite E in H. unfold Qc_eq_bool in H.
  destruct (Qc_eq_dec (Q2Qc (inject_Z 0)) (Q2Qc (inject_Z 0))); congruence.
Qed.

Section DerivativeValue.
Variable values : JSObject number.
Variable v : string.

(** A term that [differentiatePolynomial] keeps is again a term of the
    data model with bound variables. *)
Lemma differentiateTerm_model t :
  wf_term t = true -> binds_term values t = true ->
  Num.eqb (coeff (differentiateTerm t v)) zero = false ->
  wf_term (differentiateTerm t v) = true
  /\ binds_term values (differentiateTerm t v) = true.
Proof.
  unfold wf_term, binds_term, differentiateTerm.
  destruct t as [c o]. cbn [coeff var deepClone].
  intros Hwf Hb. apply andb_prop in Hwf as [Hc Hwf].
  destruct c as [c0| | |]; try discriminate.
  cbn [jsonNumber isFinite].
  destruct o as [vars|]; [|intros H; discriminate H].
  apply andb_prop in Hwf as [Hd Hn].
  destruct (obj_get vars v) as [n|] eqn:Hg; [|intros H; discriminate H].
  destruct (n =? 1) eqn:E1; cbn [coeff var]; intros Hnz.
  - unfold ofZ. cbn [mul isFinite andb].
    destruct (List.length (obj_keys (obj_delete vars v)) =? 0)%nat;
      [split; reflexivity|].
    rewrite obj_delete_distinct, !forallb_obj_delete by assumption.
    split; reflexivity.
  - apply mul_real_zero in Hnz.
    pose proof (exponent_nonneg vars v n Hn Hg) as Hn0.
    unfold ofZ. cbn [mul isFinite andb].
    rewrite obj_set_distinct by exact Hd.
    rewrite !forallb_obj_set; try assumption.
    + split; reflexivity.
    + simpl. clear Hn Hd. induction vars as [|[k a] rest IH];
        simpl in *; [discriminate|].
      apply andb_prop in Hb as [Hb1 Hb2].
      destruct (String.eqb k v) eqn:E.
      * apply String.eqb_eq in E. now subst k.
      * now apply IH.
    + simpl. apply Z.leb_le. lia.
Qed.

Lemma differentiatePolynomial_model p :
  model_polynomial values p = true ->
  model_polynomial values (differentiatePolynomial p v) = true.
Proof.
  unfold model_polynomial, wf_polynomial, binds_polynomial,
    differentiatePolynomial. cbn [terms]. intros H.
  apply andb_prop in H as [Hwf Hb].
  induction (terms p) as [|t rest IH]; cbn [map filter forallb];
    [reflexivity|].
  simpl in Hwf, Hb.
  apply andb_prop in Hwf as [Hw Hwf]. apply andb_prop in Hb as [Hbt Hb].
  specialize (IH Hwf Hb).
  destruct (Num.eqb (coeff (differentiateTerm t v)) zero) eqn:E;
    cbn [negb]; [exact IH|].
  destruct (differentiateTerm_model t Hw Hbt E) as [A B].
  apply andb_prop in IH as [IH1 IH2].
  cbn [forallb]. now rewrite A, B, IH1, IH2.
Qed.

(** The product of two polynomials of the data model evaluates to the
    product of their values. *)
Lemma multiplyPolynomials_exact p q :
  model_polynomial values p = true -> model_polynomial values q = true ->
  evaluatePolynomial (multiplyPolynomials p q) values =
  Ok (Fin (polynomialQ values p * polynomialQ values q)%Qc).
Proof.
  unfold model_polynomial, wf_polynomial, binds_polynomial.
  intros Hp Hq.
  apply andb_prop in Hp as [Hwp Hbp]. apply andb_prop in Hq as [Hwq Hbq].
  unfold evaluatePolynomial, zero, ofZ. cbn [multiplyPolynomials terms].
  rewrite (evaluatePolynomial_loop_exact values _ _
             (evaluate_to_products values _ _ Hwp Hbp Hwq Hbq)).
  rewrite sumQ_products. do 2 f_equal.
  unfold polynomialQ. replace (Q2Qc (inject_Z 0)) with (Q2Qc 0)
    by reflexivity.
  ring.
Qed.
End DerivativeValue.

(** X14: In exact arithmetic the value of the derivative of [f/g] follows
    the quotient rule: it is [(f' g - f g') / g^2] computed from the values
    of [f], [g] and of their derivatives [differentiatePolynomial(f, v)]
    and [differentiatePolynomial(g, v)], for polynomials of the data model
    and a binding with a real value for each variable.  No variable is
    named after a member of [Object.prototype]. *)
Theorem differentiateFraction_evaluates (f g : Polynomial) (v : string)
    (values : JSObject number) :
  plain_name v = true -> plain_names f = true -> plain_names g = true ->
  model_polynomial values f = true -> model_polynomial values g = true ->
  exists F F' G G' : Qc,
    evaluatePolynomial f values = Ok (Fin F)
    /\ evaluatePolynomial g values = Ok (Fin G)
    /\ evaluatePolynomial (differentiatePolynomial f v) values = Ok (Fin F')
    /\ evaluatePolynomial (differentiatePolynomial g v) values = Ok (Fin G')
    /\ evaluateFraction
         (differentiateFraction {| numi := f; deno := DenoPolynomial g |} v)
         values =
       Ok (div (Fin (F' * G - F * G')%Qc) (Fin (G * G)%Qc)).
Proof.
  intros _ _ _ Hf Hg.
  pose proof (differentiatePolynomial_model values v f Hf) as Hf'.
  pose proof (differentiatePolynomial_model values v g Hg) as Hg'.
  exists (polynomialQ values f),
         (polynomialQ values (differentiatePolynomial f v)),
         (polynomialQ values g),
         (polynomialQ values (differentiatePolynomial g v)).
  repeat (split; [apply evaluatePolynomial_exact;
                  now apply model_polynomial_exact|]).
  unfold differentiateFraction, evaluateFraction. cbn [numi deno].
  rewrite evaluatePolynomial_subtract.
  rewrite !multiplyPolynomials_exact by assumption.
  reflexivity.
Qed.

(** [x/(x+1)] differentiated in [x], at [x = 1]. *)
Lemma differentiateFraction_evaluates_witness :
  let f := numi x_over_x_plus_1 in
  let g := poly [term_x; term_const 1] in
  let values := [("x", ofZ 1)] in
  (plain_name "x" = true /\ plain_names f = true /\ plain_names g = true
   /\ model_polynomial values f = true /\ model_polynomial values g = true)
  /\ exists F F' G G' : Qc,
       evaluatePolynomial f values = Ok (Fin F)
       /\ evaluatePolynomial g values = Ok (Fin G)
       /\ evaluatePolynomial (differentiatePolynomial f "x") values
          = Ok (Fin F')
       /\ evaluatePolynomial (differentiatePolynomial g "x") values
          = Ok (Fin G')
       /\ evaluateFraction
            (differentiateFraction
               {| numi := f; deno := DenoPolynomial g |} "x") values =
          Ok (div (Fin (F' * G - F * G')%Qc) (Fin (G * G)%Qc)).
Proof.
  intros f g values. split; [repeat split|].
  apply (differentiateFraction_evaluates f g "x" values); reflexivity.
Defined.

(** ** The product rule *)

Lemma first_loop_get (o : JSObject Z) k : forall acc,
  distinct_keys (obj_keys o) = true ->
  obj_get (fold_left (fun vars e => obj_set vars (fst e) (snd e)) o acc) k =
  match obj_get o k with
  | Some n => Some n
  | None => obj_get acc k
  end.
Proof.
  induction o as [|[k0 e] rest IH]; simpl; intros acc Hd; [reflexivity|].
  apply andb_prop in Hd as [Hk Hd]. apply negb_true_iff in Hk.
  rewrite IH by exact Hd.
  destruct (String.eqb k0 k) eqn:E.
  - apply String.eqb_eq in E. subst k0.
    rewrite (obj_get_absent rest k Hk). apply obj_get_set_same.
  - destruct (obj_get rest k); [reflexivity|].
    apply obj_get_set_other. intros ->. now rewrite String.eqb_refl in E.
Qed.

Lemma second_loop_get (o : JSObject Z) k : forall acc,
  distinct_keys (obj_keys o) = true ->
  obj_get
    (fold_left
       (fun vars e =>
          obj_set vars (fst e) (or_zero (obj_get vars (fst e)) + snd e))
       o acc) k =
  match obj_get o k with
  | Some n => Some (or_zero (obj_get acc k) + n)
  | None => obj_get acc k
  end.
Proof.
  induction o as [|[k0 e] rest IH]; simpl; intros acc Hd; [reflexivity|].
  apply andb_prop in Hd as [Hk Hd]. apply negb_true_iff in Hk.
  rewrite IH by exact Hd.
  destruct (String.eqb k0 k) eqn:E.
  - apply String.eqb_eq in E. subst k0.
    rewrite (obj_get_absent rest k Hk). apply obj_get_set_same.
  - assert (Hne : k <> k0) by (intros ->; now rewrite String.eqb_refl in E).
    now rewrite obj_get_set_other by exact Hne.
Qed.

Lemma or_zero_some x : or_zero (Some x) = x.
Proof.
  unfold or_zero. destruct (x =? 0) eqn:E; [|reflexivity].
  apply Z.eqb_eq in E. now subst x.
Qed.

(** The exponent of a variable in a product of terms is the sum of its
    exponents in the factors. *)
Lemma exponent_of_multiplyTerms t1 t2 v :
  wf_term t1 = true -> wf_term t2 = true ->
  exponent_of (multiplyTerms t1 t2) v = exponent_of t1 v + exponent_of t2 v.
Proof.
  unfold wf_term. intros H1 H2.
  apply andb_prop in H1 as [_ H1]. apply andb_prop in H2 as [_ H2].
  set (o1 := match var t1 with Some vars => vars | None => [] end).
  set (o2 := match var t2 with Some vars => vars | None => [] end).
  assert (Hd1 : distinct_keys (obj_keys o1) = true).
  { unfold o1. destruct (var t1); [|reflexivity].
    now apply andb_prop in H1 as [H1 _]. }
  assert (Hd2 : distinct_keys (obj_keys o2) = true).
  { unfold o2. destruct (var t2); [|reflexivity].
    now apply andb_prop in H2 as [H2 _]. }
  assert (E1 : exponent_of t1 v =
               match obj_get o1 v with Some n => n | None => 0 end).
  { unfold exponent_of, var_get, o1. now destruct (var t1). }
  assert (E2 : exponent_of t2 v =
               match obj_get o2 v with Some n => n | None => 0 end).
  { unfold exponent_of, var_get, o2. now destruct (var t2). }
  set (vars1 := fold_left (fun vars e => obj_set vars (fst e) (snd e))
                  o1 []).
  set (vars := fold_left
                 (fun vars e =>
                    obj_set vars (fst e)
                      (or_zero (obj_get vars (fst e)) + snd e))
                 o2 vars1).
  assert (Hm : var (multiplyTerms t1 t2) =
               if (0 <? List.length (obj_keys vars))%nat
               then Some vars else None).
  { unfold multiplyTerms, vars, vars1, o1, o2. cbn [var].
    destruct (var t1), (var t2); reflexivity. }
  assert (E : exponent_of (multiplyTerms t1 t2) v =
              match obj_get vars v with Some n => n | None => 0 end).
  { unfold exponent_of, var_get. rewrite Hm.
    destruct vars as [|e rest]; reflexivity. }
  rewrite E, E1, E2. unfold vars.
  rewrite second_loop_get by exact Hd2.
  unfold vars1. rewrite first_loop_get by exact Hd1.
  cbn [obj_get].
  destruct (obj_get o2 v) as [b|], (obj_get o1 v) as [a|];
    rewrite ?or_zero_some; cbn [or_zero]; lia.
Qed.

Lemma inject_add a b :
  Q2Qc (inject_Z (a + b)) = (Q2Qc (inject_Z a) + Q2Qc (inject_Z b))%Qc.
Proof.
  pose proof (ofZ_add a b) as H. unfold ofZ in H. cbn [add] in H.
  apply (f_equal (fun n => match n with Fin x => x | _ => Q2Qc 0 end)) in H.
  symmetry. exact H.
Qed.

(** The power rule on a product of two powers. *)
Lemma power_rule_sum (x : Qc) a b :
  0 <= a -> 0 <= b ->
  (Q2Qc (inject_Z (a + b)) * x ^ Z.to_nat (a + b - 1) =
   Q2Qc (inject_Z a) * x ^ Z.to_nat (a - 1) * x ^ Z.to_nat b
   + x ^ Z.to_nat a * (Q2Qc (inject_Z b) * x ^ Z.to_nat (b - 1)))%Qc.
Proof.
  intros Ha Hb. rewrite inject_add.
  assert (H0 : Q2Qc (inject_Z 0) = Q2Qc 0) by reflexivity.
  destruct (Z.eq_dec a 0) as [->|Ha0].
  - rewrite H0. cbn [Z.add]. simpl (Z.to_nat 0). simpl (Z.to_nat (0 - 1)).
    cbn [Qcpower]. ring.
  - destruct (Z.eq_dec b 0) as [->|Hb0].
    + rewrite H0, Z.add_0_r. simpl (Z.to_nat 0). simpl (Z.to_nat (0 - 1)).
      cbn [Qcpower]. ring.
    + replace (Z.to_nat (a + b - 1))
        with (S (Z.to_nat (a - 1) + Z.to_nat (b - 1)))%nat by lia.
      replace (Z.to_nat a) with (S (Z.to_nat (a - 1))) by lia.
      replace (Z.to_nat b) with (S (Z.to_nat (b - 1))) by lia.
      replace (Z.to_nat (Z.of_nat (S (Z.to_nat (a - 1))) - 1))
        with (Z.to_nat (a - 1)) by lia.
      replace (Z.to_nat (Z.of_nat (S (Z.to_nat (b - 1))) - 1))
        with (Z.to_nat (b - 1)) by lia.
      cbn [Qcpower]. rewrite Qcpower_add. ring.
Qed.

Lemma sumQ_cons x xs : sumQ (x :: xs) = (x + sumQ xs)%Qc.
Proof. reflexivity. Qed.

Section ProductRule.
Variable values : JSObject number.
Variable v : string.

Lemma monomialQ_unit_delete (o : JSObject Z) :
  monomialQ (unit_point values v) (obj_delete o v) =
  monomialQ (unit_point values v) o.
Proof.
  unfold unit_point.
  induction o as [|[k a] rest IH]; simpl; [reflexivity|].
  destruct (String.eqb k v) eqn:E; simpl.
  - apply String.eqb_eq in E. subst k.
    rewrite valueQ_at_point_same, Qcpower_1. ring.
  - now rewrite IH.
Qed.

Lemma monomialQ_unit_set (o : JSObject Z) m :
  monomialQ (unit_point values v) (obj_set o v m) =
  monomialQ (unit_point values v) o.
Proof.
  rewrite <- (monomialQ_unit_delete o). unfold unit_point.
  rewrite monomialQ_split, Qcpower_1. ring.
Qed.

(** A monomial is the power of [v] in it times the rest. *)
Lemma monomialQ_factor (o : JSObject Z) :
  distinct_keys (obj_keys o) = true ->
  monomialQ values o =
  (valueQ values v
     ^ Z.to_nat (match obj_get o v with Some n => n | None => 0 end)
   * monomialQ (unit_point values v) o)%Qc.
Proof.
  unfold unit_point.
  induction o as [|[k a] rest IH]; simpl; intros Hd; [ring|].
  apply andb_prop in Hd as [Hk Hd]. apply negb_true_iff in Hk.
  destruct (String.eqb k v) eqn:E.
  - apply String.eqb_eq in E. subst k.
    rewrite valueQ_at_point_same, Qcpower_1.
    rewrite monomialQ_without by exact Hk. ring.
  - rewrite IH by exact Hd.
    rewrite valueQ_at_point_other
      by (intros ->; now rewrite String.eqb_refl in E).
    ring.
Qed.

Lemma wf_term_distinct t :
  wf_term t = true ->
  distinct_keys
    (obj_keys match var t with Some vars => vars | None => [] end) = true.
Proof.
  unfold wf_term. intros H. apply andb_prop in H as [_ H].
  destruct (var t); [|reflexivity]. now apply andb_prop in H as [H _].
Qed.

Lemma termQ_factor t :
  wf_term t = true ->
  termQ values t =
  (valueQ values v ^ Z.to_nat (exponent_of t v)
   * termQ (unit_point values v) t)%Qc.
Proof.
  intros Hwf. pose proof (wf_term_distinct t Hwf) as Hd.
  unfold termQ, exponent_of, var_get.
  rewrite (monomialQ_factor _ Hd).
  destruct (var t); cbn [obj_get]; ring.
Qed.

Lemma exponent_of_nonneg t : wf_term t = true -> 0 <= exponent_of t v.
Proof.
  unfold wf_term, exponent_of, var_get. intros H.
  apply andb_prop in H as [_ H].
  destruct (var t) as [vars|]; [|lia].
  apply andb_prop in H as [_ H].
  destruct (obj_get vars v) as [n|] eqn:Hg; [|lia].
  exact (exponent_nonneg vars v n H Hg).
Qed.

(** [differentiateTerm] yields a term whose value is the derivative of the
    value of the term. *)
Lemma differentiateTerm_value t :
  wf_term t = true ->
  termQ values (differentiateTerm t v) = derivativeQ values v t.
Proof.
  intros Hwf. pose proof (wf_term_distinct t Hwf) as Hd.
  unfold wf_term in Hwf. apply andb_prop in Hwf as [Hc _].
  destruct t as [c o]. cbn [coeff var] in *.
  destruct c as [c0| | |]; try discriminate.
  assert (H0 : Q2Qc (inject_Z 0) = Q2Qc 0) by reflexivity.
  unfold differentiateTerm, derivativeQ, exponent_of, var_get, termQ, coeffQ.
  cbn [deepClone coeff var jsonNumber isFinite].
  destruct o as [vars|]; cbn [coeff var createTerm1].
  - destruct (obj_get vars v) as [n|] eqn:Hg.
    + destruct (n =? 1) eqn:E1; cbn [coeff var mul ofZ].
      * apply Z.eqb_eq in E1. subst n.
        assert (Hm : monomialQ values
                       match
                         (if (List.length (obj_keys (obj_delete vars v))
                              =? 0)%nat
                          then None else Some (obj_delete vars v))
                       with
                       | Some vars0 => vars0
                       | None => []
                       end = monomialQ values (obj_delete vars v)).
        { destruct (obj_delete vars v); reflexivity. }
        rewrite Hm.
        rewrite (monomialQ_factor (obj_delete vars v))
          by (now apply obj_delete_distinct).
        rewrite (obj_get_absent _ _ (obj_delete_absent vars v Hd)).
        rewrite monomialQ_unit_delete. unfold ofZ. cbn [mul].
        simpl (Z.to_nat (1 - 1)). simpl (Z.to_nat 0). ring.
      * rewrite (monomialQ_factor (obj_set vars v (n - 1)))
          by (now apply obj_set_distinct).
        rewrite obj_get_set_same, monomialQ_unit_set.
        unfold ofZ. cbn [mul]. ring.
    + unfold zero, ofZ, createTerm1, createTerm. simpl List.length.
    cbn [Nat.ltb Nat.leb coeff var monomialQ].
      rewrite H0. ring.
  - unfold zero, ofZ, createTerm1, createTerm. simpl List.length.
    cbn [Nat.ltb Nat.leb coeff var monomialQ].
    rewrite H0. ring.
Qed.

Lemma exact_term_unit_point t :
  exact_term values t = true -> exact_term (unit_point values v) t = true.
Proof.
  unfold exact_term, unit_point. intros H. apply andb_prop in H as [Hc Hg].
  rewrite Hc. cbn [andb]. destruct (var t) as [vars|]; [|reflexivity].
  induction vars as [|e rest IH]; simpl in *; [reflexivity|].
  apply andb_prop in Hg as [He Hrest]. rewrite IH by exact Hrest.
  unfold good_entry in *. apply andb_prop in He as [Hb Hn].
  now rewrite binds_at_point, Hb, Hn, orb_true_r.
Qed.

(** The product rule on two terms. *)
Lemma multiplyTerms_derivative t1 t2 :
  wf_term t1 = true -> exact_term values t1 = true ->
  wf_term t2 = true -> exact_term values t2 = true ->
  derivativeQ values v (multiplyTerms t1 t2) =
  (derivativeQ values v t1 * termQ values t2
   + termQ values t1 * derivativeQ values v t2)%Qc.
Proof.
  intros Hw1 Hx1 Hw2 Hx2. unfold derivativeQ.
  rewrite exponent_of_multiplyTerms by assumption.
  destruct (multiplyTerms_value (unit_point values v) t1 t2 Hw1
              (exact_term_unit_point t1 Hx1) (exact_term_unit_point t2 Hx2))
    as [_ ->].
  rewrite (termQ_factor t1 Hw1), (termQ_factor t2 Hw2).
  rewrite (power_rule_sum (valueQ values v) _ _
             (exponent_of_nonneg t1 Hw1) (exponent_of_nonneg t2 Hw2)).
  ring.
Qed.

Lemma termQ_zero_coeff t :
  Num.eqb (coeff t) zero = true -> termQ values t = Q2Qc 0.
Proof.
  unfold termQ, coeffQ, zero, ofZ. destruct (coeff t) as [c| | |];
    cbn [Num.eqb]; intros H; try discriminate.
  apply Qc_eq_bool_correct in H. rewrite H.
  replace (Q2Qc (inject_Z 0)) with (Q2Qc 0) by reflexivity. ring.
Qed.

(** The value of [differentiatePolynomial] is the sum of the derivatives
    of the terms. *)
Lemma differentiateTerms_value ts :
  forallb wf_term ts = true ->
  sumQ (map (termQ values)
          (filter (fun term => negb (Num.eqb (coeff term) zero))
             (map (fun term => differentiateTerm term v) ts))) =
  sumQ (map (derivativeQ values v) ts).
Proof.
  induction ts as [|t rest IH]; cbn [map filter forallb]; intros H;
    [reflexivity|].
  apply andb_prop in H as [Hw H]. specialize (IH H).
  destruct (Num.eqb (coeff (differentiateTerm t v)) zero) eqn:E;
    cbn [negb map]; rewrite ?sumQ_cons, IH.
  - rewrite <- (differentiateTerm_value t Hw), (termQ_zero_coeff _ E).
    ring.
  - now rewrite differentiateTerm_value.
Qed.

Lemma exact_term_binds t :
  exact_term values t = true -> binds_term values t = true.
Proof.
  unfold exact_term, binds_term. intros H. apply andb_prop in H as [_ H].
  destruct (var t) as [vars|]; [|reflexivity].
  induction vars as [|e rest IH]; simpl in *; [reflexivity|].
  apply andb_prop in H as [He H]. rewrite IH by exact H.
  unfold good_entry in He. apply andb_prop in He as [Hb _]. now rewrite Hb.
Qed.

(** The products of the terms of two polynomials of the data model are
    terms of the data model, and the derivatives of their values follow
    the product rule. *)
Lemma multiplyTerms_all ts1 ts2 :
  forallb wf_term ts1 = true -> forallb (exact_term values) ts1 = true ->
  forallb wf_term ts2 = true -> forallb (exact_term values) ts2 = true ->
  let products :=
    flat_map (fun t1 => map (fun t2 => multiplyTerms t1 t2) ts2) ts1 in
  forallb wf_term products = true
  /\ forallb (binds_term values) products = true
  /\ sumQ (map (derivativeQ values v) products) =
     (sumQ (map (derivativeQ values v) ts1) * sumQ (map (termQ values) ts2)
      + sumQ (map (termQ values) ts1)
        * sumQ (map (derivativeQ values v) ts2))%Qc.
Proof.
  intros Hw1 Hx1 Hw2 Hx2.
  induction ts1 as [|t1 rest IH]; cbn [flat_map map forallb].
  - split; [reflexivity|]. split; [reflexivity|]. simpl. ring.
  - simpl in Hw1, Hx1.
    apply andb_prop in Hw1 as [Hwt Hw1]. apply andb_prop in Hx1 as [Hxt Hx1].
    destruct (IH Hw1 Hx1) as [A [B C]]. clear IH.
    assert (Hrow :
              forallb wf_term (map (fun t2 => multiplyTerms t1 t2) ts2) = true
              /\ forallb (binds_term values)
                   (map (fun t2 => multiplyTerms t1 t2) ts2) = true
              /\ sumQ (map (derivativeQ values v)
                         (map (fun t2 => multiplyTerms t1 t2) ts2)) =
                 (derivativeQ values v t1 * sumQ (map (termQ values) ts2)
                  + termQ values t1
                    * sumQ (map (derivativeQ values v) ts2))%Qc).
    { clear A B C.
      induction ts2 as [|t2 rest2 IH2]; cbn [map forallb].
      - split; [reflexivity|]. split; [reflexivity|]. simpl. ring.
      - simpl in Hw2, Hx2.
        apply andb_prop in Hw2 as [Hwu Hw2].
        apply andb_prop in Hx2 as [Hxu Hx2].
        destruct (IH2 Hw2 Hx2) as [A [B C]].
        destruct (multiplyTerms_value values t1 t2 Hwt Hxt Hxu)
          as [Hex _].
        rewrite A, B, (multiplyTerms_wf values t1 t2 Hex),
          (exact_term_binds _ Hex).
        split; [reflexivity|]. split; [reflexivity|].
        rewrite !sumQ_cons, C, multiplyTerms_derivative by assumption.
        ring. }
    destruct Hrow as [A' [B' C']].
    rewrite !forallb_app, A, B, A', B'.
    split; [reflexivity|]. split; [reflexivity|].
    rewrite map_app, sumQ_app, C, C', !sumQ_cons. ring.
Qed.
End ProductRule.

(** X15: In exact arithmetic the derivative of a product follows the
    product rule: the value of
    [differentiatePolynomial(multiplyPolynomials(p, q), v)] is
    [p' q + p q'], computed from the values of [p], [q] and of their
    derivatives, for polynomials of the data model and a binding with a
    real value for each variable.  No variable is named after a member of
    [Object.prototype]. *)
Theorem differentiatePolynomial_product_rule (p q : Polynomial) (v : string)
    (values : JSObject number) :
  plain_name v = true -> plain_names p = true -> plain_names q = true ->
  model_polynomial values p = true -> model_polynomial values q = true ->
  exists P P' Q Q' : Qc,
    evaluatePolynomial p values = Ok (Fin P)
    /\ evaluatePolynomial q values = Ok (Fin Q)
    /\ evaluatePolynomial (differentiatePolynomial p v) values = Ok (Fin P')
    /\ evaluatePolynomial (differentiatePolynomial q v) values = Ok (Fin Q')
    /\ evaluatePolynomial
         (differentiatePolynomial (multiplyPolynomials p q) v) values =
       Ok (Fin (P' * Q + P * Q')%Qc).
Proof.
  intros _ _ _ Hp Hq.
  pose proof (differentiatePolynomial_model values v p Hp) as Hp'.
  pose proof (differentiatePolynomial_model values v q Hq) as Hq'.
  pose proof (model_polynomial_exact values p Hp) as Hxp.
  pose proof (model_polynomial_exact values q Hq) as Hxq.
  assert (Hwp : forallb wf_term (terms p) = true).
  { unfold model_polynomial in Hp. now apply andb_prop in Hp as [Hp _]. }
  assert (Hwq : forallb wf_term (terms q) = true).
  { unfold model_polynomial in Hq. now apply andb_prop in Hq as [Hq _]. }
  destruct (multiplyTerms_all values v (terms p) (terms q) Hwp Hxp Hwq Hxq)
    as [Hw [Hb Hsum]].
  assert (Hpq : model_polynomial values (multiplyPolynomials p q) = true).
  { unfold model_polynomial, wf_polynomial, binds_polynomial,
      multiplyPolynomials. cbn [terms]. now rewrite Hw, Hb. }
  pose proof (differentiatePolynomial_model values v _ Hpq) as Hpq'.
  exists (polynomialQ values p),
         (polynomialQ values (differentiatePolynomial p v)),
         (polynomialQ values q),
         (polynomialQ values (differentiatePolynomial q v)).
  repeat (split; [apply evaluatePolynomial_exact;
                  now apply model_polynomial_exact|]).
  rewrite evaluatePolynomial_exact by (now apply model_polynomial_exact).
  do 2 apply f_equal.
  unfold polynomialQ, differentiatePolynomial. cbn [terms].
  rewrite !differentiateTerms_value by assumption.
  unfold multiplyPolynomials. cbn [terms]. exact Hsum.
Qed.

(** [(x + 1)(x^2)] differentiated in [x], at [x = 2]. *)
Lemma differentiatePolynomial_product_rule_witness :
  let p := poly [term_x; term_const 1] in
  let q := poly [term_x2] in
  let values := [("x", ofZ 2)] in
  (plain_name "x" = true /\ plain_names p = true /\ plain_names q = true
   /\ model_polynomial values p = true /\ model_polynomial values q = true)
  /\ exists P P' Q Q' : Qc,
       evaluatePolynomial p values = Ok (Fin P)
       /\ evaluatePolynomial q values = Ok (Fin Q)
       /\ evaluatePolynomial (differentiatePolynomial p "x") values
          = Ok (Fin P')
       /\ evaluatePolynomial (differentiatePolynomial q "x") values
          = Ok (Fin Q')
       /\ evaluatePolynomial
            (differentiatePolynomial (multiplyPolynomials p q) "x") values =
          Ok (Fin (P' * Q + P * Q')%Qc).
Proof.
  intros p q values. split; [repeat split|].
  apply (differentiatePolynomial_product_rule p q "x" values); reflexivity.
Defined.

(** ** Simplifying products and equations *)

Lemma simplifyProduct_loop_value values product : forall result,
  forallb (integer_fraction values) product = true ->
  evaluateProduct_loop (simplifyProduct product) values result =
  evaluateProduct_loop product values result.
Proof.
  unfold simplifyProduct.
  induction product as [|f rest IH]; intros result H;
    cbn [map evaluateProduct_loop forallb] in *; [reflexivity|].
  apply andb_prop in H as [Hf Hrest].
  rewrite (simplifyFraction_value f values Hf).
  destruct (evaluateFraction f values) as [x|e]; [|reflexivity].
  cbn [bind]. now apply IH.
Qed.

(** X8: In exact arithmetic [simplifyEquation] keeps the value of an
    equation whose fractions are fractions of integer polynomials: it
    simplifies every fraction of every product, and none of them changes
    its value. *)
Theorem simplifyEquation_preserves_value (equation : list (list Fraction))
    (values : JSObject number) :
  forallb (forallb (integer_fraction values)) equation = true ->
  evaluateEquation (simplifyEquation equation) values =
  evaluateEquation equation values.
Proof.
  unfold evaluateEquation, simplifyEquation. generalize zero.
  induction equation as [|product rest IH]; intros sum H;
    cbn [map evaluateEquation_loop forallb] in *; [reflexivity|].
  apply andb_prop in H as [Hp Hrest].
  unfold evaluateProduct at 1.
  rewrite (simplifyProduct_loop_value values product one Hp).
  fold (evaluateProduct product values).
  destruct (evaluateProduct product values) as [x|e]; [|reflexivity].
  cbn [bind]. now apply IH.
Qed.

(** [(6x^2 + 9x)/3 * x/(x + 1) + 0/3] at [x = 2]. *)
Lemma simplifyEquation_preserves_value_witness :
  let equation :=
    [[six_x2_plus_nine_x_over_3; x_over_x_plus_1]; [zero_over_3]] in
  let values := [("x", ofZ 2)] in
  forallb (forallb (integer_fraction values)) equation = true
  /\ evaluateEquation (simplifyEquation equation) values =
     evaluateEquation equation values.
Proof.
  intros equation values. split; [reflexivity|].
  apply (simplifyEquation_preserves_value equation values). reflexivity.
Defined.
